(** * Retrieval and result fusion of the RAG front end

    A shallow embedding of the three algorithms of the repository and the
    properties its specification states about them:

    - [_merge_hits]   (full/qa_cli.py, full_qdrant/qa_cli.py,
                       rasa_rag/actions/actions.py: the three copies have
                       the same body),
    - [_mmr]          (actions/retriever.py, rasa_rag/actions/retriever.py),
    - [search_hybrid] (same two files).

    Further modules embed the chunking of the ingestion ([chunk_text]), the
    language check and the translation of the local store
    ([_looks_like_russian], [_translate_to_ru]), the retry loop of the chat
    client ([LLMClient.generate]), the search in the local store
    ([_search]) and [collect_documents].

    Numbers.  A Python [float] is an IEEE 754 binary64 number and an entry
    of a numpy [float32] array a binary32 number.  Both are values of
    [spec_float] (zeros, infinities, NaN, finite numbers), and every
    operation of the code is the operation of [SpecFloat] at the precision
    the code computes in: comparisons are false on NaN, products, sums and
    differences round to nearest even and overflow to an infinity,
    [float(n)] of a Python [int] rounds and raises [OverflowError] beyond
    the range.  The inner products of numpy ([C @ q], [S @ C.T]) are
    computed by the BLAS library numpy is linked with, which fixes neither
    the order of the additions nor their fusion with the products: the
    inner product is a parameter, and [dot_in_order] is the one that adds
    the rounded products from left to right.

    Exceptions.  Every Python operation that can raise returns a [result];
    the functions that call them are written in the error monad, in the
    order in which the source evaluates them. *)

From Stdlib Require Import String DecimalString.
From Stdlib Require Import List ZArith Bool Lia SpecFloat.
From Stdlib Require Import Permutation Sorted.
Import ListNotations.

Open Scope string_scope.
Open Scope Z_scope.
Open Scope nat_scope.
Open Scope list_scope.

Set Implicit Arguments.


(* ================================================================== *)
(** * Python runtime fragments *)
(* ================================================================== *)

Module Py.

(** The exceptions the modelled operations can raise.  [EmbeddingFailure]
    and [IndexUnavailable] are what the two remote collaborators raise. *)
Inductive exn : Set :=
  | KeyError | TypeError | ValueError | StopIteration | IndexError
  | OverflowError | EmbeddingFailure | IndexUnavailable.

Inductive result (A : Type) : Type :=
  | Ok (a : A)
  | Raise (e : exn).
Arguments Ok {A} a.
Arguments Raise {A} e.

Definition bind {A B : Type} (m : result A) (f : A -> result B) : result B :=
  match m with
  | Ok a => f a
  | Raise e => Raise e
  end.

Notation "x <- m ;; k" := (bind m (fun x => k))
  (at level 61, m at next level, right associativity).

(** [mapM f l]: a comprehension [[f(x) for x in l]], left to right, stopping
    at the first exception. *)
Fixpoint mapM {A B : Type} (f : A -> result B) (l : list A) : result (list B) :=
  match l with
  | [] => Ok []
  | x :: tl =>
      y <- f x ;;
      ys <- mapM f tl ;;
      Ok (y :: ys)
  end.

(** [xs[:stop]] for a Python int [stop]: a negative [stop] counts from the
    end of the list. *)
Definition slice_to {A : Type} (xs : list A) (stop : Z) : list A :=
  if (0 <=? stop)%Z then firstn (Z.to_nat stop) xs
  else firstn (Z.to_nat (Z.of_nat (length xs) + stop)) xs.

(** [xs[i]] for a non-negative index. *)
Definition getitem {A : Type} (xs : list A) (i : nat) : result A :=
  match nth_error xs i with
  | Some x => Ok x
  | None => Raise IndexError
  end.

(** ** Floats

    One type for the binary64 numbers of Python and the binary32 numbers
    of numpy; the precision is that of the operation. *)
Definition float := spec_float.

Definition NaN : float := S754_nan.
Definition PosInf : float := S754_infinity false.
Definition NegInf : float := S754_infinity true.
Definition zero : float := S754_zero false.

(** [math.isnan], [math.isinf], [math.isfinite]. *)
Definition is_nan (x : float) : bool :=
  match x with
  | S754_nan => true
  | _ => false
  end.

Definition is_inf (x : float) : bool :=
  match x with
  | S754_infinity _ => true
  | _ => false
  end.

Definition is_finite (x : float) : bool :=
  match x with
  | S754_zero _ | S754_finite _ _ _ => true
  | _ => false
  end.

(** [x > y], [x >= y] and [x == y]: false as soon as one side is NaN; the
    two zeros are equal. *)
Definition float_gt (x y : float) : bool := SFltb y x.
Definition float_ge (x y : float) : bool := SFleb y x.
Definition float_eq (x y : float) : bool := SFeqb x y.

(** Two floats that no comparison tells apart: the same float, or two
    zeros. *)
Definition same_value (x y : float) : Prop :=
  x = y \/ exists s s', x = S754_zero s /\ y = S754_zero s'.

(** *** binary64 *)

(** The float nearest to an integer (ties to even), [inf] beyond the
    range. *)
Definition float_of_int (z : Z) : float := binary_normalize 53 1024 z 0 false.

Definition float_sub (x y : float) : float := SFsub 53 1024 x y.

(** The literal [n/d] written in decimal ([0.4] is [dec 4 10]): the float
    nearest to the quotient. *)
Definition dec (n d : Z) : float :=
  SFdiv 53 1024 (float_of_int n) (float_of_int d).

Definition one : float := float_of_int 1.

(** *** binary32 *)

(** A float that is a binary32 number. *)
Definition is_float32 (x : float) : bool := valid_binary 24 128 x.

(** [np.float32(x)] of a Python float: the nearest binary32 number. *)
Definition to_float32 (x : float) : float :=
  match x with
  | S754_finite s m e => binary_round 24 128 s m e
  | _ => x
  end.

(** [float(x)] of a [np.float32]: the same number, as a binary64. *)
Definition to_float64 (x : float) : float :=
  match x with
  | S754_finite s m e => binary_round 53 1024 s m e
  | _ => x
  end.

Definition f32_add (x y : float) : float := SFadd 24 128 x y.
Definition f32_sub (x y : float) : float := SFsub 24 128 x y.
Definition f32_mul (x y : float) : float := SFmul 24 128 x y.
Definition f32_neg (x : float) : float := SFopp x.

(** The literal [n/d] stored in a [float32] array. *)
Definition dec32 (n d : Z) : float := to_float32 (dec n d).

(** ** Values stored in a hit *)

(** What is found under ["id"]: Qdrant point ids are integers or strings
    (UUIDs); a producer may also leave [None]. *)
Inductive pyid : Set :=
  | IdNone
  | IdInt (z : Z)
  | IdStr (s : string).

(** What is found under ["score"]. *)
Inductive pyval : Set :=
  | PyNone
  | PyBool (b : bool)
  | PyInt (z : Z)
  | PyFloat (x : float)
  | PyStr (s : string).

(** [str(hit_id)]. *)
Definition py_str (i : pyid) : string :=
  match i with
  | IdNone => "None"
  | IdInt z => NilZero.string_of_int (Z.to_int z)
  | IdStr s => s
  end.

(** [isinstance(v, (int, float))]; [bool] is a subclass of [int]. *)
Definition isinstance_int_float (v : pyval) : bool :=
  match v with
  | PyBool _ | PyInt _ | PyFloat _ => true
  | PyNone | PyStr _ => false
  end.

(** [float(v)].  An [int] is rounded to the nearest float and raises
    [OverflowError] when that is beyond the largest one.  Strings are not
    parsed: [float] of any string raises here, so the model can only raise
    more often than Python does. *)
Definition py_float (v : pyval) : result float :=
  match v with
  | PyNone => Raise TypeError
  | PyBool b => Ok (float_of_int (if b then 1 else 0))
  | PyInt z =>
      let x := float_of_int z in
      if is_inf x then Raise OverflowError else Ok x
  | PyFloat x => Ok x
  | PyStr _ => Raise ValueError
  end.

(** ** Ordered dictionaries

    A Python [dict] keeps its keys in the order of their first insertion;
    assigning to an existing key replaces the value in place. *)
Section Dict.
Variable V : Type.

Definition dict := list (string * V).

Fixpoint dict_get (d : dict) (k : string) : option V :=
  match d with
  | [] => None
  | (k', v) :: tl => if String.eqb k' k then Some v else dict_get tl k
  end.

Fixpoint dict_set (d : dict) (k : string) (v : V) : dict :=
  match d with
  | [] => [(k, v)]
  | (k', v') :: tl =>
      if String.eqb k' k then (k', v) :: tl else (k', v') :: dict_set tl k v
  end.

Definition dict_keys (d : dict) : list string := map fst d.
Definition dict_values (d : dict) : list V := map snd d.
End Dict.

(** ** [sorted(xs, key=..., reverse=True)]

    The keys are computed once for every item, in the order of the items,
    before any comparison; then the items are sorted by [list.sort], which
    is stable, also with [reverse=True]: items with equal keys keep their
    input order.  On keys that a comparison orders totally (floats without
    NaN) the result of a stable sort is unique: it is the list [sort_desc]
    below.  With a NaN among the keys the result depends on the comparisons
    the algorithm happens to make, so [list.sort] is a parameter of
    [sorted_desc], of which [stable_sort_desc] states what Python
    guarantees. *)
Section SortedDesc.
Variable A : Type.

(** [x] comes before every item of [l] in the input: it goes behind the
    items whose key is strictly greater and in front of all the others. *)
Fixpoint insert_desc (x : float * A) (l : list (float * A))
  : list (float * A) :=
  match l with
  | [] => [x]
  | y :: tl =>
      if float_gt (fst y) (fst x) then y :: insert_desc x tl
      else x :: y :: tl
  end.

Fixpoint sort_desc (l : list (float * A)) : list (float * A) :=
  match l with
  | [] => []
  | x :: tl => insert_desc x (sort_desc tl)
  end.

(** The key of [b] does not exceed the key of [a]. *)
Definition key_ge (a b : float * A) : Prop :=
  float_gt (fst b) (fst a) = false.

(** No key is NaN. *)
Definition nan_free (l : list (float * A)) : Prop :=
  Forall (fun p => is_nan (fst p) = false) l.

(** [list.sort(reverse=True)] on items paired with their keys rearranges
    them, and is the stable sort when no key is NaN. *)
Definition stable_sort_desc
  (list_sort : list (float * A) -> list (float * A)) : Prop :=
  (forall l, Permutation (list_sort l) l) /\
  (forall l, nan_free l -> list_sort l = sort_desc l).

(** [sorted(xs, key=key, reverse=True)] with a key function that may
    raise. *)
Definition sorted_desc (list_sort : list (float * A) -> list (float * A))
  (key : A -> result float) (xs : list A) : result (list A) :=
  ks <- mapM key xs ;;
  Ok (map snd (list_sort (combine ks xs))).

(** *** CPython's [list.sort] on fewer than 64 items

    Objects/listobject.c: with [reverse=True] the list is reversed, sorted
    in ascending order and reversed again.  Fewer than 64 items make one
    run: [count_run] finds the longest prefix that is ascending
    ([a0 <= a1 <= ...]) or strictly descending ([a0 > a1 > ...]) and a
    descending one is reversed, then [binarysort] inserts the remaining
    items one by one at the place a binary search finds.  [lt] is the only
    comparison made. *)
Section Small.
Variable B : Type.
Variable lt : B -> B -> bool.

Fixpoint run_ascending (prev : B) (l : list B) : nat :=
  match l with
  | [] => 0
  | x :: tl => if lt x prev then 0 else S (run_ascending x tl)
  end.

Fixpoint run_descending (prev : B) (l : list B) : nat :=
  match l with
  | [] => 0
  | x :: tl => if lt x prev then S (run_descending x tl) else 0
  end.

(** The length of the first run, and whether it is descending. *)
Definition count_run (l : list B) : nat * bool :=
  match l with
  | [] => (0, false)
  | [a] => (1, false)
  | a :: b :: tl =>
      if lt b a then (2 + run_descending b tl, true)
      else (2 + run_ascending b tl, false)
  end.

(** The binary search of [binarysort] in [sorted[l:r]]. *)
Fixpoint bisect (fuel : nat) (pivot : B) (sorted : list B) (l r : nat) : nat :=
  match fuel with
  | O => l
  | S fuel' =>
      if Nat.ltb l r then
        let p := l + Nat.div2 (r - l) in
        if lt pivot (nth p sorted pivot) then bisect fuel' pivot sorted l p
        else bisect fuel' pivot sorted (S p) r
      else l
  end.

Definition insert_binary (sorted : list B) (pivot : B) : list B :=
  let l := bisect (length sorted) pivot sorted 0 (length sorted) in
  firstn l sorted ++ pivot :: skipn l sorted.

Definition sort_small (l : list B) : list B :=
  let (n, descending) := count_run l in
  let run := firstn n l in
  fold_left insert_binary (skipn n l) (if descending then rev run else run).
End Small.

Definition list_sort_small (l : list (float * A)) : list (float * A) :=
  rev (sort_small (fun a b => float_gt (fst b) (fst a)) (rev l)).
End SortedDesc.

End Py.


(* ================================================================== *)
(** * Result fusion: [_merge_hits] *)
(* ================================================================== *)

Module Fusion.
Import Py.

(** A hit is a Python dict; the code reads the keys ["id"] and ["score"] and
    passes everything else through.  [None] in a field is a missing key,
    [Some IdNone] / [Some PyNone] is the key bound to Python's [None]. *)
Record hit : Set := mkHit {
  hit_id : option pyid;
  hit_score : option pyval;
  hit_payload : string
}.

(** [hit.get("id")] *)
Definition get_id (h : hit) : pyid :=
  match hit_id h with
  | Some i => i
  | None => IdNone
  end.

(** [hit.get("score")] *)
Definition get_score (h : hit) : pyval :=
  match hit_score h with
  | Some v => v
  | None => PyNone
  end.

(** [stored.get("score", float("-inf"))] *)
Definition get_score_default (h : hit) : pyval :=
  match hit_score h with
  | Some v => v
  | None => PyFloat NegInf
  end.

(** [h["score"]] *)
Definition item_score (h : hit) : result pyval :=
  match hit_score h with
  | Some v => Ok v
  | None => Raise KeyError
  end.

(** The body of the [for hit in ...] loop, on the dictionary [by_id].  The
    condition [stored is None or float(score) > float(stored.get(...))]
    converts nothing when the key is new, and converts the new score
    before the stored one otherwise. *)
Definition merge_step (by_id : dict hit) (h : hit) : result (dict hit) :=
  match get_id h with
  | IdNone => Ok by_id                                  (* continue *)
  | hit_id =>
      let score := get_score h in
      if negb (isinstance_int_float score) then Ok by_id (* continue *)
      else
        let key := py_str hit_id in
        match dict_get by_id key with
        | None => Ok (dict_set by_id key h)
        | Some stored =>
            new <- py_float score ;;
            old <- py_float (get_score_default stored) ;;
            if float_gt new old then Ok (dict_set by_id key h)
            else Ok by_id
        end
  end.

Fixpoint merge_loop (by_id : dict hit) (hits : list hit)
  : result (dict hit) :=
  match hits with
  | [] => Ok by_id
  | h :: tl =>
      by_id' <- merge_step by_id h ;;
      merge_loop by_id' tl
  end.

(** The dictionary [by_id] when the loop is over. *)
Definition merge_by_id (hit_groups : list (list hit)) : result (dict hit) :=
  merge_loop [] (concat hit_groups).

(** [key=lambda h: float(h["score"])] *)
Definition score_key (h : hit) : result float :=
  v <- item_score h ;;
  py_float v.

Section ListSort.
(** [list.sort(reverse=True)], on hits paired with their keys. *)
Variable list_sort : list (float * hit) -> list (float * hit).

Definition _merge_hits (hit_groups : list (list hit)) (limit : Z)
  : result (list hit) :=
  by_id <- merge_by_id hit_groups ;;
  s <- sorted_desc list_sort score_key (dict_values by_id) ;;
  Ok (slice_to s limit).
End ListSort.

(** ** Vocabulary of the statements *)

(** An entry the loop does not skip. *)
Definition valid (h : hit) : bool :=
  match get_id h with
  | IdNone => false
  | _ => isinstance_int_float (get_score h)
  end.

(** The dictionary key of an entry: the string form of its id. *)
Definition key_of (h : hit) : string := py_str (get_id h).

(** The score of an entry as a float (NaN stands in where [float]
    raises). *)
Definition score_of (h : hit) : float :=
  match py_float (get_score h) with
  | Ok x => x
  | Raise _ => NaN
  end.

(** A valid entry whose score no float holds: an [int] beyond the range of
    the floats, on which [float] raises [OverflowError]. *)
Definition overflows (h : hit) : bool :=
  valid h &&
  match py_float (get_score h) with
  | Ok _ => false
  | Raise _ => true
  end.

(** No valid entry has a score beyond the range of the floats. *)
Definition within_range (hits : list hit) : Prop :=
  Forall (fun h => overflows h = false) hits.

(** No valid entry has the score NaN. *)
Definition no_nan (hits : list hit) : Prop :=
  Forall (fun h => valid h = true -> is_nan (score_of h) = false) hits.

(** [a] may stand in front of [b] in a list sorted by score, descending. *)
Definition score_ge (a b : hit) : Prop :=
  float_gt (score_of b) (score_of a) = false.

(** A score that is a finite number. *)
Definition is_finite_number (v : pyval) : bool :=
  match v with
  | PyBool _ | PyInt _ => true
  | PyFloat x => is_finite x
  | PyNone | PyStr _ => false
  end.

(** [by_id] files every entry under its own key, holds valid entries only
    and no key twice. *)
Definition well_keyed (d : dict hit) : Prop :=
  NoDup (dict_keys d) /\
  forall k h, In (k, h) d -> valid h = true /\ key_of h = k.

(** [h] is the occurrence in [hits] that is kept for [key]: a valid entry of
    that key whose score no valid entry of that key before it reaches, and
    none after it exceeds. *)
Definition first_best (hits : list hit) (key : string) (h : hit) : Prop :=
  exists pre post,
    hits = pre ++ h :: post /\ valid h = true /\ key_of h = key /\
    (forall h', In h' pre -> valid h' = true -> key_of h' = key ->
                float_ge (score_of h') (score_of h) = false) /\
    (forall h', In h' post -> valid h' = true -> key_of h' = key ->
                float_gt (score_of h') (score_of h) = false).

(** What [by_id] holds once [hits] have been processed. *)
Definition keeps_first_best (hits : list hit) (d : dict hit) : Prop :=
  forall key,
    match dict_get d key with
    | Some h => first_best hits key h
    | None => forall h', In h' hits -> valid h' = true -> key_of h' <> key
    end.

(** ** Inputs of the scenarios *)

Definition hit_of (i : pyid) (v : pyval) : hit := mkHit (Some i) (Some v) "".

(** The score written [n/d] in decimal. *)
Definition fl (n d : Z) : pyval := PyFloat (dec n d).

(** The drop scenario of the specification. *)
Definition drop_primary : list hit := [hit_of (IdStr "A") (fl 4 10)].
Definition drop_secondary : list hit :=
  [hit_of IdNone (fl 9 10); hit_of (IdStr "C") (PyStr "bad")].

(** The fusion scenario of the specification. *)
Definition fusion_primary : list hit := [hit_of (IdStr "X") (fl 3 10)].
Definition fusion_secondary : list hit :=
  [hit_of (IdStr "X") (fl 9 10); hit_of (IdStr "Y") (fl 2 10)].

(** The tie scenario: one id, one score, two entries told apart by their
    payload. *)
Definition tie_first : hit :=
  mkHit (Some (IdStr "A")) (Some (fl 5 10)) "first".
Definition tie_second : hit :=
  mkHit (Some (IdStr "A")) (Some (fl 5 10)) "second".

(** An entry whose score is the float [inf]. *)
Definition infinite_hit : hit := hit_of (IdStr "A") (PyFloat PosInf).

(** The integer id 7 and the string id "7". *)
Definition seven_int : hit := hit_of (IdInt 7) (fl 5 10).
Definition seven_str : hit := hit_of (IdStr "7") (fl 9 10).

(** An entry whose score is the [int] [10**400], and an entry of the same
    id with the score [1.0]. *)
Definition huge_hit : hit := hit_of (IdStr "A") (PyInt (10 ^ 400)).
Definition unit_hit : hit := hit_of (IdStr "A") (fl 1 1).

(** Two entries of one id whose scores are the float [2.0**53] and the
    [int] [2**53 + 1], which rounds to that float. *)
Definition float_2_53 : hit :=
  mkHit (Some (IdStr "A")) (Some (PyFloat (float_of_int (2 ^ 53)))) "float".
Definition int_2_53_1 : hit :=
  mkHit (Some (IdStr "A")) (Some (PyInt (2 ^ 53 + 1))) "int".

(** Three entries with the scores [1.0], NaN and [2.0]. *)
Definition nan_scores : list hit :=
  [hit_of (IdStr "A") (fl 1 1); hit_of (IdStr "B") (PyFloat NaN);
   hit_of (IdStr "C") (fl 2 1)].

End Fusion.


(* ================================================================== *)
(** * Retrieval: [_mmr] and [search_hybrid] *)
(* ================================================================== *)

Module Retriever.
Import Py.

(** ** numpy fragments *)

(** A one-dimensional [float32] array. *)
Definition vector := list float.

(** A two-dimensional array: its rows and [shape[1]], which an array keeps
    also when it has no row. *)
Record ndarray2 : Set := mkArr {
  ncols : nat;
  rows : list vector
}.

(** [C.shape[0]] *)
Definition nrows (C : ndarray2) : nat := length (rows C).

(** Every row has [shape[1]] entries: what numpy guarantees of an array. *)
Definition well_shaped (C : ndarray2) : Prop :=
  Forall (fun r => length r = ncols C) (rows C).

Fixpoint zip_with {A B D : Type} (f : A -> B -> D) (u : list A) (v : list B)
  : list D :=
  match u, v with
  | x :: u', y :: v' => f x y :: zip_with f u' v'
  | _, _ => []
  end.

(** The inner product that rounds every product and every sum to
    [float32] and adds from left to right. *)
Fixpoint dot_from (acc : float) (u v : vector) : float :=
  match u, v with
  | x :: u', y :: v' => dot_from (f32_add acc (f32_mul x y)) u' v'
  | _, _ => acc
  end.

Definition dot_in_order (u v : vector) : float := dot_from zero u v.

(** [np.maximum(a, b)]: NaN when one of the two is NaN. *)
Definition np_maximum (a b : float) : float :=
  if float_ge a b || is_nan a then a else b.

(** [div.max(axis=0)]: the maximum of every column, row after row; numpy
    refuses an array with no row. *)
Definition max_axis0 (div : list vector) : result vector :=
  match div with
  | [] => Raise ValueError
  | r :: tl => Ok (fold_left (zip_with np_maximum) tl r)
  end.

(** [np.argmax(rel)]: the index of the first NaN when there is one, of the
    first occurrence of the maximum otherwise.  The scan keeps [best] until
    an entry [x] fails [x <= best], and stops at a NaN. *)
Fixpoint argmax_from (best_i : nat) (best : float) (i : nat) (l : list float)
  : nat :=
  if is_nan best then best_i
  else
    match l with
    | [] => best_i
    | x :: tl =>
        if negb (float_ge best x) then argmax_from i x (S i) tl
        else argmax_from best_i best (S i) tl
    end.

Definition np_argmax (l : list float) : result nat :=
  match l with
  | [] => Raise ValueError
  | x :: tl => Ok (argmax_from 0 x 1 tl)
  end.

(** ** Python's [max(iterable, key=...)]

    The first item is the candidate; a later item replaces it only when its
    key is strictly greater: of several maximal items the one iterated first
    is returned. *)
Fixpoint max_by_from (key : nat -> float) (best : nat) (l : list nat) : nat :=
  match l with
  | [] => best
  | x :: tl =>
      if float_gt (key x) (key best) then max_by_from key x tl
      else max_by_from key best tl
  end.

Definition py_max (it : list nat) (key : nat -> float) : result nat :=
  match it with
  | [] => Raise ValueError
  | x :: tl => Ok (max_by_from key x tl)
  end.

(** ** The set [avail]

    A set is modelled by the list of its elements in iteration order.
    CPython hashes a small non-negative integer to itself and keeps the
    table of a set (a power of two of slots, scanned in slot order by the
    iterator) larger than the number of its entries, so every element of
    [set(range(n))] sits in the slot of its own value and the set is
    iterated in ascending order; [remove] empties one slot and moves
    nothing.  Ties of [max(avail, key=...)] are therefore met in ascending
    order of the index. *)
Definition set_range (n : nat) : list nat := seq 0 n.

Definition set_remove (i : nat) (s : list nat) : result (list nat) :=
  if existsb (Nat.eqb i) s then Ok (filter (fun j => negb (Nat.eqb j i)) s)
  else Raise KeyError.

(** ** [_mmr] *)

(** [scalar * array] for a Python float and a [float32] array: the scalar
    is brought to [float32] and multiplied with every entry. *)
Definition np_scale (x : float) (v : vector) : vector :=
  map (f32_mul (to_float32 x)) v.

(** [a - b] for two [float32] arrays of one length. *)
Definition np_subtract (a b : vector) : vector := zip_with f32_sub a b.

(** [lam * rel - (1 - lam) * max_div]: [1 - lam] is computed on Python
    floats, the two products and their difference on [float32] arrays. *)
Definition mmr_scores (lam : float) (rel max_div : vector) : vector :=
  np_subtract (np_scale lam rel) (np_scale (float_sub one lam) max_div).

(** Row [j] of [C]. *)
Definition row (C : ndarray2) (j : nat) : vector := nth j (rows C) [].

(** The candidates not in [sel], in ascending order. *)
Definition unselected (n : nat) (sel : list nat) : list nat :=
  filter (fun j => negb (existsb (Nat.eqb j) sel)) (seq 0 n).

(** The maximum of a non-empty list of numbers, as [np.maximum] folds
    it. *)
Definition np_max_list (x : float) (xs : list float) : float :=
  fold_left np_maximum xs x.

Section Blas.
(** The inner product of two [float32] vectors of one length, as the
    library behind [@] computes it. *)
Variable dot : vector -> vector -> float.

(** [C @ q] *)
Definition matvec (C : ndarray2) (q : vector) : result vector :=
  if Nat.eqb (ncols C) (length q) then Ok (map (fun r => dot r q) (rows C))
  else Raise ValueError.

(** [S @ C.T] for [S = C[sel]]: entry [(a, j)] is the inner product of row
    [a] of [S] and row [j] of [C]. *)
Definition matmul_T (S : list vector) (C : ndarray2) : list vector :=
  map (fun s => map (fun c => dot s c) (rows C)) S.

(** [k] rounds of the [for _ in range(k)] loop.  The key of [max] is
    [lambda j: mmr[j]]; [j] ranges over [avail], which holds row indices
    only, so the subscript is within the array. *)
Fixpoint mmr_loop (k : nat) (C : ndarray2) (lam : float) (rel : vector)
  (sel avail : list nat) : result (list nat) :=
  match k with
  | O => Ok sel
  | S k' =>
      match sel with
      | [] =>
          i <- np_argmax rel ;;
          avail' <- set_remove i avail ;;
          mmr_loop k' C lam rel [i] avail'
      | _ =>
          S <- mapM (getitem (rows C)) sel ;;
          let div := matmul_T S C in
          max_div <- max_axis0 div ;;
          let mmr := mmr_scores lam rel max_div in
          i <- py_max avail (fun j => nth j mmr NaN) ;;
          avail' <- set_remove i avail ;;
          mmr_loop k' C lam rel (sel ++ [i]) avail'
      end
  end.

Definition _mmr (q : vector) (C : ndarray2) (k : Z) (lam : float)
  : result (list nat) :=
  let k := Z.min k (Z.of_nat (nrows C)) in
  rel <- matvec C q ;;
  mmr_loop (Z.to_nat k) C lam rel [] (set_range (nrows C)).

(** ** Another iteration order

    The same loop for a set whose iterator yields the elements in the
    order [set_iter] puts them in; [avail] is still kept in ascending
    order, so CPython's [set_iter] is the identity, which is [_mmr]. *)
Section Iteration.
Variable set_iter : list nat -> list nat.

Fixpoint mmr_loop_iter (k : nat) (C : ndarray2) (lam : float) (rel : vector)
  (sel avail : list nat) : result (list nat) :=
  match k with
  | O => Ok sel
  | S k' =>
      match sel with
      | [] =>
          i <- np_argmax rel ;;
          avail' <- set_remove i avail ;;
          mmr_loop_iter k' C lam rel [i] avail'
      | _ =>
          S <- mapM (getitem (rows C)) sel ;;
          let div := matmul_T S C in
          max_div <- max_axis0 div ;;
          let mmr := mmr_scores lam rel max_div in
          i <- py_max (set_iter avail) (fun j => nth j mmr NaN) ;;
          avail' <- set_remove i avail ;;
          mmr_loop_iter k' C lam rel (sel ++ [i]) avail'
      end
  end.

Definition _mmr_iter (q : vector) (C : ndarray2) (k : Z) (lam : float)
  : result (list nat) :=
  let k := Z.min k (Z.of_nat (nrows C)) in
  rel <- matvec C q ;;
  mmr_loop_iter (Z.to_nat k) C lam rel [] (set_range (nrows C)).
End Iteration.

(** ** The words of the specification, for comparison *)

(** [rel[j] = dot(C[j], q)] *)
Definition spec_rel (q : vector) (C : ndarray2) (j : nat) : float :=
  dot (row C j) q.

(** [diversity_penalty[j]]: the maximum over the selected [s] of the inner
    product of rows [s] and [j]. *)
Definition spec_diversity_penalty (C : ndarray2) (sel : list nat) (j : nat)
  : float :=
  match sel with
  | [] => zero
  | s :: tl =>
      np_max_list (dot (row C s) (row C j))
                  (map (fun s' => dot (row C s') (row C j)) tl)
  end.

(** [p] is the maximum of the inner products of row [j] with the rows
    [sel]: it is one of them, none of them exceeds it, and it is NaN when
    one of them is NaN. *)
Definition max_product (C : ndarray2) (sel : list nat) (j : nat) (p : float)
  : Prop :=
  (exists s, In s sel /\ p = dot (row C s) (row C j)) /\
  (forall s, In s sel -> float_gt (dot (row C s) (row C j)) p = false) /\
  (forall s, In s sel -> is_nan (dot (row C s) (row C j)) = true ->
             is_nan p = true).

(** The score of candidate [j] once [sel] has been selected: [rel[j]] for
    the first pick, [lam * rel[j] - (1 - lam) * diversity_penalty[j]] for
    the later ones, with [lam] and [1 - lam] brought to [float32] and the
    products and the difference rounded to [float32]. *)
Definition spec_score (q : vector) (C : ndarray2) (lam : float)
  (sel : list nat) (j : nat) : float :=
  match sel with
  | [] => spec_rel q C j
  | _ =>
      f32_sub (f32_mul (to_float32 lam) (spec_rel q C j))
              (f32_mul (to_float32 (float_sub one lam))
                       (spec_diversity_penalty C sel j))
  end.

(** [i] is the pick that follows the picks [prev]: an unselected row index
    whose score no unselected index exceeds and no lower unselected index
    reaches. *)
Definition greedy_pick (q : vector) (C : ndarray2) (lam : float)
  (prev : list nat) (i : nat) : Prop :=
  i < nrows C /\ ~ In i prev /\
  forall j, j < nrows C -> ~ In j prev ->
    float_gt (spec_score q C lam prev j) (spec_score q C lam prev i) = false /\
    (j < i ->
     float_ge (spec_score q C lam prev j) (spec_score q C lam prev i) = false).

(** Every element of [sel] is the greedy pick after the ones before it. *)
Definition greedy_selection (q : vector) (C : ndarray2) (lam : float)
  (sel : list nat) : Prop :=
  forall t i, nth_error sel t = Some i ->
              greedy_pick q C lam (firstn t sel) i.

(** Of the candidates left after [prev] none has the score NaN and no two
    have the same score. *)
Definition untied (q : vector) (C : ndarray2) (lam : float)
  (prev : list nat) : Prop :=
  forall j, j < nrows C -> ~ In j prev ->
    is_nan (spec_score q C lam prev j) = false /\
    forall j', j' < nrows C -> ~ In j' prev -> j' <> j ->
      float_eq (spec_score q C lam prev j') (spec_score q C lam prev j)
      = false.

(** [ia] ranks before [ib] by relevance, ties by index: [ib] has no higher
    relevance, and a lower one when its index is lower. *)
Definition ranks_before (q : vector) (C : ndarray2) (ia ib : nat) : Prop :=
  float_gt (spec_rel q C ib) (spec_rel q C ia) = false /\
  (ib < ia -> float_ge (spec_rel q C ib) (spec_rel q C ia) = false).
End Blas.

(** ** [search_hybrid] *)

(** The vector of a record of the index response, fetched with
    [with_vectors=True]: a plain list, or a dict of named vectors (in
    insertion order); the entries are what [np.asarray(v,
    dtype=np.float32)] makes of them. *)
Inductive pyvector : Type :=
  | VecList (v : vector)
  | VecDict (d : dict vector).

(** A record of the response ([ScoredPoint]). *)
Record scored_point : Type := mkPoint {
  sp_id : pyid;
  sp_score : float;
  sp_payload : option (dict string);
  sp_vector : pyvector
}.

(** An entry of the result: [{"id": ..., "score": ..., "payload": ...}]. *)
Record selected : Type := mkSelected {
  sel_id : string;
  sel_score : float;
  sel_payload : dict string
}.

(** [r.vector if not isinstance(r.vector, dict)
     else (r.vector.get("dense") or next(iter(r.vector.values())))];
    an empty list is falsy, [next] of an exhausted iterator raises. *)
Definition usable_vector (v : pyvector) : result vector :=
  match v with
  | VecList l => Ok l
  | VecDict d =>
      match dict_get d "dense" with
      | Some (x :: l) => Ok (x :: l)
      | _ =>
          match dict_values d with
          | first :: _ => Ok first
          | [] => Raise StopIteration
          end
      end
  end.

(** [np.vstack(rows)]: the rows must have one length, and there must be at
    least one. *)
Definition np_vstack (vs : list vector) : result ndarray2 :=
  match vs with
  | [] => Raise ValueError
  | v :: tl =>
      if forallb (fun r => Nat.eqb (length r) (length v)) tl
      then Ok (mkArr (length v) vs)
      else Raise ValueError
  end.

(** [r.payload or {}] *)
Definition payload_or_empty (p : option (dict string)) : dict string :=
  match p with
  | Some d => d
  | None => []
  end.

(** [flt]: a filter on ["lang"] when [lang_filter] is a non-empty list,
    [None] when it is [None] or empty. *)
Definition query_filter (lang_filter : option (list string))
  : option (list string) :=
  match lang_filter with
  | Some (l :: ls) => Some (l :: ls)
  | _ => None
  end.

(** The entry of the result made of a record: its id as a string, its
    score, its payload. *)
Definition selected_of (r : scored_point) : selected :=
  mkSelected (py_str (sp_id r)) (sp_score r)
             (payload_or_empty (sp_payload r)).

Section SearchHybrid.
Variable dot : vector -> vector -> float.
(** The configuration read from the environment. *)
Variable TOPK_FETCH : Z.
Variable MMR_LAMBDA : float.
(** The collaborators: [_embed([query])[0]], which raises
    [EmbeddingFailure], and [cli.search(...)] with its filter and limit,
    which raises [IndexUnavailable]; an empty response also stands for the
    [None] the client may return, which [if not res] treats alike. *)
Variable embed : string -> result vector.
Variable qdrant_search :
  vector -> option (list string) -> Z -> result (list scored_point).

Definition search_hybrid (query : string)
  (lang_filter : option (list string)) (topk : Z)
  : result (list selected) :=
  qvec <- embed query ;;
  let flt := query_filter lang_filter in
  res <- qdrant_search qvec flt (Z.max TOPK_FETCH topk) ;;
  match res with
  | [] => Ok []
  | _ =>
      vs <- mapM (fun r => usable_vector (sp_vector r)) res ;;
      let ids := map (fun r => py_str (sp_id r)) res in
      let payloads := map (fun r => payload_or_empty (sp_payload r)) res in
      let scores := map sp_score res in
      C <- np_vstack vs ;;
      idx <- _mmr dot qvec C topk MMR_LAMBDA ;;
      mapM (fun i =>
              id <- getitem ids i ;;
              score <- getitem scores i ;;
              payload <- getitem payloads i ;;
              Ok (mkSelected id score payload)) idx
  end.
End SearchHybrid.

(** ** Inputs of the scenarios *)

(** The [float32] numbers 0, 1 and -1. *)
Definition f0 : float := zero.
Definition f1 : float := to_float32 one.
Definition m1 : float := f32_neg f1.

(** The end-to-end scenario of the specification. *)
Definition scenario_C : ndarray2 :=
  mkArr 2 [[f1; f0]; [dec32 9 10; dec32 1 10]; [m1; f0]].
Definition scenario_q : vector := [f1; f0].
Definition axis_q : vector := [f0; f1].

(** Two candidates with the same vector, hence tied at every round. *)
Definition tied_C : ndarray2 := mkArr 2 [[f0; f1]; [f1; f0]; [f1; f0]].

(** Three candidates whose inner products with one another overflow
    [float32]: their first entry is [1e20]; their relevances for [axis_q]
    are 0, 2 and 1. *)
Definition f1e20 : float := to_float32 (float_of_int (10 ^ 20)).
Definition f2 : float := to_float32 (float_of_int 2).
Definition far_C : ndarray2 :=
  mkArr 2 [[f1e20; f0]; [f1e20; f2]; [f1e20; f1]].

(** Two candidates whose relevances for the query [[1, 1]] would be
    [2**24] and [2**24 + 1]; in [float32] both are [2**24]. *)
Definition f2_24 : float := to_float32 (float_of_int (2 ^ 24)).
Definition rounded_C : ndarray2 := mkArr 2 [[f2_24; f0]; [f2_24; f1]].
Definition ones_q : vector := [f1; f1].

(** The default [MMR_LAMBDA] of the scenarios. *)
Definition lam_04 : float := dec 4 10.

(** Records of an index response: a plain vector, a named vector, and a
    dict of named vectors that holds none. *)
Definition plain_point : scored_point :=
  mkPoint (IdInt 1) (dec 9 10) None (VecList [f1; f0]).
Definition named_point : scored_point :=
  mkPoint (IdStr "b") (dec 8 10) (Some [("lang", "ru")])
          (VecDict [("dense", [dec32 9 10; dec32 1 10])]).
Definition far_point : scored_point :=
  mkPoint (IdInt 3) (dec 1 10) None (VecList [m1; f0]).
Definition unusable_point : scored_point :=
  mkPoint (IdInt 4) (dec 7 10) None (VecDict []).

(** Collaborators that answer every call with the same value. *)
Definition fixed_embed (qvec : vector) (query : string) : result vector :=
  Ok qvec.
Definition fixed_index (res : list scored_point) (qvec : vector)
  (flt : option (list string)) (limit : Z) : result (list scored_point) :=
  Ok res.

End Retriever.

(* ================================================================== *)
(** * Further vocabulary for the result fusion *)
(* ================================================================== *)

Unset Implicit Arguments.

Module FusionTerms.
Import Py Fusion.

(** No two different valid entries have the same score. *)
Definition tie_free (hits : list hit) : Prop :=
  forall a b, In a hits -> In b hits -> valid a = true -> valid b = true ->
    a = b \/
    float_gt (score_of a) (score_of b) = true \/
    float_gt (score_of b) (score_of a) = true.

(** The number of different keys among the valid entries. *)
Definition distinct_ids (hits : list hit) : nat :=
  length (nodup string_dec (map key_of (filter valid hits))).

End FusionTerms.

(* ================================================================== *)
(** * Further inputs for the retrieval *)
(* ================================================================== *)

Module RetrieverInputs.
Import Py Retriever.

(** A record whose vector has one entry only. *)
Definition short_point : scored_point :=
  mkPoint (IdInt 5) (dec 6 10) None (VecList [f1]).

End RetrieverInputs.

(* ================================================================== *)
(** * Python strings *)
(* ================================================================== *)

Module Text.

(** A [str] is its sequence of code points. *)
Definition str := list N.

(** The code points of an ASCII literal. *)
Definition str_of (s : string) : str :=
  map Ascii.N_of_ascii (list_ascii_of_string s).

(** [ch.isspace()], the whitespace of [str.split()]: U+0009..U+000D,
    U+001C..U+0020, U+0085, U+00A0, U+1680, U+2000..U+200A, U+2028,
    U+2029, U+202F, U+205F, U+3000. *)
Definition isspace (c : N) : bool :=
  (((9 <=? c) && (c <=? 13)) || ((28 <=? c) && (c <=? 32)) ||
   (c =? 133) || (c =? 160) || (c =? 5760) ||
   ((8192 <=? c) && (c <=? 8202)) ||
   (c =? 8232) || (c =? 8233) || (c =? 8239) || (c =? 8287) ||
   (c =? 12288))%N.

(** [" "] *)
Definition space : str := [32%N].

(** [text.split()]: the maximal runs of characters that are not
    whitespace, in order.  [word] holds the characters of the run being
    read, last first. *)
Fixpoint split_from (word : str) (s : str) : list str :=
  match s with
  | [] =>
      match word with
      | [] => []
      | _ => [rev word]
      end
  | c :: tl =>
      if isspace c then
        match word with
        | [] => split_from [] tl
        | _ => rev word :: split_from [] tl
        end
      else split_from (c :: word) tl
  end.

Definition split (s : str) : list str := split_from [] s.

(** [sep.join(parts)] *)
Fixpoint join (sep : str) (parts : list str) : str :=
  match parts with
  | [] => []
  | x :: tl =>
      match tl with
      | [] => x
      | _ => x ++ sep ++ join sep tl
      end
  end.

Definition nonspace (c : N) : bool := negb (isspace c).

(** A word as [split] yields them: not empty, free of whitespace. *)
Definition is_word (w : str) : Prop :=
  w <> [] /\ forallb nonspace w = true.

End Text.

(* ================================================================== *)
(** * Chunking: [chunk_text] *)
(* ================================================================== *)

Module Ingest.
Import Py Text.

(** [range(0, stop, step)] for [stop >= 0]: its length is
    [ceil(stop / step)] for a positive step, zero for a negative one; a
    zero step is refused. *)
Definition range_from_zero (stop : nat) (step : Z) : result (list nat) :=
  if (step =? 0)%Z then Raise ValueError
  else if (step <? 0)%Z then Ok []
  else
    let s := Z.to_nat step in
    Ok (map (fun j => j * s) (seq 0 ((stop + s - 1) / s))).

(** [xs[start : stop]] for [start >= 0]: a negative [stop] counts from the
    end, and both ends are clipped to the list. *)
Definition slice {A : Type} (xs : list A) (start : nat) (stop : Z) : list A :=
  let n := Z.of_nat (length xs) in
  let stop' := if (stop <? 0)%Z then Z.max 0 (stop + n) else Z.min stop n in
  firstn (Z.to_nat stop' - start) (skipn start xs).

(** [list(chunk_text(text, max_len, overlap))] of full/ingest.py, which is
    [_chunk_text] of light/build_store.py. *)
Definition chunk_text (text : str) (max_len overlap : Z) : result (list str) :=
  let words := split text in
  let step := Z.max 1 (max_len - overlap) in
  starts <- range_from_zero (length words) step ;;
  Ok (map (fun i => join space (slice words i (Z.of_nat i + max_len))) starts).

(** [list(chunk_text(text, max_len, overlap))] of ingest.py, whose step is
    [max_len - overlap] as it is. *)
Definition chunk_text_unguarded (text : str) (max_len overlap : Z)
  : result (list str) :=
  let words := split text in
  starts <- range_from_zero (length words) (max_len - overlap) ;;
  Ok (map (fun i => join space (slice words i (Z.of_nat i + max_len))) starts).

(** The step of the guarded version, as a count of words. *)
Definition chunk_step (max_len overlap : Z) : nat :=
  Z.to_nat (Z.max 1 (max_len - overlap)).

(** ** Inputs of the tests *)

(** [" ".join(f"w{i}" for i in range(10))] *)
Definition ten_words : str := str_of "w0 w1 w2 w3 w4 w5 w6 w7 w8 w9".

End Ingest.

(* ================================================================== *)
(** * The local store: [_looks_like_russian], [_translate_to_ru] *)
(* ================================================================== *)

Module BuildStore.
Import Py Text.

(** [a <= b] on strings: code point by code point, a proper prefix first. *)
Fixpoint str_leb (a b : str) : bool :=
  match a, b with
  | [], _ => true
  | _ :: _, [] => false
  | x :: a', y :: b' =>
      if (x <? y)%N then true
      else if (x =? y)%N then str_leb a' b'
      else false
  end.

(** [a == b] on strings. *)
Definition str_eqb (a b : str) : bool :=
  if list_eq_dec N.eq_dec a b then true else false.

Section Unicode.
(** [ch.isalpha()] and [ch.lower()] of a character, from the Unicode
    tables of the interpreter; the lower case of a character is a string,
    of more than one character for some. *)
Variable isalpha : N -> bool.
Variable lower : N -> str.

(** ["а" <= ch.lower() <= "я" or ch.lower() == "ё"] *)
Definition is_cyrillic (ch : N) : bool :=
  (str_leb [1072%N] (lower ch) && str_leb (lower ch) [1103%N])
  || str_eqb (lower ch) [1105%N].

(** ["a" <= ch.lower() <= "z"] *)
Definition is_latin (ch : N) : bool :=
  str_leb [97%N] (lower ch) && str_leb (lower ch) [122%N].

(** [sum(p(ch) for ch in text if ch.isalpha())] *)
Definition count_letters (p : N -> bool) (text : str) : nat :=
  length (filter p (filter isalpha text)).

Definition _looks_like_russian (text : str) : bool :=
  match text with
  | [] => true
  | _ =>
      let cyr := count_letters is_cyrillic text in
      let lat := count_letters is_latin text in
      Nat.leb lat cyr
  end.

(** The [for code, translator in _translators_to_ru] loop: the first
    translation that does not raise, the text when there is none. *)
Fixpoint first_translation (translators : list (string * (str -> result str)))
  (text : str) : str :=
  match translators with
  | [] => text
  | (code, translate) :: tl =>
      match translate text with
      | Ok out => out
      | Raise _ => first_translation tl text
      end
  end.

Definition _translate_to_ru
  (translators : list (string * (str -> result str))) (text : str) : str :=
  match text with
  | [] => text
  | _ =>
      if _looks_like_russian text then text
      else
        match translators with
        | [] => text
        | _ => first_translation translators text
        end
  end.
End Unicode.

(** ** Inputs of the tests *)

(** [isalpha] and [lower] on the ASCII range and on the Russian letters
    (U+0410..U+044F, U+0401, U+0451). *)
Definition in_range (lo hi c : N) : bool := ((lo <=? c) && (c <=? hi))%N.

Definition basic_isalpha (c : N) : bool :=
  in_range 65 90 c || in_range 97 122 c || in_range 1040 1103 c
  || (c =? 1025)%N || (c =? 1105)%N.

Definition basic_lower (c : N) : str :=
  if in_range 65 90 c then [(c + 32)%N]
  else if in_range 1040 1071 c then [(c + 32)%N]
  else if (c =? 1025)%N then [1105%N]
  else [c].

(** ["Привет, world!"] *)
Definition privet_world : str :=
  [1055; 1088; 1080; 1074; 1077; 1090; 44; 32;
   119; 111; 114; 108; 100; 33]%N.

(** A translator that is out of order and one that answers ["mir"]. *)
Definition broken_translator (text : str) : result str := Raise ValueError.
Definition fixed_translator (text : str) : result str := Ok (str_of "mir").

End BuildStore.

(* ================================================================== *)
(** * Search in the local store: [_search] *)
(* ================================================================== *)

Module LightSearch.
Import Py Retriever.

(** [{"index": ..., "score": ...}] *)
Record light_hit : Set := mkLightHit {
  lh_index : nat;
  lh_score : float
}.

(** [[{"index": int(i), "score": float(scores[i])}
      for i in top_indices if scores[i] > 0]]; [scores] is a [float32]
    array, [float] brings its entry to a Python float. *)
Fixpoint positive_hits (scores : vector) (top_indices : list nat)
  : result (list light_hit) :=
  match top_indices with
  | [] => Ok []
  | i :: tl =>
      s <- getitem scores i ;;
      rest <- positive_hits scores tl ;;
      Ok (if float_gt s zero then mkLightHit i (to_float64 s) :: rest
          else rest)
  end.

(** [x] may stand in front of [y] in an array sorted by numpy: [x <= y],
    or [y] is NaN (NaN is sorted to the end). *)
Definition np_le (x y : float) : bool := float_ge y x || is_nan y.

(** What [np.argsort] promises of its result for [v]: the indices of [v],
    each once, in ascending order of their entries.  Its default sort is
    not stable: the order of indices with equal entries is not fixed. *)
Definition sorts (v : vector) (order : list nat) : Prop :=
  Permutation order (seq 0 (length v)) /\
  StronglySorted (fun a b => np_le (nth a v NaN) (nth b v NaN) = true) order.

Section Search.
(** The inner product behind [@],
    [model.encode([query], normalize_embeddings=True)[0]
     .astype(np.float32)] and [np.argsort]. *)
Variable dot : vector -> vector -> float.
Variable encode : string -> result vector.
Variable argsort : vector -> list nat.

Definition _search (query : string) (embeddings : ndarray2) (topk : Z)
  : result (list light_hit) :=
  query_vec <- encode query ;;
  scores <- matvec dot embeddings query_vec ;;
  let top_indices := slice_to (argsort (map f32_neg scores)) topk in
  positive_hits scores top_indices.

(** The entries of [embeddings @ query_vec]. *)
Definition similarities (embeddings : ndarray2) (query_vec : vector)
  : vector :=
  map (fun r => dot r query_vec) (rows embeddings).
End Search.

(** The hit for row [i], and whether its score is positive. *)
Definition hit_at (scores : vector) (i : nat) : light_hit :=
  mkLightHit i (to_float64 (nth i scores NaN)).

Definition positive_at (scores : vector) (i : nat) : bool :=
  float_gt (nth i scores NaN) zero.

(** ** Inputs of the scenarios *)

(** An [argsort] that answers [0, 1, 2] whatever it is given: the order
    of the negated similarities of [scenario_C] to [scenario_q]. *)
Definition fixed_argsort (v : vector) : list nat := [0; 1; 2].

End LightSearch.

(* ================================================================== *)
(** * The chat client: [LLMClient.generate] *)
(* ================================================================== *)

Module LLMClient.
Import Py.

(** How [generate] ends: with the content of a reply, or with
    [RuntimeError(f"LLM error: {err}")], [err] being the last exception
    caught, [None] when there was none. *)
Inductive outcome : Set :=
  | Content (text : string)
  | RuntimeError (err : option exn).

(** The [for _ in range(self.retries + 1)] loop.  [post i] is what the
    body of the [try] does the [i]-th time it runs (the request,
    [raise_for_status] and the lookup of the content); [made] counts the
    requests sent; every failure is followed by a sleep. *)
Fixpoint attempts (post : nat -> result string) (rounds : nat) (made : nat)
  (err : option exn) : outcome * nat :=
  match rounds with
  | O => (RuntimeError err, made)
  | S rounds' =>
      match post made with
      | Ok content => (Content content, S made)
      | Raise e => attempts post rounds' (S made) (Some e)
      end
  end.

(** [generate], with the outcome and the number of requests sent. *)
Definition generate (retries : Z) (post : nat -> result string)
  : outcome * nat :=
  attempts post (Z.to_nat (retries + 1)) 0 None.

(** ** Inputs of the scenarios *)

(** A server that fails twice and then answers. *)
Definition third_time_lucky (i : nat) : result string :=
  match i with
  | 0 | 1 => Raise ValueError
  | _ => Ok "answer"
  end.

(** A server that never answers. *)
Definition always_down (i : nat) : result string := Raise ValueError.

End LLMClient.

(* ================================================================== *)
(** * Collecting the documents: [collect_documents] *)
(* ================================================================== *)

Module Collect.
Import Py Text Ingest.

(** [{"text": ..., "source": ..., "lang": ...}] *)
Record document : Set := mkDoc {
  doc_text : str;
  doc_source : string;
  doc_lang : string
}.

Definition BASE_URL : string := "https://rasa.com/docs/rasa/".

(** A document of [source] in language [lang], with at least one word and
    at most 800. *)
Definition chunk_of (source lang : string) (d : document) : Prop :=
  doc_source d = source /\ doc_lang d = lang /\
  1 <= length (split (doc_text d)) <= 800.

Section Sources.
(** The body of the [try] of [fetch_text_from_url]: the download, the
    parse, the removal of the script, style, nav and footer blocks and
    [get_text]. *)
Variable page_text : string -> result str.

Definition fetch_text_from_url (url : string) : str :=
  match page_text url with
  | Ok text => text
  | Raise _ => []
  end.

(** [for chunk in chunk_text(text): docs.append({...})], with the default
    [max_len=800] and [overlap=120]. *)
Definition documents_of (text : str) (source lang : string)
  : result (list document) :=
  chunks <- chunk_text text 800 120 ;;
  Ok (map (fun chunk => mkDoc chunk source lang) chunks).

(** The loop over [LOCAL_DIR.glob("*.txt")]: a file comes with its path
    and with what [read_text] makes of it; a file that cannot be read is
    skipped. *)
Fixpoint local_documents (files : list (string * result str))
  : result (list document) :=
  match files with
  | [] => Ok []
  | (path, content) :: tl =>
      match content with
      | Raise _ => local_documents tl
      | Ok txt =>
          docs <- documents_of txt path "ru" ;;
          rest <- local_documents tl ;;
          Ok (docs ++ rest)
      end
  end.

(** [collect_documents] of full/ingest.py. *)
Definition collect_documents (files : list (string * result str))
  : result (list document) :=
  web <- documents_of (fetch_text_from_url BASE_URL) BASE_URL "en" ;;
  local <- local_documents files ;;
  Ok (web ++ local).
End Sources.

End Collect.


(* ================================================================== *)
(** * Facts about the runtime fragments *)
(* ================================================================== *)


Module PyFacts.
Import Py.

(** ** The order of the floats

    Every comparison is decided by the sign, the exponent and the mantissa
    of its arguments; the facts below follow by cases. *)

Ltac float_cases :=
  repeat match goal with
         | x : float |- _ => destruct x as [[]|[]| |[] ? ?]
         | x : spec_float |- _ => destruct x as [[]|[]| |[] ? ?]
         end;
  unfold float_gt, float_ge, float_eq, SFltb, SFleb, SFeqb, SFcompare in *;
  cbn [is_nan is_inf is_finite f32_neg SFopp negb] in *; try congruence;
  change (Pos.compare_cont Eq) with Pos.compare in *;
  repeat match goal with
         | H : context [Z.compare ?a ?b] |- _ => destruct (Z.compare_spec a b)
         | |- context [Z.compare ?a ?b] => destruct (Z.compare_spec a b)
         | H : context [Pos.compare ?a ?b] |- _ =>
             destruct (Pos.compare_spec a b)
         | |- context [Pos.compare ?a ?b] => destruct (Pos.compare_spec a b)
         end;
  cbn [CompOpp] in *; subst; try congruence; try lia.

(** A comparison that holds has no NaN on either side. *)
Lemma float_gt_not_nan (x y : float) :
  float_gt x y = true -> is_nan x = false /\ is_nan y = false.
Proof. intro H. split; float_cases. Qed.

Lemma float_ge_not_nan (x y : float) :
  float_ge x y = true -> is_nan x = false /\ is_nan y = false.
Proof. intro H. split; float_cases. Qed.

Lemma float_gt_irrefl (x : float) : float_gt x x = false.
Proof. float_cases. Qed.

Lemma float_gt_asym (x y : float) :
  float_gt x y = true -> float_gt y x = false.
Proof. intros; float_cases. Qed.

Lemma float_gt_trans (x y z : float) :
  float_gt x y = true -> float_gt y z = true -> float_gt x z = true.
Proof. intros; float_cases. Qed.

Lemma float_gt_ge (x y : float) : float_gt x y = true -> float_ge x y = true.
Proof. intros; float_cases. Qed.

(** [x > y] excludes [y >= x]. *)
Lemma float_gt_not_ge (x y : float) :
  float_gt x y = true -> float_ge y x = false.
Proof. intros; float_cases. Qed.

(** [x >= y] excludes [y > x]. *)
Lemma float_ge_not_gt (x y : float) :
  float_ge x y = true -> float_gt y x = false.
Proof. intros; float_cases. Qed.

(** [x > y] and [y >= z] give [x > z]. *)
Lemma float_gt_ge_trans (x y z : float) :
  float_gt x y = true -> float_ge y z = true -> float_gt x z = true.
Proof. intros; float_cases. Qed.

(** [x >= y] and [y > z] give [x > z]. *)
Lemma float_ge_gt_trans (x y z : float) :
  float_ge x y = true -> float_gt y z = true -> float_gt x z = true.
Proof. intros; float_cases. Qed.

Lemma float_ge_trans (x y z : float) :
  float_ge x y = true -> float_ge y z = true -> float_ge x z = true.
Proof. intros; float_cases. Qed.

Lemma float_ge_refl (x : float) : is_nan x = false -> float_ge x x = true.
Proof. intros; float_cases. Qed.

(** Without NaN the order is total. *)
Lemma float_total (x y : float) :
  is_nan x = false -> is_nan y = false ->
  float_gt x y = false -> float_ge y x = true.
Proof. intros; float_cases. Qed.

Lemma float_total_strict (x y : float) :
  is_nan x = false -> is_nan y = false ->
  float_ge x y = false -> float_gt y x = true.
Proof. intros; float_cases. Qed.

Lemma float_ge_antisym (x y : float) :
  float_ge x y = true -> float_ge y x = true -> float_eq x y = true.
Proof. intros; float_cases. Qed.

Lemma float_eq_ge (x y : float) : float_eq x y = true -> float_ge x y = true.
Proof. intros; float_cases. Qed.

Lemma float_eq_sym (x y : float) : float_eq x y = float_eq y x.
Proof. float_cases. Qed.

(** [x <= y] and [y <= z] give [x <= z] when [y] is a number. *)
Lemma float_le_trans (x y z : float) :
  is_nan y = false ->
  float_gt x y = false -> float_gt y z = false -> float_gt x z = false.
Proof. intros; float_cases. Qed.

(** Negation reverses the order. *)
Lemma float_gt_neg (x y : float) :
  float_gt (f32_neg x) (f32_neg y) = float_gt y x.
Proof. float_cases. Qed.

Lemma float_ge_neg (x y : float) :
  float_ge (f32_neg x) (f32_neg y) = float_ge y x.
Proof. float_cases. Qed.

Lemma is_nan_neg (x : float) : is_nan (f32_neg x) = is_nan x.
Proof. destruct x; reflexivity. Qed.

(** ** Floats that compare alike *)

Lemma same_value_refl (x : float) : same_value x x.
Proof. left. reflexivity. Qed.

Lemma same_value_sym (x y : float) : same_value x y -> same_value y x.
Proof. intros [->|(s & s' & -> & ->)]; [left; reflexivity|right; eauto]. Qed.

Lemma same_value_trans (x y z : float) :
  same_value x y -> same_value y z -> same_value x z.
Proof.
  intros [->|(s & s' & -> & ->)] H; [assumption|].
  destruct H as [<-|(t & t' & _ & ->)]; right; eauto.
Qed.

Lemma same_value_gt (x x' y y' : float) :
  same_value x x' -> same_value y y' -> float_gt x y = float_gt x' y'.
Proof.
  intros [->|(s & s' & -> & ->)] [->|(t & t' & -> & ->)]; reflexivity.
Qed.

Lemma same_value_ge (x x' y y' : float) :
  same_value x x' -> same_value y y' -> float_ge x y = float_ge x' y'.
Proof.
  intros [->|(s & s' & -> & ->)] [->|(t & t' & -> & ->)]; reflexivity.
Qed.

Lemma same_value_nan (x y : float) : same_value x y -> is_nan x = is_nan y.
Proof. intros [->|(s & s' & -> & ->)]; reflexivity. Qed.

Lemma same_value_neg (x y : float) :
  same_value x y -> same_value (f32_neg x) (f32_neg y).
Proof.
  intros [->|(s & s' & -> & ->)]; [left; reflexivity|right; simpl; eauto].
Qed.

(** ** binary32 arithmetic with 0 and 1 *)

Lemma shr_fexp_one (m : positive) (e : Z) :
  fexp 24 128 (Z.pos (digits2_pos m) + e) = e ->
  shr_fexp 24 128 (Z.pos (8388608 * m)) (-23 + e) loc_Exact
  = ({| shr_m := Z.pos m; shr_r := false; shr_s := false |}, e).
Proof.
  intro Cn. unfold shr_fexp, Zdigits2.
  replace (Z.pos (digits2_pos (8388608 * m)) + (-23 + e))%Z
    with (Z.pos (digits2_pos m) + e)%Z
    by (cbn [Pos.mul digits2_pos]; lia).
  rewrite Cn. replace (e - (-23 + e))%Z with 23%Z by lia.
  cbn [Pos.mul shr shr_record_of_loc iter_pos shr_1 orb].
  f_equal. lia.
Qed.

Lemma shr_fexp_canonical (m : positive) (e : Z) :
  fexp 24 128 (Z.pos (digits2_pos m) + e) = e ->
  shr_fexp 24 128 (Z.pos m) e loc_Exact
  = ({| shr_m := Z.pos m; shr_r := false; shr_s := false |}, e).
Proof.
  intro Cn. unfold shr_fexp, Zdigits2. rewrite Cn, Z.sub_diag. reflexivity.
Qed.

(** [1 * x] is [x]: the product of the mantissas is the mantissa of [x]
    shifted by the 23 zero bits of the mantissa of 1, which the rounding
    drops again. *)
Lemma f32_mul_one (x : float) :
  is_float32 x = true -> f32_mul (to_float32 one) x = x.
Proof.
  change (to_float32 one) with (S754_finite false 8388608 (-23)).
  destruct x as [s|s| |s m e]; try reflexivity.
  unfold is_float32, valid_binary, bounded, canonical_mantissa. intro V.
  apply andb_prop in V. destruct V as [Cn B].
  apply Z.eqb_eq in Cn.
  unfold f32_mul, SFmul. cbn [xorb].
  unfold binary_round_aux.
  rewrite (shr_fexp_one m e Cn).
  cbn [loc_of_shr_record shr_m round_nearest_even].
  rewrite (shr_fexp_canonical m e Cn). cbn [shr_m].
  rewrite B. reflexivity.
Qed.

(** [0 * x] is a zero when [x] is finite. *)
Lemma f32_mul_zero (x : float) :
  is_finite x = true -> exists s, f32_mul zero x = S754_zero s.
Proof. destruct x; try discriminate; simpl; eauto. Qed.

(** [x - 0] compares like [x]. *)
Lemma f32_sub_zero (x : float) (s : bool) :
  same_value (f32_sub x (S754_zero s)) x.
Proof.
  destruct x as [t|t| |t m e]; try (left; reflexivity).
  right. destruct t, s; simpl; eauto.
Qed.

(** [0 - x] compares like [-x]. *)
Lemma f32_zero_sub (x : float) (s : bool) :
  same_value (f32_sub (S754_zero s) x) (f32_neg x).
Proof.
  destruct x as [t|t| |t m e]; try (left; reflexivity).
  right. destruct t, s; simpl; eauto.
Qed.

(** ** The error monad *)

Lemma bind_Ok {A B : Type} (m : result A) (f : A -> result B) (b : B) :
  bind m f = Ok b -> exists a, m = Ok a /\ f a = Ok b.
Proof. destruct m as [a|e]; simpl; [eauto | discriminate]. Qed.

Lemma mapM_Ok_length {A B : Type} (f : A -> result B) (l : list A)
  (ys : list B) :
  mapM f l = Ok ys -> length ys = length l.
Proof.
  revert ys. induction l as [|x tl IH]; simpl; intros ys H.
  - inversion H. reflexivity.
  - apply bind_Ok in H. destruct H as (y & _ & H).
    apply bind_Ok in H. destruct H as (ys' & Hys & H).
    inversion H. simpl. f_equal. auto.
Qed.

(** A comprehension whose body returns on every item returns. *)
Lemma mapM_total {A B : Type} (f : A -> result B) (g : A -> B) (l : list A) :
  (forall x, In x l -> f x = Ok (g x)) -> mapM f l = Ok (map g l).
Proof.
  induction l as [|x tl IH]; simpl; intro H; [reflexivity|].
  rewrite (H x) by auto. simpl. rewrite IH by auto. reflexivity.
Qed.

(** A comprehension raises what its body raises on one of the items, and
    returns only when the body returns on all of them. *)
Lemma mapM_Raise {A B : Type} (f : A -> result B) (l : list A) (e : exn) :
  mapM f l = Raise e -> exists x, In x l /\ f x = Raise e.
Proof.
  induction l as [|x tl IH]; simpl; [discriminate|].
  destruct (f x) as [y|e'] eqn:E; simpl.
  - destruct (mapM f tl) as [ys|e'']; simpl; [discriminate|].
    intro H. injection H as ->. destruct IH as (z & I & Hz); eauto.
  - intro H. injection H as ->. eauto.
Qed.

Lemma mapM_Ok_all {A B : Type} (f : A -> result B) (l : list A)
  (ys : list B) (x : A) :
  mapM f l = Ok ys -> In x l -> exists y, f x = Ok y.
Proof.
  revert ys. induction l as [|a tl IH]; simpl; intros ys H I; [contradiction|].
  apply bind_Ok in H. destruct H as (y & Hy & H).
  apply bind_Ok in H. destruct H as (ys' & Hys & _).
  destruct I as [<-|I]; eauto.
Qed.

(** ** Dictionaries *)

Section DictFacts.
Variable V : Type.
Implicit Types (d : dict V) (k : string) (v : V).

Lemma dict_get_In d k v : dict_get d k = Some v -> In (k, v) d.
Proof.
  induction d as [|[k' v'] tl IH]; simpl; [discriminate|].
  destruct (String.eqb k' k) eqn:E; intro H.
  - apply String.eqb_eq in E. inversion H. subst. auto.
  - auto.
Qed.

Lemma dict_get_None d k : dict_get d k = None <-> ~ In k (dict_keys d).
Proof.
  induction d as [|[k' v'] tl IH]; simpl; [tauto|].
  destruct (String.eqb k' k) eqn:E.
  - apply String.eqb_eq in E. subst. split; [discriminate|tauto].
  - apply String.eqb_neq in E. rewrite IH. tauto.
Qed.

(** An entry of a dictionary with distinct keys is what its key gets. *)
Lemma dict_In_get d k v :
  NoDup (dict_keys d) -> In (k, v) d -> dict_get d k = Some v.
Proof.
  induction d as [|[k' v'] tl IH]; simpl; [tauto|].
  intros N [E|I].
  - injection E as -> ->. rewrite String.eqb_refl. reflexivity.
  - inversion N as [|? ? Hk Ntl]; subst.
    destruct (String.eqb k' k) eqn:E.
    + apply String.eqb_eq in E. subst. exfalso. apply Hk.
      change k with (fst (k, v)). apply in_map. assumption.
    + auto.
Qed.

Lemma dict_get_set_same d k v : dict_get (dict_set d k v) k = Some v.
Proof.
  induction d as [|[k' v'] tl IH]; simpl.
  - rewrite String.eqb_refl. reflexivity.
  - destruct (String.eqb k' k) eqn:E; simpl; rewrite E; auto.
Qed.

Lemma dict_get_set_other d k k' v :
  k <> k' -> dict_get (dict_set d k v) k' = dict_get d k'.
Proof.
  intro N. induction d as [|[k0 v0] tl IH]; simpl.
  - destruct (String.eqb k k') eqn:E; auto.
    apply String.eqb_eq in E. contradiction.
  - destruct (String.eqb k0 k) eqn:E; simpl.
    + apply String.eqb_eq in E. subst k0.
      destruct (String.eqb k k') eqn:E'; auto.
      apply String.eqb_eq in E'. contradiction.
    + rewrite IH. reflexivity.
Qed.

(** Assigning to a key that is present keeps the keys and their order;
    assigning to a new key appends it. *)
Lemma dict_keys_set d k v :
  dict_keys (dict_set d k v) =
  if in_dec string_dec k (dict_keys d) then dict_keys d
  else dict_keys d ++ [k].
Proof.
  unfold dict_keys.
  induction d as [|[k0 v0] tl IH]; simpl; [reflexivity|].
  destruct (String.eqb k0 k) eqn:E; simpl.
  - apply String.eqb_eq in E. subst.
    destruct (string_dec k k); [reflexivity|contradiction].
  - apply String.eqb_neq in E.
    destruct (string_dec k0 k); [contradiction|].
    rewrite IH.
    destruct (in_dec string_dec k (map fst tl)); reflexivity.
Qed.

Lemma dict_keys_set_NoDup d k v :
  NoDup (dict_keys d) -> NoDup (dict_keys (dict_set d k v)).
Proof.
  intro H. rewrite dict_keys_set.
  destruct (in_dec string_dec k (dict_keys d)); [assumption|].
  apply NoDup_app; auto.
  - constructor; [simpl; tauto | constructor].
  - intros x Hx [Hk|[]]. subst. contradiction.
Qed.

Lemma dict_set_In d k v k' v' :
  In (k', v') (dict_set d k v) -> (k' = k /\ v' = v) \/ In (k', v') d.
Proof.
  induction d as [|[k0 v0] tl IH]; simpl.
  - intros [H|[]]. inversion H. auto.
  - destruct (String.eqb k0 k) eqn:E; simpl.
    + apply String.eqb_eq in E. subst.
      intros [H|H]; [inversion H; auto | auto].
    + intros [H|H]; [auto | destruct (IH H); auto].
Qed.

(** Assigning to a key leaves the entries of the other keys in place. *)
Lemma dict_set_In_other d k v k' v' :
  k' <> k -> In (k', v') d -> In (k', v') (dict_set d k v).
Proof.
  intro N. induction d as [|[k0 v0] tl IH]; simpl; [tauto|].
  destruct (String.eqb k0 k) eqn:E; simpl.
  - apply String.eqb_eq in E. subst.
    intros [H|H]; [injection H as -> _; contradiction|auto].
  - intros [H|H]; auto.
Qed.
End DictFacts.

(** ** [sorted] *)

Section SortFacts.
Variable A : Type.

Lemma insert_desc_perm (x : float * A) l :
  Permutation (insert_desc x l) (x :: l).
Proof.
  induction l as [|y tl IH]; simpl; [reflexivity|].
  destruct (float_gt (fst y) (fst x)); [|reflexivity].
  rewrite IH. apply perm_swap.
Qed.

Lemma sort_desc_perm (l : list (float * A)) : Permutation (sort_desc l) l.
Proof.
  induction l as [|x tl IH]; simpl; [reflexivity|].
  rewrite insert_desc_perm. auto.
Qed.

Lemma insert_desc_sorted (x : float * A) l :
  nan_free l ->
  StronglySorted (@key_ge A) l -> StronglySorted (@key_ge A) (insert_desc x l).
Proof.
  intros NF S. induction S as [|y tl Hs IH Hy]; simpl.
  - repeat constructor.
  - inversion NF as [|? ? Ny NFtl]; subst.
    destruct (float_gt (fst y) (fst x)) eqn:E.
    + constructor; [auto|].
      rewrite Forall_forall in *. intros z Hz.
      apply (Permutation_in _ (insert_desc_perm x tl)) in Hz.
      destruct Hz as [<-|Hz]; [|auto].
      red. apply float_gt_asym. assumption.
    + constructor; [constructor; assumption|].
      constructor; [exact E|].
      rewrite Forall_forall in *. intros z Hz. red.
      apply float_le_trans with (y := fst y);
        [assumption|apply Hy; assumption|exact E].
Qed.

(** Without NaN among the keys, [sort_desc] sorts. *)
Lemma sort_desc_sorted (l : list (float * A)) :
  nan_free l -> StronglySorted (@key_ge A) (sort_desc l).
Proof.
  induction l as [|x tl IH]; simpl; intro NF; [constructor|].
  inversion NF as [|? ? Nx NFtl]; subst.
  apply insert_desc_sorted; [|auto].
  unfold nan_free in *. rewrite Forall_forall in *. intros p I.
  apply NFtl. apply (Permutation_in _ (sort_desc_perm tl)). assumption.
Qed.

(** [sort_desc] is a sort as Python's. *)
Lemma sort_desc_stable : stable_sort_desc (@sort_desc A).
Proof. split; [apply sort_desc_perm|reflexivity]. Qed.

Lemma combine_map_l (g : A -> float) (xs : list A) :
  combine (map g xs) xs = map (fun x => (g x, x)) xs.
Proof.
  induction xs as [|x tl IH]; simpl; [reflexivity|]. rewrite IH. reflexivity.
Qed.

Variable list_sort : list (float * A) -> list (float * A).
Hypothesis list_sort_spec : stable_sort_desc list_sort.

(** [sorted] returns when the key function returns on every item, and
    rearranges the items. *)
Lemma sorted_desc_perm (key : A -> result float) (g : A -> float)
  (xs : list A) :
  (forall x, In x xs -> key x = Ok (g x)) ->
  exists s, sorted_desc list_sort key xs = Ok s /\ Permutation s xs.
Proof.
  intro Hkey. unfold sorted_desc.
  rewrite (mapM_total key g xs Hkey). simpl. rewrite combine_map_l.
  eexists. split; [reflexivity|].
  pose proof (proj1 list_sort_spec (map (fun x => (g x, x)) xs)) as P.
  apply (Permutation_map snd) in P. rewrite map_map in P. simpl in P.
  rewrite map_id in P. exact P.
Qed.

(** When no key is NaN the result is in descending key order, and is the
    list the stable sort gives. *)
Lemma sorted_desc_spec (key : A -> result float) (g : A -> float)
  (xs : list A) :
  (forall x, In x xs -> key x = Ok (g x)) ->
  (forall x, In x xs -> is_nan (g x) = false) ->
  exists s, sorted_desc list_sort key xs = Ok s /\ Permutation s xs /\
            StronglySorted (fun a b => float_gt (g b) (g a) = false) s /\
            s = map snd (sort_desc (map (fun x => (g x, x)) xs)).
Proof.
  intros Hkey Hnan. unfold sorted_desc.
  rewrite (mapM_total key g xs Hkey). simpl. rewrite combine_map_l.
  assert (NF : nan_free (map (fun x => (g x, x)) xs)).
  { unfold nan_free. rewrite Forall_forall. intros p I.
    apply in_map_iff in I. destruct I as (x & <- & I). simpl. auto. }
  rewrite (proj2 list_sort_spec _ NF).
  eexists. split; [reflexivity|].
  pose proof (sort_desc_perm (map (fun x => (g x, x)) xs)) as P.
  pose proof (sort_desc_sorted (map (fun x => (g x, x)) xs) NF) as S.
  set (l := sort_desc (map (fun x => (g x, x)) xs)) in *.
  split; [|split; [|reflexivity]].
  - apply (Permutation_map snd) in P. rewrite map_map in P. simpl in P.
    rewrite map_id in P. exact P.
  - assert (F : Forall (fun p => fst p = g (snd p)) l).
    { rewrite Forall_forall. intros p Hp.
      apply (Permutation_in _ P) in Hp. apply in_map_iff in Hp.
      destruct Hp as (x & <- & _). reflexivity. }
    clearbody l. clear P NF.
    induction S as [|p tl Hs IH Hp]; simpl; [constructor|].
    inversion F as [|? ? Fp Ftl]; subst.
    constructor; [auto|].
    rewrite Forall_forall in *. intros b Hb.
    apply in_map_iff in Hb. destruct Hb as (p' & <- & Hp').
    rewrite <- Fp, <- (Ftl p' Hp'). apply Hp. assumption.
Qed.
End SortFacts.

Lemma NoDup_firstn {A : Type} (n : nat) (l : list A) :
  NoDup l -> NoDup (firstn n l).
Proof.
  intro H. rewrite <- (firstn_skipn n l) in H.
  exact (NoDup_app_remove_r _ _ H).
Qed.

Lemma In_firstn {A : Type} (n : nat) (l : list A) (x : A) :
  In x (firstn n l) -> In x l.
Proof.
  intro H. rewrite <- (firstn_skipn n l). apply in_or_app. auto.
Qed.

Lemma slice_to_firstn {A : Type} (xs : list A) (stop : Z) :
  exists n, slice_to xs stop = firstn n xs.
Proof. unfold slice_to. destruct (0 <=? stop)%Z; eauto. Qed.

(** The first item of a list that has a property some item has. *)
Lemma Exists_first {A : Type} (P : A -> bool) (l : list A) :
  Exists (fun x => P x = true) l ->
  exists pre x post,
    l = pre ++ x :: post /\ Forall (fun y => P y = false) pre /\ P x = true.
Proof.
  induction 1 as [x l H|x l H IH].
  - exists [], x, l. auto.
  - destruct (P x) eqn:E.
    + exists [], x, l. auto.
    + destruct IH as (pre & y & post & -> & F & Py).
      exists (x :: pre), y, post. auto.
Qed.

Lemma Forall_or_Exists {A : Type} (P : A -> bool) (l : list A) :
  Forall (fun x => P x = false) l \/ Exists (fun x => P x = true) l.
Proof.
  induction l as [|x l [F|E]]; auto.
  destruct (P x) eqn:Px; auto.
Qed.

End PyFacts.


(* ================================================================== *)
(** * Properties of the result fusion *)
(* ================================================================== *)

Module FusionSpec.
Import Py PyFacts Fusion.

(** ** The conversions of the scores *)

Lemma valid_id (h : hit) : valid h = true -> get_id h <> IdNone.
Proof. unfold valid. destruct (get_id h); congruence. Qed.

Lemma valid_numeric (h : hit) :
  valid h = true -> isinstance_int_float (get_score h) = true.
Proof. unfold valid. destruct (get_id h); congruence. Qed.

(** On an [int] or a [float], [float] can only raise [OverflowError]. *)
Lemma py_float_numeric (v : pyval) (e : exn) :
  isinstance_int_float v = true -> py_float v = Raise e -> e = OverflowError.
Proof.
  destruct v; simpl; try discriminate. intros _.
  destruct (is_inf (float_of_int z)); congruence.
Qed.

Lemma valid_score (h : hit) :
  valid h = true ->
  get_score_default h = get_score h /\ item_score h = Ok (get_score h).
Proof.
  intro V. apply valid_numeric in V.
  unfold item_score, get_score_default, get_score in *.
  destruct (hit_score h); [auto|discriminate].
Qed.

(** On a valid entry in range none of the conversions of the code
    raises. *)
Lemma valid_float (h : hit) :
  valid h = true -> overflows h = false ->
  py_float (get_score h) = Ok (score_of h) /\
  get_score_default h = get_score h /\
  score_key h = Ok (score_of h).
Proof.
  intros V O. destruct (valid_score h V) as [D I].
  unfold overflows in O. rewrite V in O. simpl in O.
  unfold score_of, score_key. rewrite I. cbn [bind].
  destruct (py_float (get_score h)); [auto|discriminate].
Qed.

(** On a valid entry out of range all of them raise [OverflowError]. *)
Lemma overflows_spec (h : hit) :
  overflows h = true ->
  valid h = true /\
  py_float (get_score h) = Raise OverflowError /\
  get_score_default h = get_score h /\
  score_key h = Raise OverflowError.
Proof.
  unfold overflows. intro O. apply andb_prop in O. destruct O as [V O].
  destruct (valid_score h V) as [D I].
  assert (R : py_float (get_score h) = Raise OverflowError).
  { destruct (py_float (get_score h)) as [x|e] eqn:E; [discriminate|].
    f_equal. apply (py_float_numeric (get_score h)); [|assumption].
    apply valid_numeric. assumption. }
  unfold score_key. rewrite I. cbn [bind]. auto.
Qed.

Lemma not_within_range (hits : list hit) :
  ~ within_range hits -> Exists (fun h => overflows h = true) hits.
Proof.
  intro N. destruct (Forall_or_Exists overflows hits); [contradiction|auto].
Qed.

Lemma within_range_app (l1 l2 : list hit) :
  within_range (l1 ++ l2) <-> within_range l1 /\ within_range l2.
Proof. apply Forall_app. Qed.

(** ** One round of the loop *)

Lemma merge_step_skip (d : dict hit) (h : hit) :
  valid h = false -> merge_step d h = Ok d.
Proof.
  unfold valid, merge_step. destruct (get_id h); intro V;
    try reflexivity; rewrite V; reflexivity.
Qed.

Lemma merge_step_new (d : dict hit) (h : hit) :
  valid h = true -> dict_get d (key_of h) = None ->
  merge_step d h = Ok (dict_set d (key_of h) h).
Proof.
  unfold valid, merge_step, key_of. destruct (get_id h); intros V G;
    try discriminate; rewrite V; cbn [negb]; rewrite G; reflexivity.
Qed.

(** A valid entry whose key is taken: the two scores are converted, the new
    one first. *)
Lemma merge_step_stored (d : dict hit) (h stored : hit) :
  valid h = true -> dict_get d (key_of h) = Some stored ->
  merge_step d h =
  (new <- py_float (get_score h) ;;
   old <- py_float (get_score_default stored) ;;
   if float_gt new old then Ok (dict_set d (key_of h) h) else Ok d).
Proof.
  unfold valid, merge_step, key_of. destruct (get_id h); intros V G;
    try discriminate; rewrite V; cbn [negb]; rewrite G; reflexivity.
Qed.

Lemma merge_step_seen (d : dict hit) (h stored : hit) :
  valid h = true -> overflows h = false ->
  valid stored = true -> overflows stored = false ->
  dict_get d (key_of h) = Some stored ->
  merge_step d h =
  Ok (if float_gt (score_of h) (score_of stored)
      then dict_set d (key_of h) h else d).
Proof.
  intros V O Vs Os G.
  destruct (valid_float h V O) as (F & _ & _).
  destruct (valid_float stored Vs Os) as (Fs & Ds & _).
  rewrite (merge_step_stored d h stored V G), F, Ds, Fs. cbn [bind].
  destruct (float_gt (score_of h) (score_of stored)); reflexivity.
Qed.

(** A round leaves [by_id] as it is or files the entry under its key. *)
Lemma merge_step_Ok (d d' : dict hit) (h : hit) :
  merge_step d h = Ok d' ->
  d' = d \/ (valid h = true /\ d' = dict_set d (key_of h) h).
Proof.
  destruct (valid h) eqn:V; [|rewrite merge_step_skip by assumption;
                              intro H; injection H as <-; auto].
  destruct (dict_get d (key_of h)) as [stored|] eqn:G.
  - rewrite (merge_step_stored d h stored V G).
    destruct (py_float (get_score h)) as [new|]; [|discriminate].
    destruct (py_float (get_score_default stored)) as [old|]; [|discriminate].
    cbn [bind]. destruct (float_gt new old); intro H; injection H as <-; auto.
  - rewrite (merge_step_new d h V G). intro H. injection H as <-. auto.
Qed.

Lemma merge_loop_app (d : dict hit) (l1 l2 : list hit) :
  merge_loop d (l1 ++ l2) =
  bind (merge_loop d l1) (fun d' => merge_loop d' l2).
Proof.
  revert d. induction l1 as [|h tl IH]; simpl; intro d; [reflexivity|].
  destruct (merge_step d h); simpl; auto.
Qed.

Lemma well_keyed_get (d : dict hit) (k : string) (h : hit) :
  well_keyed d -> dict_get d k = Some h -> valid h = true /\ key_of h = k.
Proof. intros [_ W] G. apply W. apply dict_get_In. assumption. Qed.

Lemma well_keyed_set (d : dict hit) (h : hit) :
  well_keyed d -> valid h = true -> well_keyed (dict_set d (key_of h) h).
Proof.
  intros [N W] V. split.
  - apply dict_keys_set_NoDup. assumption.
  - intros k h' I. apply dict_set_In in I.
    destruct I as [[-> ->]|I]; auto.
Qed.

Lemma merge_step_well_keyed (d d' : dict hit) (h : hit) :
  well_keyed d -> merge_step d h = Ok d' -> well_keyed d'.
Proof.
  intros W H. apply merge_step_Ok in H. destruct H as [->|[V ->]];
    [assumption|apply well_keyed_set; assumption].
Qed.

(** ** The rounds that raise *)

(** A round can only raise [OverflowError]. *)
Lemma merge_step_Raise (d : dict hit) (h : hit) (e : exn) :
  well_keyed d -> merge_step d h = Raise e -> e = OverflowError.
Proof.
  intros W. destruct (valid h) eqn:V;
    [|rewrite merge_step_skip by assumption; discriminate].
  destruct (dict_get d (key_of h)) as [stored|] eqn:G;
    [|rewrite merge_step_new by assumption; discriminate].
  rewrite (merge_step_stored d h stored V G).
  destruct (well_keyed_get d _ _ W G) as [Vs _].
  destruct (valid_score stored Vs) as [-> _].
  destruct (py_float (get_score h)) as [new|e1] eqn:E1; cbn [bind].
  - destruct (py_float (get_score stored)) as [old|e2] eqn:E2; cbn [bind].
    + destruct (float_gt new old); discriminate.
    + intro H. injection H as <-.
      apply (py_float_numeric (get_score stored)); [|assumption].
      apply valid_numeric. assumption.
  - intro H. injection H as <-.
    apply (py_float_numeric (get_score h)); [|assumption].
    apply valid_numeric. assumption.
Qed.

Lemma merge_loop_Raise (d : dict hit) (hits : list hit) (e : exn) :
  well_keyed d -> merge_loop d hits = Raise e -> e = OverflowError.
Proof.
  revert d. induction hits as [|h tl IH]; simpl; intros d W; [discriminate|].
  destruct (merge_step d h) as [d'|e'] eqn:S; cbn [bind].
  - apply IH. apply (merge_step_well_keyed d d' h); assumption.
  - intro H. injection H as <-. apply (merge_step_Raise d h); assumption.
Qed.

(** Once an entry out of range is stored, a valid entry of its key makes
    the round raise: the stored score is converted for the comparison. *)
Lemma merge_step_stuck (d : dict hit) (k : string) (x h : hit) :
  well_keyed d -> In (k, x) d -> overflows x = true ->
  valid h = true -> key_of h = k ->
  merge_step d h = Raise OverflowError.
Proof.
  intros W I O V K. subst k.
  pose proof (dict_In_get _ d _ x (proj1 W) I) as G.
  destruct (overflows_spec x O) as (_ & Fx & Dx & _).
  rewrite (merge_step_stored d h x V G), Dx, Fx.
  destruct (py_float (get_score h)) as [new|e] eqn:E; cbn [bind];
    [reflexivity|].
  f_equal. apply (py_float_numeric (get_score h)); [|assumption].
  apply valid_numeric. assumption.
Qed.

(** It is never replaced: the loop raises, or ends with the entry still
    stored. *)
Lemma merge_loop_stuck (hits : list hit) :
  forall (d : dict hit) (k : string) (x : hit),
    well_keyed d -> In (k, x) d -> overflows x = true ->
    merge_loop d hits = Raise OverflowError \/
    exists d', merge_loop d hits = Ok d' /\ well_keyed d' /\ In (k, x) d'.
Proof.
  induction hits as [|h tl IH]; intros d k x W I O; simpl; [right; eauto|].
  destruct (merge_step d h) as [d'|e] eqn:S; cbn [bind].
  - apply (IH d' k x); [eapply merge_step_well_keyed; eassumption| |assumption].
    destruct (merge_step_Ok d d' h S) as [->|[V ->]]; [assumption|].
    apply dict_set_In_other; [|assumption].
    intro E. rewrite (merge_step_stuck d k x h) in S by auto.
    discriminate.
  - left. f_equal. apply (merge_step_Raise d h); assumption.
Qed.

(** ** What the loop leaves in [by_id] *)

Lemma first_best_In (hits : list hit) (key : string) (h : hit) :
  first_best hits key h -> In h hits.
Proof.
  intros (pre & post & -> & _). apply in_or_app. right. left. reflexivity.
Qed.

Lemma first_best_snoc_worse (hits : list hit) (key : string) (h x : hit) :
  first_best hits key h ->
  (valid x = true -> key_of x = key ->
   float_gt (score_of x) (score_of h) = false) ->
  first_best (hits ++ [x]) key h.
Proof.
  intros (pre & post & -> & V & K & Hpre & Hpost) Hx.
  exists pre, (post ++ [x]). repeat split; auto.
  - rewrite <- app_assoc. reflexivity.
  - intros h' I. apply in_app_or in I. destruct I as [I|[<-|[]]]; auto.
Qed.

Lemma first_best_snoc_better (hits : list hit) (key : string) (h x : hit) :
  first_best hits key h -> valid x = true -> key_of x = key ->
  float_gt (score_of x) (score_of h) = true ->
  first_best (hits ++ [x]) key x.
Proof.
  intros (pre & post & -> & V & K & Hpre & Hpost) Vx Kx G.
  exists (pre ++ h :: post), []. repeat split; auto; [|intros ? []].
  intros h' I V' K'. apply in_app_or in I.
  destruct (float_ge (score_of h') (score_of x)) eqn:C; [exfalso|reflexivity].
  destruct I as [I|[<-|I]].
  - pose proof (float_gt_ge_trans _ _ _ (float_ge_gt_trans _ _ _ C G)
                                  (float_ge_refl _ (proj2 (float_gt_not_nan _ _ G))))
      as X.
    apply float_gt_ge in X. rewrite (Hpre h' I V' K') in X. discriminate.
  - rewrite (float_gt_not_ge _ _ G) in C. discriminate.
  - pose proof (float_ge_gt_trans _ _ _ C G) as X.
    rewrite (Hpost h' I V' K') in X. discriminate.
Qed.

Lemma merge_loop_spec (hits : list hit) :
  within_range hits ->
  exists d, merge_loop [] hits = Ok d /\ well_keyed d /\
            keeps_first_best hits d.
Proof.
  induction hits as [|x hits IH] using rev_ind; intro R.
  - exists []. split; [reflexivity|]. split.
    + split; [constructor|]. intros k0 h0 [].
    + intros key. simpl. intros h' [].
  - apply within_range_app in R. destruct R as [R Rx].
    apply Forall_inv in Rx.
    destruct (IH R) as (d & L & W & K).
    rewrite merge_loop_app, L. simpl.
    destruct (valid x) eqn:V.
    + pose proof (K (key_of x)) as Kx.
      destruct (dict_get d (key_of x)) as [stored|] eqn:G.
      * destruct (well_keyed_get d _ _ W G) as [Vs Ks].
        assert (Os : overflows stored = false).
        { unfold within_range in R. rewrite Forall_forall in R. apply R.
          eapply first_best_In. eassumption. }
        rewrite (merge_step_seen d x stored V Rx Vs Os G). simpl.
        destruct (float_gt (score_of x) (score_of stored)) eqn:C.
        -- eexists. split; [reflexivity|]. split.
           ++ apply well_keyed_set; assumption.
           ++ intro key. destruct (string_dec (key_of x) key) as [<-|N].
              ** rewrite dict_get_set_same.
                 eapply first_best_snoc_better; eauto.
              ** rewrite dict_get_set_other by assumption.
                 specialize (K key).
                 destruct (dict_get d key) as [h|].
                 --- apply first_best_snoc_worse; [assumption|].
                     intros _ E. contradiction.
                 --- intros h' I. apply in_app_or in I.
                     destruct I as [I|[<-|[]]]; auto.
        -- exists d. split; [reflexivity|]. split; [exact W|].
           intro key. specialize (K key).
           destruct (string_dec (key_of x) key) as [<-|N].
           ++ rewrite G in *. apply first_best_snoc_worse; auto.
           ++ destruct (dict_get d key) as [h|].
              ** apply first_best_snoc_worse; [assumption|].
                 intros _ E. contradiction.
              ** intros h' I. apply in_app_or in I.
                 destruct I as [I|[<-|[]]]; auto.
      * rewrite (merge_step_new d x V G). simpl.
        eexists. split; [reflexivity|]. split.
        -- apply well_keyed_set; assumption.
        -- intro key. destruct (string_dec (key_of x) key) as [<-|N].
           ++ rewrite dict_get_set_same.
              exists hits, []. repeat split; auto; [|intros ? []].
              intros h' I V' K'. exfalso. exact (Kx h' I V' K').
           ++ rewrite dict_get_set_other by assumption.
              specialize (K key). destruct (dict_get d key) as [h|].
              ** apply first_best_snoc_worse; [assumption|].
                 intros _ E. contradiction.
              ** intros h' I. apply in_app_or in I.
                 destruct I as [I|[<-|[]]]; auto.
    + rewrite (merge_step_skip d x V). simpl.
      exists d. split; [reflexivity|]. split; [exact W|].
      intro key. specialize (K key). destruct (dict_get d key) as [h|].
      * apply first_best_snoc_worse; [assumption|]. congruence.
      * intros h' I. apply in_app_or in I.
        destruct I as [I|[<-|[]]]; [auto|congruence].
Qed.

(** The entries of [by_id] are entries of the input. *)
Lemma kept_from_input (hits : list hit) (d : dict hit) (k : string) (h : hit) :
  well_keyed d -> keeps_first_best hits d -> In (k, h) d -> In h hits.
Proof.
  intros W K I. specialize (K k).
  rewrite (dict_In_get _ d k h (proj1 W) I) in K.
  eapply first_best_In. eassumption.
Qed.

(** The loop leaves [by_id] alone when every valid entry it meets is already
    matched or beaten by the entry stored under its key. *)
Lemma merge_loop_fixed (d : dict hit) (hits : list hit) :
  well_keyed d -> within_range hits ->
  (forall h, In h hits -> valid h = true ->
     exists stored, dict_get d (key_of h) = Some stored /\
                    overflows stored = false /\
                    float_gt (score_of h) (score_of stored) = false) ->
  merge_loop d hits = Ok d.
Proof.
  intros W. induction hits as [|x tl IH]; simpl; intros R D; [reflexivity|].
  inversion R as [|? ? Rx Rtl]; subst.
  assert (St : merge_step d x = Ok d).
  { destruct (valid x) eqn:V; [|apply merge_step_skip; assumption].
    destruct (D x (or_introl eq_refl) V) as (stored & G & Os & C).
    destruct (well_keyed_get d _ _ W G) as [Vs _].
    rewrite (merge_step_seen d x stored V Rx Vs Os G), C. reflexivity. }
  rewrite St. simpl. apply IH; [assumption|]. intros h I. apply D. auto.
Qed.

Lemma keeps_first_best_dominates (hits : list hit) (d : dict hit) (h : hit) :
  keeps_first_best hits d -> In h hits -> valid h = true ->
  exists stored, dict_get d (key_of h) = Some stored /\ In stored hits /\
                 float_gt (score_of h) (score_of stored) = false.
Proof.
  intros K I V. specialize (K (key_of h)).
  destruct (dict_get d (key_of h)) as [stored|].
  - exists stored. split; [reflexivity|].
    split; [eapply first_best_In; eassumption|].
    destruct K as (pre & post & -> & Vs & Ks & Hpre & Hpost).
    apply in_app_or in I. destruct I as [I|[<-|I]].
    + destruct (float_gt (score_of h) (score_of stored)) eqn:C;
        [|reflexivity].
      apply float_gt_ge in C. rewrite (Hpre h I V eq_refl) in C. discriminate.
    + apply float_gt_irrefl.
    + auto.
  - exfalso. exact (K h I V eq_refl).
Qed.

Lemma well_keyed_values (d : dict hit) :
  well_keyed d ->
  NoDup (map key_of (dict_values d)) /\
  forall h, In h (dict_values d) -> valid h = true.
Proof.
  intros [N W]. split.
  - replace (map key_of (dict_values d)) with (dict_keys d); [assumption|].
    unfold dict_values, dict_keys. rewrite map_map.
    apply map_ext_in. intros [k h] I. simpl.
    destruct (W k h I) as [_ E]. symmetry. assumption.
  - intros h I. apply in_map_iff in I. destruct I as ([k h'] & <- & I).
    apply (W k h' I).
Qed.

(** ** The whole function *)

(** [sorted] can only raise [OverflowError], and does when an entry out of
    range is stored. *)
Lemma sorted_Raise (list_sort : list (float * hit) -> list (float * hit))
  (d : dict hit) (e : exn) :
  well_keyed d ->
  sorted_desc list_sort score_key (dict_values d) = Raise e ->
  e = OverflowError.
Proof.
  intros W. unfold sorted_desc.
  destruct (mapM score_key (dict_values d)) as [ks|e'] eqn:M; cbn [bind];
    [discriminate|].
  intro H. injection H as <-.
  apply mapM_Raise in M. destruct M as (h & I & Rh).
  apply well_keyed_values in W. destruct W as [_ V]. specialize (V h I).
  destruct (valid_score h V) as [_ It].
  unfold score_key in Rh. rewrite It in Rh. cbn [bind] in Rh.
  apply (py_float_numeric (get_score h)); [|assumption].
  apply valid_numeric. assumption.
Qed.

Lemma sorted_stuck (list_sort : list (float * hit) -> list (float * hit))
  (d : dict hit) (k : string) (x : hit) :
  well_keyed d -> In (k, x) d -> overflows x = true ->
  sorted_desc list_sort score_key (dict_values d) = Raise OverflowError.
Proof.
  intros W I O.
  destruct (sorted_desc list_sort score_key (dict_values d)) as [s|e] eqn:S.
  - exfalso. unfold sorted_desc in S.
    destruct (mapM score_key (dict_values d)) as [ks|] eqn:M; [|discriminate].
    destruct (mapM_Ok_all score_key _ ks x M) as (y & Y).
    { apply in_map_iff. exists (k, x). auto. }
    destruct (overflows_spec x O) as (_ & _ & _ & Rx). congruence.
  - f_equal. apply (sorted_Raise list_sort d); assumption.
Qed.

(** When the score of a valid entry is out of range, [_merge_hits] raises
    [OverflowError], whatever the sort. *)
Lemma merge_hits_overflow
  (list_sort : list (float * hit) -> list (float * hit))
  (hit_groups : list (list hit)) (limit : Z) :
  ~ within_range (concat hit_groups) ->
  _merge_hits list_sort hit_groups limit = Raise OverflowError.
Proof.
  intro N. apply not_within_range in N.
  destruct (Exists_first overflows _ N) as (pre & x & post & E & F & O).
  unfold _merge_hits, merge_by_id. rewrite E, merge_loop_app.
  destruct (merge_loop_spec pre F) as (d & L & W & K).
  rewrite L. cbn [bind merge_loop].
  destruct (overflows_spec x O) as (V & Fx & _ & _).
  destruct (dict_get d (key_of x)) as [stored|] eqn:G.
  - rewrite (merge_step_stored d x stored V G), Fx. reflexivity.
  - rewrite (merge_step_new d x V G). cbn [bind].
    destruct (merge_loop_stuck post (dict_set d (key_of x) x) (key_of x) x)
      as [R|(d' & R & W' & I)]; auto.
    + apply well_keyed_set; assumption.
    + apply dict_get_In. apply dict_get_set_same.
    + rewrite R. reflexivity.
    + rewrite R. cbn [bind].
      rewrite (sorted_stuck list_sort d' (key_of x) x W' I O). reflexivity.
Qed.

(** Merging twice what was merged changes nothing in [by_id]. *)
Lemma merge_loop_twice (hits : list hit) (d : dict hit) :
  within_range hits -> merge_loop [] hits = Ok d -> merge_loop d hits = Ok d.
Proof.
  intros R L. destruct (merge_loop_spec hits R) as (d' & L' & W & K).
  assert (d' = d) as -> by congruence.
  apply merge_loop_fixed; [assumption|assumption|].
  intros h I V.
  destruct (keeps_first_best_dominates hits d h K I V) as (stored & G & Is & C).
  exists stored. split; [assumption|]. split; [|assumption].
  unfold within_range in R. rewrite Forall_forall in R. auto.
Qed.

Section ListSort.
Variable list_sort : list (float * hit) -> list (float * hit).
Hypothesis list_sort_spec : stable_sort_desc list_sort.

(** On entries in range the function returns: its result is a slice of a
    rearrangement of the kept entries, which is in descending order of
    score when no score is NaN. *)
Lemma merge_hits_spec (hit_groups : list (list hit)) (limit : Z) :
  within_range (concat hit_groups) ->
  exists by_id s,
    merge_by_id hit_groups = Ok by_id /\ well_keyed by_id /\
    keeps_first_best (concat hit_groups) by_id /\
    Permutation s (dict_values by_id) /\
    _merge_hits list_sort hit_groups limit = Ok (slice_to s limit) /\
    (no_nan (concat hit_groups) ->
     StronglySorted score_ge s /\
     s = map snd (sort_desc (map (fun h => (score_of h, h))
                                 (dict_values by_id)))).
Proof.
  intro R.
  destruct (merge_loop_spec (concat hit_groups) R) as (d & L & W & K).
  assert (Hkey : forall h, In h (dict_values d) ->
                           score_key h = Ok (score_of h)).
  { intros h I. apply in_map_iff in I. destruct I as ([k h'] & <- & I).
    simpl. apply valid_float.
    - apply (proj2 W k h' I).
    - unfold within_range in R. rewrite Forall_forall in R. apply R.
      apply (kept_from_input _ d k h' W K I). }
  destruct (Forall_or_Exists
              (fun h => valid h && is_nan (score_of h))
              (concat hit_groups)) as [NF|NE].
  - destruct (sorted_desc_spec hit list_sort list_sort_spec score_key
                score_of (dict_values d) Hkey) as (s & So & P & SS & E).
    { intros h I. apply in_map_iff in I. destruct I as ([k h'] & <- & I).
      simpl. rewrite Forall_forall in NF.
      specialize (NF h' (kept_from_input _ d k h' W K I)).
      rewrite (proj1 (proj2 W k h' I)) in NF. exact NF. }
    exists d, s. unfold _merge_hits, merge_by_id in *.
    rewrite L. simpl. rewrite So. simpl. auto 10.
  - destruct (sorted_desc_perm hit list_sort list_sort_spec score_key
                score_of (dict_values d) Hkey) as (s & So & P).
    exists d, s. unfold _merge_hits, merge_by_id in *.
    rewrite L. simpl. rewrite So. simpl.
    do 5 (split; [auto|]). intro NN. exfalso.
    apply Exists_exists in NE. destruct NE as (h & I & B).
    apply andb_prop in B. destruct B as [V B].
    unfold no_nan in NN. rewrite Forall_forall in NN.
    rewrite (NN h I V) in B. discriminate.
Qed.

(** On entries in range without NaN every sort as Python's gives the same
    result. *)
Lemma merge_hits_eval (hit_groups : list (list hit)) (limit : Z)
  (out : list hit) :
  within_range (concat hit_groups) -> no_nan (concat hit_groups) ->
  _merge_hits (@sort_desc hit) hit_groups limit = Ok out ->
  _merge_hits list_sort hit_groups limit = Ok out.
Proof.
  intros R NN E.
  destruct (merge_hits_spec hit_groups limit R)
    as (d & s & M & _ & _ & _ & -> & S).
  destruct (S NN) as [_ ->].
  unfold _merge_hits, sorted_desc in E. rewrite M in E. cbn [bind] in E.
  destruct (mapM score_key (dict_values d)) as [ks|] eqn:Mk; [|discriminate].
  cbn [bind] in E. rewrite <- E. do 3 f_equal. f_equal.
  rewrite <- combine_map_l. f_equal.
  destruct (merge_loop_spec (concat hit_groups) R) as (d' & L & W & K).
  unfold merge_by_id in M. assert (d' = d) as -> by congruence.
  assert (X : mapM score_key (dict_values d)
              = Ok (map score_of (dict_values d))).
  { apply mapM_total. intros h I.
    apply in_map_iff in I. destruct I as ([k h'] & <- & I). simpl.
    apply valid_float; [apply (proj2 W k h' I)|].
    unfold within_range in R. rewrite Forall_forall in R. apply R.
    apply (kept_from_input _ d k h' W K I). }
  congruence.
Qed.
End ListSort.

(** A scenario: entries in range, none NaN, and what the stable sort makes
    of them. *)
Ltac all_entries :=
  unfold within_range, no_nan; cbn [concat app];
  repeat (apply Forall_cons;
          [first [ vm_compute; reflexivity
                 | intros _; vm_compute; reflexivity
                 | let V := fresh in intro V; vm_compute in V; discriminate V ]
          |]);
  apply Forall_nil.

Ltac scenario H :=
  apply (merge_hits_eval _ H);
  [all_entries | all_entries | vm_compute; reflexivity].

(** ** The tests of tests/test_full_qa_cli.py *)

Example test_merge_hits_prefers_highest_score_per_id :
  _merge_hits (@list_sort_small hit)
    [ [mkHit (Some (IdStr "A")) (Some (fl 4 10)) "one";
       mkHit (Some (IdStr "B")) (Some (fl 3 10)) "two"];
      [mkHit (Some (IdStr "A")) (Some (fl 9 10)) "one (better)";
       mkHit (Some IdNone) (Some (fl 12 10)) "";
       mkHit (Some (IdStr "C")) (Some (PyStr "bad")) ""] ] 3
  = Ok [mkHit (Some (IdStr "A")) (Some (fl 9 10)) "one (better)";
        mkHit (Some (IdStr "B")) (Some (fl 3 10)) "two"].
Proof. vm_compute. reflexivity. Qed.

Example test_merge_hits_respects_limit_and_sorting :
  _merge_hits (@list_sort_small hit)
    [ [hit_of (IdStr "A") (fl 2 10); hit_of (IdStr "B") (fl 6 10)];
      [hit_of (IdStr "C") (fl 7 10); hit_of (IdStr "D") (fl 1 10)] ] 2
  = Ok [hit_of (IdStr "C") (fl 7 10); hit_of (IdStr "B") (fl 6 10)].
Proof. vm_compute. reflexivity. Qed.

(** ** Scores that are not plain numbers *)

(** The [int] [2**53 + 1] rounds to the float [2.0**53]: it does not
    replace an entry of that score, and is not replaced by one. *)
Example merge_rounds_int_scores :
  _merge_hits (@list_sort_small hit) [[float_2_53]; [int_2_53_1]] 4
  = Ok [float_2_53] /\
  _merge_hits (@list_sort_small hit) [[int_2_53_1]; [float_2_53]] 4
  = Ok [int_2_53_1].
Proof. split; vm_compute; reflexivity. Qed.

(** An entry whose score is NaN is kept, and is never replaced. *)
Example merge_keeps_nan_score :
  _merge_hits (@list_sort_small hit)
    [[hit_of (IdStr "B") (PyFloat NaN)]; [hit_of (IdStr "B") (fl 5 10)]] 4
  = Ok [hit_of (IdStr "B") (PyFloat NaN)].
Proof. vm_compute. reflexivity. Qed.

(** ** The claims *)

Section Claims.
Variable list_sort : list (float * hit) -> list (float * hit).
Hypothesis list_sort_spec : stable_sort_desc list_sort.

(** C2, as the code has it.  When the score of every valid entry is within
    the range of the floats, the loop ends with a [by_id] that holds no key
    twice; the entry under a key is a valid entry of that key (sequences
    in the order given, each in its own order) whose score, as a float, no
    valid entry of that key before it reaches and none after it exceeds,
    so of entries with the same id and equal scores the first is the one
    kept; a key no valid entry has is absent.  The tie scenario keeps the
    first of two entries with id "A" and score 0.5, in either order of the
    sequences. *)
Theorem merge_keeps_first_best :
  (forall hit_groups : list (list hit),
     within_range (concat hit_groups) ->
     exists by_id,
       merge_by_id hit_groups = Ok by_id /\
       NoDup (dict_keys by_id) /\
       forall key,
         match dict_get by_id key with
         | Some h => first_best (concat hit_groups) key h
         | None => forall h', In h' (concat hit_groups) ->
                              valid h' = true -> key_of h' <> key
         end) /\
  _merge_hits list_sort [[tie_first]; [tie_second]] 4 = Ok [tie_first] /\
  _merge_hits list_sort [[tie_second]; [tie_first]] 4 = Ok [tie_second].
Proof.
  split; [|split; scenario list_sort_spec].
  intros hit_groups R.
  destruct (merge_loop_spec (concat hit_groups) R) as (d & L & W & K).
  exists d. split; [exact L|]. split; [apply W|exact K].
Qed.

(** C3, as the code has it.  No entry whose id is missing or [None], and
    no entry whose score is not an [int] or a [float], is in a result;
    [_merge_hits] returns when the score of every valid entry is within
    the range of the floats and raises [OverflowError] otherwise; the drop
    scenario yields exactly [[{"id": "A", "score": 0.4}]]. *)
Theorem merge_drops_malformed :
  (forall (hit_groups : list (list hit)) (limit : Z),
     (within_range (concat hit_groups) ->
      exists out,
        _merge_hits list_sort hit_groups limit = Ok out /\
        forall h,
          get_id h = IdNone \/ isinstance_int_float (get_score h) = false ->
          ~ In h out) /\
     (~ within_range (concat hit_groups) ->
      _merge_hits list_sort hit_groups limit = Raise OverflowError)) /\
  _merge_hits list_sort [drop_primary; drop_secondary] 4 = Ok drop_primary.
Proof.
  split; [|scenario list_sort_spec].
  intros hit_groups limit. split; [|apply merge_hits_overflow].
  intro R.
  destruct (merge_hits_spec list_sort list_sort_spec hit_groups limit R)
    as (d & s & _ & W & _ & P & E & _).
  eexists. split; [exact E|]. intros h Bad I.
  destruct (slice_to_firstn s limit) as (n & En). rewrite En in I.
  apply In_firstn in I. apply (Permutation_in _ P) in I.
  apply well_keyed_values in W. destruct W as [_ V]. specialize (V h I).
  destruct Bad as [B|B].
  - apply valid_id in V. contradiction.
  - apply valid_numeric in V. congruence.
Qed.

(** C8, as the code has it.  When the score of every valid entry is within
    the range of the floats and none is NaN, the result is the slice
    [[:limit]] of the kept entries ([by_id.values()]) rearranged in
    descending order of score; for a limit that is not negative that slice
    is the first [limit] of them.  The fusion scenario at limit 2 yields
    [[{"id": "X", "score": 0.9}, {"id": "Y", "score": 0.2}]]. *)
Theorem merge_sorted_truncated :
  (forall (hit_groups : list (list hit)) (limit : Z),
     within_range (concat hit_groups) -> no_nan (concat hit_groups) ->
     exists by_id s,
       merge_by_id hit_groups = Ok by_id /\
       Permutation s (dict_values by_id) /\
       StronglySorted score_ge s /\
       _merge_hits list_sort hit_groups limit = Ok (slice_to s limit) /\
       ((0 <= limit)%Z -> slice_to s limit = firstn (Z.to_nat limit) s)) /\
  _merge_hits list_sort [fusion_primary; fusion_secondary] 2
  = Ok fusion_secondary.
Proof.
  split; [|scenario list_sort_spec].
  intros hit_groups limit R NN.
  destruct (merge_hits_spec list_sort list_sort_spec hit_groups limit R)
    as (d & s & M & _ & _ & P & E & S).
  destruct (S NN) as [SS _].
  exists d, s. do 4 (split; [assumption|]).
  intro L. unfold slice_to.
  apply Z.leb_le in L. rewrite L. reflexivity.
Qed.

(** C10.  The entries of a result have pairwise distinct string forms of
    their ids: two entries of a result with the same string form are one
    entry; there is a result whenever the score of every valid entry is
    within the range of the floats.  Of the integer id 7 and the string id
    "7" one entry survives. *)
Theorem merge_dedups_by_string_form :
  (forall (hit_groups : list (list hit)) (limit : Z) (out : list hit),
     _merge_hits list_sort hit_groups limit = Ok out ->
     NoDup (map key_of out)) /\
  (forall (hit_groups : list (list hit)) (limit : Z),
     within_range (concat hit_groups) ->
     exists out, _merge_hits list_sort hit_groups limit = Ok out) /\
  key_of seven_int = key_of seven_str /\
  _merge_hits list_sort [[seven_int]; [seven_str]] 4 = Ok [seven_str] /\
  _merge_hits list_sort [[seven_str]; [seven_int]] 4 = Ok [seven_str].
Proof.
  split; [|split; [|split; [reflexivity|split; scenario list_sort_spec]]].
  - intros hit_groups limit out E.
    destruct (Forall_or_Exists overflows (concat hit_groups)) as [R|X].
    + destruct (merge_hits_spec list_sort list_sort_spec hit_groups limit R)
        as (d & s & _ & W & _ & P & E' & _).
      rewrite E' in E. injection E as <-.
      destruct (slice_to_firstn s limit) as (n & ->).
      rewrite <- firstn_map. apply NoDup_firstn.
      apply well_keyed_values in W. destruct W as [N _].
      apply (Permutation_NoDup (Permutation_sym (Permutation_map key_of P))).
      assumption.
    + rewrite merge_hits_overflow in E; [discriminate|].
      intro R. unfold within_range in R. rewrite Forall_forall in R.
      apply Exists_exists in X. destruct X as (h & I & O).
      rewrite (R h I) in O. discriminate.
  - intros hit_groups limit R.
    destruct (merge_hits_spec list_sort list_sort_spec hit_groups limit R)
      as (d & s & _ & _ & _ & _ & E & _).
    eauto.
Qed.
End Claims.

Lemma merge_keeps_first_best_witness :
  exists by_id,
    merge_by_id [[tie_first]; [tie_second]] = Ok by_id /\
    NoDup (dict_keys by_id) /\
    forall key,
      match dict_get by_id key with
      | Some h => first_best (concat [[tie_first]; [tie_second]]) key h
      | None => forall h', In h' (concat [[tie_first]; [tie_second]]) ->
                           valid h' = true -> key_of h' <> key
      end.
Proof.
  apply (proj1 (merge_keeps_first_best (@sort_desc hit)
                                       (sort_desc_stable hit))).
  all_entries.
Defined.

(** C2 as stated fails: of two valid entries with the id "A", the second
    with the score [10**400], none is kept, since comparing the scores
    raises [OverflowError]. *)
Lemma merge_raises_on_huge_score :
  ~ (forall hit_groups : list (list hit),
       exists by_id,
         merge_by_id hit_groups = Ok by_id /\
         forall key,
           match dict_get by_id key with
           | Some h => first_best (concat hit_groups) key h
           | None => forall h', In h' (concat hit_groups) ->
                                valid h' = true -> key_of h' <> key
           end).
Proof.
  intro H. destruct (H [[unit_hit]; [huge_hit]]) as (by_id & E & _).
  vm_compute in E. discriminate.
Qed.

Lemma merge_drops_malformed_witness :
  exists out,
    _merge_hits (@sort_desc hit) [drop_primary; drop_secondary] 4
    = Ok out /\
    forall h,
      get_id h = IdNone \/ isinstance_int_float (get_score h) = false ->
      ~ In h out.
Proof.
  apply (proj1 (proj1 (merge_drops_malformed (@sort_desc hit)
                                             (sort_desc_stable hit))
                      [drop_primary; drop_secondary] 4%Z)).
  all_entries.
Defined.

(** C3 as stated fails: an entry whose score is the float [inf], which is
    not a finite number, is kept. *)
Lemma merge_keeps_infinite_score :
  ~ (forall (hit_groups : list (list hit)) (limit : Z) out h,
       _merge_hits (@list_sort_small hit) hit_groups limit = Ok out ->
       In h (concat hit_groups) ->
       get_id h = IdNone \/ is_finite_number (get_score h) = false ->
       ~ In h out).
Proof.
  intro H.
  apply (H [[infinite_hit]] 4%Z [infinite_hit] infinite_hit).
  - vm_compute. reflexivity.
  - simpl. auto.
  - right. reflexivity.
  - simpl. auto.
Qed.

Lemma merge_sorted_truncated_witness :
  exists by_id s,
    merge_by_id [fusion_primary; fusion_secondary] = Ok by_id /\
    Permutation s (dict_values by_id) /\
    StronglySorted score_ge s /\
    _merge_hits (@sort_desc hit) [fusion_primary; fusion_secondary] 2
    = Ok (slice_to s 2) /\
    slice_to s 2 = firstn (Z.to_nat 2) s.
Proof.
  destruct (proj1 (merge_sorted_truncated (@sort_desc hit)
                                          (sort_desc_stable hit))
              [fusion_primary; fusion_secondary] 2%Z)
    as (by_id & s & M & P & SS & R & F); [all_entries|all_entries|].
  exists by_id, s. do 4 (split; [assumption|]). apply F. lia.
Defined.

(** C8 as stated fails: of three entries with the scores [1.0], NaN and
    [2.0] the result keeps the order, so the entry of score [2.0] comes
    after the entry of score [1.0]. *)
Lemma merge_leaves_nan_unsorted :
  ~ (forall (hit_groups : list (list hit)) (limit : Z),
       exists by_id s,
         merge_by_id hit_groups = Ok by_id /\
         Permutation s (dict_values by_id) /\
         StronglySorted score_ge s /\
         _merge_hits (@list_sort_small hit) hit_groups limit
         = Ok (slice_to s limit)).
Proof.
  intro H. destruct (H [nan_scores] 3%Z) as (by_id & s & M & P & SS & E).
  vm_compute in M. injection M as <-.
  assert (L : length s = 3) by (apply Permutation_length in P; exact P).
  assert (X : slice_to s 3 = s).
  { unfold slice_to. change (0 <=? 3)%Z with true. cbn iota.
    change (Z.to_nat 3) with 3. rewrite <- L. apply firstn_all. }
  rewrite X in E.
  assert (Y : _merge_hits (@list_sort_small hit) [nan_scores] 3
              = Ok nan_scores) by (vm_compute; reflexivity).
  rewrite Y in E. injection E as <-.
  unfold nan_scores in SS.
  apply StronglySorted_inv in SS. destruct SS as [_ F].
  apply Forall_inv_tail in F. apply Forall_inv in F.
  vm_compute in F. discriminate.
Qed.

Lemma merge_dedups_by_string_form_witness :
  NoDup (map key_of [seven_str]) /\
  exists out,
    _merge_hits (@sort_desc hit) [[seven_int]; [seven_str]] 4 = Ok out.
Proof.
  destruct (merge_dedups_by_string_form (@sort_desc hit)
                                        (sort_desc_stable hit))
    as (N & T & _).
  split.
  - apply (N [[seven_int]; [seven_str]] 4%Z). vm_compute. reflexivity.
  - apply (T [[seven_int]; [seven_str]] 4%Z). all_entries.
Defined.

(** C9.  Merging a sequence together with a second copy of itself yields
    what merging it alone yields, for every limit: the same result, or the
    same exception. *)
Theorem merge_idempotent
  (list_sort : list (float * hit) -> list (float * hit))
  (S : list hit) (limit : Z) :
  _merge_hits list_sort [S; S] limit = _merge_hits list_sort [S] limit.
Proof.
  destruct (Forall_or_Exists overflows S) as [R|X].
  - unfold _merge_hits, merge_by_id. simpl. rewrite !app_nil_r.
    rewrite merge_loop_app.
    destruct (merge_loop_spec S R) as (d & L & _ & _).
    rewrite L. cbn [bind]. rewrite (merge_loop_twice S d R L). reflexivity.
  - assert (N : forall l, ~ within_range (S ++ l)).
    { intros l F. apply within_range_app in F. destruct F as [F _].
      unfold within_range in F. rewrite Forall_forall in F.
      apply Exists_exists in X. destruct X as (h & I & O).
      rewrite (F h I) in O. discriminate. }
    rewrite !merge_hits_overflow; [reflexivity| |]; simpl; apply N.
Qed.

End FusionSpec.


(* ================================================================== *)
(** * Properties of the retrieval *)
(* ================================================================== *)

Module RetrieverSpec.
Import Py PyFacts Retriever.

(** ** [max] with a key and [np.argmax] *)

(** Over an ascending iterable, [max] returns an item whose key no item
    exceeds and no lower item reaches; the item is the first one, or its
    key exceeds the key of the first one. *)
Lemma max_by_from_spec (key : nat -> float) (l : list nat) (b : nat) :
  StronglySorted lt (b :: l) ->
  let r := max_by_from key b l in
  In r (b :: l) /\
  (r = b \/ float_gt (key r) (key b) = true) /\
  forall j, In j (b :: l) ->
    float_gt (key j) (key r) = false /\
    (j < r -> float_ge (key j) (key r) = false).
Proof.
  revert b. induction l as [|x tl IH]; intros b Srt; cbn zeta.
  - simpl. split; [auto|]. split; [auto|]. intros j [<-|[]].
    split; [apply float_gt_irrefl|lia].
  - apply StronglySorted_inv in Srt. destruct Srt as [Sx Fb].
    pose proof (Forall_inv Fb) as Hbx. apply Forall_inv_tail in Fb.
    simpl max_by_from. destruct (float_gt (key x) (key b)) eqn:E.
    + destruct (IH x Sx) as (I & B & M). cbn zeta in *.
      set (r := max_by_from key x tl) in *.
      assert (G : float_gt (key r) (key b) = true).
      { destruct B as [->|B]; [assumption|].
        apply float_gt_trans with (y := key x); assumption. }
      split; [right; exact I|]. split; [auto|].
      intros j [<-|Hj]; [|auto].
      split; [apply float_gt_asym; assumption|].
      intros _. apply float_gt_not_ge. assumption.
    + assert (Sb : StronglySorted lt (b :: tl)).
      { constructor; [|assumption].
        apply StronglySorted_inv in Sx. tauto. }
      destruct (IH b Sb) as (I & B & M). cbn zeta in *.
      set (r := max_by_from key b tl) in *.
      split; [destruct I as [<-|I]; simpl; auto|]. split; [assumption|].
      intros j [Hb|[Hx|Hj]].
      * apply M. left. assumption.
      * subst j. rename x into j. destruct B as [->|B].
        -- split; [assumption|lia].
        -- split.
           ++ destruct (float_gt (key j) (key r)) eqn:C; [|reflexivity].
              rewrite (float_gt_trans _ _ _ C B) in E. discriminate.
           ++ intros _.
              destruct (float_ge (key j) (key r)) eqn:C; [|reflexivity].
              rewrite (float_ge_gt_trans _ _ _ C B) in E. discriminate.
      * apply M. right. assumption.
Qed.

Lemma py_max_spec (key : nat -> float) (it : list nat) :
  StronglySorted lt it -> it <> [] ->
  exists i, py_max it key = Ok i /\ In i it /\
    forall j, In j it ->
      float_gt (key j) (key i) = false /\
      (j < i -> float_ge (key j) (key i) = false).
Proof.
  intros Srt N. destruct it as [|b l]; [contradiction|].
  eexists. split; [reflexivity|].
  destruct (max_by_from_spec key l b Srt) as (I & _ & M). auto.
Qed.

(** In whatever order the items come, [max] returns one whose key none
    exceeds. *)
Lemma max_by_from_max (key : nat -> float) (l : list nat) (b : nat) :
  let r := max_by_from key b l in
  In r (b :: l) /\
  (r = b \/ float_gt (key r) (key b) = true) /\
  forall j, In j (b :: l) -> float_gt (key j) (key r) = false.
Proof.
  revert b. induction l as [|x tl IH]; intro b; cbn zeta.
  - simpl. split; [auto|]. split; [auto|]. intros j [<-|[]].
    apply float_gt_irrefl.
  - simpl max_by_from. destruct (float_gt (key x) (key b)) eqn:E.
    + destruct (IH x) as (I & B & M). cbn zeta in *.
      set (r := max_by_from key x tl) in *.
      assert (G : float_gt (key r) (key b) = true).
      { destruct B as [->|B]; [assumption|].
        apply float_gt_trans with (y := key x); assumption. }
      split; [right; exact I|]. split; [auto|].
      intros j [<-|Hj]; [|auto]. apply float_gt_asym. assumption.
    + destruct (IH b) as (I & B & M). cbn zeta in *.
      set (r := max_by_from key b tl) in *.
      split; [destruct I as [<-|I]; simpl; auto|]. split; [assumption|].
      intros j [Hb|[Hx|Hj]].
      * apply M. left. assumption.
      * subst j. destruct B as [->|B]; [assumption|].
        destruct (float_gt (key x) (key r)) eqn:D; [|reflexivity].
        rewrite (float_gt_trans _ _ _ D B) in E. discriminate.
      * apply M. right. assumption.
Qed.

(** When no key is NaN and no other item has the key of the maximum, the
    order of the items does not matter. *)
Lemma py_max_perm (key : nat -> float) (l l' : list nat) (i : nat) :
  Permutation l' l -> py_max l key = Ok i ->
  (forall j, In j l -> is_nan (key j) = false) ->
  (forall j, In j l -> j <> i -> float_eq (key j) (key i) = false) ->
  py_max l' key = Ok i.
Proof.
  intros P E NN U.
  destruct l as [|b tl]; [discriminate|]. simpl in E. injection E as E.
  destruct (max_by_from_max key tl b) as (I & _ & M). cbn zeta in *.
  rewrite E in I, M.
  destruct l' as [|b' tl'];
    [apply Permutation_nil in P; discriminate|].
  simpl. f_equal.
  destruct (max_by_from_max key tl' b') as (I' & _ & M'). cbn zeta in *.
  set (r := max_by_from key b' tl') in *.
  apply (Permutation_in _ P) in I'.
  destruct (Nat.eq_dec r i) as [->|N]; [reflexivity|exfalso].
  pose proof (M r I') as A.
  pose proof (M' i (Permutation_in _ (Permutation_sym P) I)) as B.
  apply float_total in A; [|apply NN; assumption|apply NN; assumption].
  apply float_total in B; [|apply NN; assumption|apply NN; assumption].
  pose proof (float_ge_antisym _ _ B A) as Q.
  rewrite (U r I' N) in Q. discriminate.
Qed.

Lemma skipn_cons_nth {A : Type} (l : list A) (i : nat) (x d : A) (tl : list A) :
  skipn i l = x :: tl -> nth i l d = x /\ skipn (S i) l = tl.
Proof.
  revert i. induction l as [|y l IH]; intros [|i]; simpl; try discriminate.
  - intro H. inversion H. auto.
  - intro H. destruct (IH i H) as [-> <-]. split; [reflexivity|].
    destruct l; reflexivity.
Qed.

(** The scan of [np.argmax] from position [i], the best entry so far at
    [bi]: the result is an index whose entry no entry exceeds and no
    earlier entry reaches. *)
Lemma argmax_from_spec (L : list float) (l : list float) :
  forall i bi,
    skipn i L = l -> bi < i -> i + length l = length L ->
    (forall j, j < i ->
       float_gt (nth j L NaN) (nth bi L NaN) = false /\
       (j < bi -> float_ge (nth j L NaN) (nth bi L NaN) = false)) ->
    let r := argmax_from bi (nth bi L NaN) i l in
    r < length L /\
    forall j, j < length L ->
      float_gt (nth j L NaN) (nth r L NaN) = false /\
      (j < r -> float_ge (nth j L NaN) (nth r L NaN) = false).
Proof.
  induction l as [|x tl IH]; intros i bi Sk B Len Inv; cbn zeta.
  - simpl in Len. assert (i = length L) as -> by lia.
    assert (R : argmax_from bi (nth bi L NaN) (length L) [] = bi)
      by (simpl; destruct (is_nan (nth bi L NaN)); reflexivity).
    rewrite R. split; [assumption|]. exact Inv.
  - destruct (skipn_cons_nth L i x NaN tl Sk) as [Hx Htl].
    simpl in Len. cbn [argmax_from].
    destruct (is_nan (nth bi L NaN)) eqn:Nb.
    + split; [lia|]. intros j _.
      destruct (nth bi L NaN); try discriminate.
      split; [|intros _]; destruct (nth j L NaN) as [[]|[]| |[] ? ?];
        reflexivity.
    + destruct (float_ge (nth bi L NaN) x) eqn:C; cbn [negb].
      * apply (IH (S i) bi); [assumption|lia|lia|].
        intros j Hj. destruct (Nat.eq_dec j i) as [->|N].
        -- rewrite Hx. split; [apply float_ge_not_gt; assumption|lia].
        -- apply Inv. lia.
      * rewrite <- Hx. apply (IH (S i) i); [assumption|lia|lia|].
        rewrite Hx. intros j Hj.
        destruct (is_nan x) eqn:Nx.
        { destruct x; try discriminate.
          split; [|intros _]; destruct (nth j L NaN) as [[]|[]| |[] ? ?];
            reflexivity. }
        pose proof (float_total_strict _ _ Nb Nx C) as G.
        destruct (Nat.eq_dec j i) as [->|N].
        { rewrite Hx. split; [apply float_gt_irrefl|lia]. }
        destruct (Inv j) as [I1 _]; [lia|].
        assert (X : float_ge (nth j L NaN) x = false).
        { destruct (float_ge (nth j L NaN) x) eqn:D; [|reflexivity].
          rewrite (float_ge_gt_trans _ _ _ D G) in I1. discriminate. }
        split; [|intros _; exact X].
        destruct (float_gt (nth j L NaN) x) eqn:D; [|reflexivity].
        apply float_gt_ge in D. congruence.
Qed.

Lemma np_argmax_spec (L : list float) :
  L <> [] ->
  exists i, np_argmax L = Ok i /\ i < length L /\
    forall j, j < length L ->
      float_gt (nth j L NaN) (nth i L NaN) = false /\
      (j < i -> float_ge (nth j L NaN) (nth i L NaN) = false).
Proof.
  destruct L as [|x tl]; [contradiction|]. intros _.
  eexists. split; [reflexivity|].
  apply (argmax_from_spec (x :: tl) tl 1 0); [reflexivity|lia|simpl; lia|].
  intros j Hj. assert (j = 0) as -> by lia.
  split; [apply float_gt_irrefl|lia].
Qed.

(** ** Arrays *)

Lemma nth_map_lt {A B : Type} (f : A -> B) (l : list A) (d : A) (d' : B)
  (j : nat) :
  j < length l -> nth j (map f l) d' = f (nth j l d).
Proof.
  intro H. rewrite (nth_indep (map f l) d' (f d)).
  - apply map_nth.
  - rewrite length_map. assumption.
Qed.

Lemma zip_with_length {A B D : Type} (f : A -> B -> D) (u : list A)
  (v : list B) :
  length u = length v -> length (zip_with f u v) = length u.
Proof.
  revert v. induction u as [|x u IH]; intros [|y v]; simpl; try discriminate;
    auto.
Qed.

Lemma zip_with_nth {A B D : Type} (f : A -> B -> D) (u : list A) (v : list B)
  (du : A) (dv : B) (d : D) (j : nat) :
  length u = length v -> j < length u ->
  nth j (zip_with f u v) d = f (nth j u du) (nth j v dv).
Proof.
  revert v j. induction u as [|x u IH]; intros [|y v] j; simpl;
    try discriminate; try lia.
  intros E L. destruct j as [|j]; [reflexivity|].
  apply IH; [congruence|lia].
Qed.

(** The column maxima of rows of one length. *)
Lemma colmax_nth (tl : list vector) (r : vector) (m j : nat) :
  length r = m -> Forall (fun row => length row = m) tl -> j < m ->
  length (fold_left (zip_with np_maximum) tl r) = m /\
  nth j (fold_left (zip_with np_maximum) tl r) NaN =
  fold_left np_maximum (map (fun row => nth j row NaN) tl) (nth j r NaN).
Proof.
  revert r. induction tl as [|x tl IH]; intros r Hr F Hj; simpl; [auto|].
  inversion F as [|? ? Hx Ftl]; subst.
  destruct (IH (zip_with np_maximum r x)) as [L N]; auto.
  - apply zip_with_length. congruence.
  - split; [assumption|]. rewrite N.
    rewrite (zip_with_nth np_maximum r x NaN NaN NaN j); auto.
Qed.

(** [np.maximum] folded over a list returns one of its numbers. *)
Lemma np_max_list_In (xs : list float) (x : float) :
  In (np_max_list x xs) (x :: xs).
Proof.
  unfold np_max_list. revert x. induction xs as [|z xs IH]; intro x; simpl;
    [auto|].
  destruct (IH (np_maximum x z)) as [E|I]; [|auto].
  rewrite <- E. unfold np_maximum.
  destruct (float_ge x z || is_nan x); auto.
Qed.

(** [np.maximum] folded over a list returns a number that none of the list
    exceeds, and NaN when one of them is NaN. *)
Lemma np_max_list_max (xs : list float) (x : float) :
  (forall y, In y (x :: xs) -> float_gt y (np_max_list x xs) = false) /\
  (forall y, In y (x :: xs) -> is_nan y = true ->
             is_nan (np_max_list x xs) = true).
Proof.
  unfold np_max_list. revert x.
  induction xs as [|z xs IH]; intro x; cbn [fold_left].
  - split; intros y [<-|[]]; [apply float_gt_irrefl|auto].
  - destruct (IH (np_maximum x z)) as [M N].
    assert (K : forall y, y = x \/ y = z ->
                (is_nan y = true -> is_nan (np_maximum x z) = true) /\
                (is_nan (np_maximum x z) = false ->
                 float_ge (np_maximum x z) y = true)).
    { intros y Hy. unfold np_maximum.
      destruct (float_ge x z) eqn:G; cbn [orb].
      - destruct (float_ge_not_nan _ _ G) as [Nx Nz].
        split; [destruct Hy; subst y; congruence|].
        intros _. destruct Hy; subst y; [apply float_ge_refl|]; assumption.
      - destruct (is_nan x) eqn:Nx; cbn iota.
        + split; [intros _; exact Nx|congruence].
        + split; [destruct Hy; subst y; congruence|].
          intro Nz. destruct Hy; subst y.
          * apply float_gt_ge. apply float_total_strict; assumption.
          * apply float_ge_refl. assumption. }
    split.
    + intros y Hy.
      assert (Hy' : (y = x \/ y = z) \/ In y xs)
        by (destruct Hy as [<-|[<-|I]]; auto).
      destruct Hy' as [Hy'|I]; [|apply M; right; assumption].
      destruct (K y Hy') as [_ K2].
      destruct (is_nan (np_maximum x z)) eqn:Na.
      * pose proof (N _ (or_introl eq_refl) Na) as Nm.
        destruct (float_gt y (fold_left np_maximum xs (np_maximum x z)))
          eqn:G; [|reflexivity].
        apply float_gt_not_nan in G. destruct G as [_ G]. congruence.
      * destruct (float_gt y (fold_left np_maximum xs (np_maximum x z)))
          eqn:G; [|reflexivity].
        pose proof (float_ge_gt_trans _ _ _ (K2 eq_refl) G) as X.
        rewrite (M _ (or_introl eq_refl)) in X. discriminate.
    + intros y Hy Ny.
      assert (Hy' : (y = x \/ y = z) \/ In y xs)
        by (destruct Hy as [<-|[<-|I]]; auto).
      destruct Hy' as [Hy'|I]; [|apply (N y); [right; assumption|assumption]].
      apply (N (np_maximum x z)); [left; reflexivity|].
      apply (K y Hy'). assumption.
Qed.

(** ** The set [avail] *)

Lemma In_unselected (n : nat) (sel : list nat) (j : nat) :
  In j (unselected n sel) <-> j < n /\ ~ In j sel.
Proof.
  unfold unselected. rewrite filter_In, in_seq, negb_true_iff.
  split; intros [L H]; (split; [lia|]).
  - intro I. assert (X : existsb (Nat.eqb j) sel = true); [|congruence].
    apply existsb_exists. exists j. split; [assumption|apply Nat.eqb_refl].
  - destruct (existsb (Nat.eqb j) sel) eqn:X; [|reflexivity].
    apply existsb_exists in X. destruct X as (x & I & E).
    apply Nat.eqb_eq in E. subst. contradiction.
Qed.

Lemma seq_sorted (len start : nat) : StronglySorted lt (seq start len).
Proof.
  revert start. induction len as [|len IH]; intro start; simpl; constructor.
  - apply IH.
  - rewrite Forall_forall. intros x I. apply in_seq in I. lia.
Qed.

Lemma filter_sorted (f : nat -> bool) (l : list nat) :
  StronglySorted lt l -> StronglySorted lt (filter f l).
Proof.
  induction 1 as [|x l S IH F]; simpl; [constructor|].
  destruct (f x); [|assumption].
  constructor; [assumption|].
  rewrite Forall_forall in *. intros y I. apply filter_In in I. apply F, I.
Qed.

Lemma unselected_sorted (n : nat) (sel : list nat) :
  StronglySorted lt (unselected n sel).
Proof. apply filter_sorted, seq_sorted. Qed.

Lemma unselected_nil (n : nat) : unselected n [] = seq 0 n.
Proof. unfold unselected. simpl. apply filter_true. Qed.

Lemma filter_filter {A : Type} (f g : A -> bool) (l : list A) :
  filter f (filter g l) = filter (fun x => g x && f x) l.
Proof.
  induction l as [|x l IH]; simpl; [reflexivity|].
  destruct (g x); simpl; [destruct (f x)|]; rewrite IH; reflexivity.
Qed.

(** [avail.remove(i)] on the unselected candidates. *)
Lemma set_remove_unselected (n : nat) (sel : list nat) (i : nat) :
  In i (unselected n sel) ->
  set_remove i (unselected n sel) = Ok (unselected n (sel ++ [i])).
Proof.
  intro I. unfold set_remove.
  assert (X : existsb (Nat.eqb i) (unselected n sel) = true).
  { apply existsb_exists. exists i. split; [assumption|apply Nat.eqb_refl]. }
  rewrite X. f_equal. unfold unselected. rewrite filter_filter.
  apply filter_ext. intro j. rewrite existsb_app. simpl.
  rewrite orb_false_r, negb_orb. reflexivity.
Qed.

Lemma remove_one_length (l : list nat) (i : nat) :
  NoDup l -> In i l ->
  S (length (filter (fun j => negb (Nat.eqb j i)) l)) = length l.
Proof.
  induction 1 as [|x l N ND IH]; simpl; [tauto|].
  intros [->|I].
  - rewrite Nat.eqb_refl. simpl. f_equal.
    rewrite forallb_filter_id; [reflexivity|].
    apply forallb_forall. intros y Hy. apply negb_true_iff, Nat.eqb_neq.
    intros ->. contradiction.
  - destruct (Nat.eqb x i) eqn:E.
    + apply Nat.eqb_eq in E. subst. contradiction.
    + simpl. f_equal. auto.
Qed.

Lemma unselected_length_snoc (n : nat) (sel : list nat) (i : nat) :
  In i (unselected n sel) ->
  S (length (unselected n (sel ++ [i]))) = length (unselected n sel).
Proof.
  intro I. pose proof (set_remove_unselected n sel i I) as R.
  unfold set_remove in R.
  destruct (existsb (Nat.eqb i) (unselected n sel)); [|discriminate].
  injection R as E. rewrite <- E.
  apply remove_one_length; [|assumption].
  apply NoDup_filter, seq_NoDup.
Qed.

(** ** One round of the selection loop *)

Section Rounds.
Variable dot : vector -> vector -> float.
Variables (q : vector) (C : ndarray2) (lam : float).

Local Abbreviation n := (nrows C).
Local Abbreviation rel := (map (fun r => dot r q) (rows C)).

Lemma getitem_row (i : nat) : i < n -> getitem (rows C) i = Ok (row C i).
Proof.
  intro H. unfold getitem, row.
  rewrite (nth_error_nth' (rows C) [] H). reflexivity.
Qed.

(** Entry [j] of [C @ q]. *)
Lemma matvec_nth (j : nat) : j < n -> nth j rel NaN = spec_rel dot q C j.
Proof.
  intro H. unfold spec_rel, row.
  apply (nth_map_lt (fun r => dot r q) (rows C) [] NaN j H).
Qed.

(** From the second round on: the arrays of the round exist, and entry
    [j] of [mmr] is the score the specification gives candidate [j]. *)
Lemma round_scores (s : nat) (sel' : list nat) :
  Forall (fun i => i < n) (s :: sel') ->
  exists md,
    mapM (getitem (rows C)) (s :: sel') = Ok (map (row C) (s :: sel')) /\
    max_axis0 (matmul_T dot (map (row C) (s :: sel')) C) = Ok md /\
    forall j, j < n ->
      nth j (mmr_scores lam rel md) NaN = spec_score dot q C lam (s :: sel') j.
Proof.
  intro F.
  pose (r := map (fun c => dot (row C s) c) (rows C)).
  pose (tl := map (fun s0 => map (fun c => dot s0 c) (rows C))
                  (map (row C) sel')).
  exists (fold_left (zip_with np_maximum) tl r).
  split; [|split; [reflexivity|]].
  - apply mapM_total. intros x I. apply getitem_row.
    rewrite Forall_forall in F. auto.
  - intros j Hj.
    destruct (colmax_nth tl r n j) as [L N]; auto.
    { unfold r. rewrite length_map. reflexivity. }
    { unfold tl. rewrite Forall_forall. intros x I.
      apply in_map_iff in I. destruct I as (y & <- & _).
      rewrite length_map. reflexivity. }
    unfold mmr_scores, np_subtract, np_scale.
    rewrite (zip_with_nth f32_sub _ _ NaN NaN NaN j);
      [|rewrite !length_map; symmetry; exact L | rewrite !length_map; exact Hj].
    rewrite (nth_map_lt _ rel NaN NaN j) by (rewrite length_map; exact Hj).
    rewrite (nth_map_lt _ _ NaN NaN j) by (rewrite L; exact Hj).
    rewrite (matvec_nth j Hj), N.
    unfold spec_score, spec_diversity_penalty, np_max_list. do 2 f_equal.
    unfold tl, r. rewrite !map_map.
    rewrite (nth_map_lt _ (rows C) [] NaN j Hj). f_equal.
    apply map_ext. intro a.
    apply (nth_map_lt _ (rows C) [] NaN j Hj).
Qed.

(** A round picks an unselected candidate whose score no unselected
    candidate exceeds and no lower unselected candidate reaches, and hands
    the rest to the next round. *)
Lemma mmr_round (sel : list nat) :
  Forall (fun i => i < n) sel -> unselected n sel <> [] ->
  exists i,
    In i (unselected n sel) /\
    (forall j, In j (unselected n sel) ->
       float_gt (spec_score dot q C lam sel j) (spec_score dot q C lam sel i)
       = false /\
       (j < i ->
        float_ge (spec_score dot q C lam sel j) (spec_score dot q C lam sel i)
        = false))
    /\
    (forall k,
       mmr_loop dot (S k) C lam rel sel (unselected n sel) =
       mmr_loop dot k C lam rel (sel ++ [i]) (unselected n (sel ++ [i])))
    /\
    forall set_iter k,
      (forall s, Permutation (set_iter s) s) ->
      sel = [] \/ untied dot q C lam sel ->
      mmr_loop_iter dot set_iter (S k) C lam rel sel (unselected n sel) =
      mmr_loop_iter dot set_iter k C lam rel (sel ++ [i])
                    (unselected n (sel ++ [i])).
Proof.
  intros F NE. destruct sel as [|s sel'].
  - destruct (np_argmax_spec rel) as (i & E & Li & M).
    { intro X. apply NE. rewrite unselected_nil.
      apply (f_equal (@length _)) in X. rewrite length_map in X.
      unfold nrows. rewrite X. reflexivity. }
    rewrite length_map in Li, M.
    assert (I : In i (unselected n [])).
    { apply In_unselected. split; [exact Li|tauto]. }
    exists i. split; [assumption|]. split.
    + intros j Hj. apply In_unselected in Hj. destruct Hj as [Lj _].
      destruct (M j Lj) as [M1 M2].
      rewrite (matvec_nth j Lj), (matvec_nth i Li) in M1, M2.
      simpl. auto.
    + assert (R : set_remove i (unselected n [])
                  = Ok (unselected n ([] ++ [i])))
        by (apply set_remove_unselected; assumption).
      split; [intro k|intros set_iter k _ _]; cbn [mmr_loop mmr_loop_iter];
        rewrite E; cbn [bind]; rewrite R; reflexivity.
  - destruct (round_scores s sel' F) as (md & E1 & E2 & K).
    destruct (py_max_spec (fun j => nth j (mmr_scores lam rel md) NaN)
                          (unselected n (s :: sel')))
      as (i & E & I & M); [apply unselected_sorted | assumption |].
    exists i. split; [assumption|]. split.
    + intros j Hj. destruct (M j Hj) as [M1 M2].
      pose proof (proj1 (proj1 (In_unselected _ _ _) Hj)) as Lj.
      pose proof (proj1 (proj1 (In_unselected _ _ _) I)) as Li.
      rewrite (K j Lj), (K i Li) in M1, M2. auto.
    + pose proof (set_remove_unselected n (s :: sel') i I) as R.
      pose proof (proj1 (proj1 (In_unselected _ _ _) I)) as Li.
      pose proof (proj2 (proj1 (In_unselected _ _ _) I)) as Ni.
      split.
      * intro k.
        cbn [mmr_loop]. rewrite E1. cbn [bind]. rewrite E2. cbn [bind].
        rewrite E. cbn [bind]. rewrite R. reflexivity.
      * intros set_iter k P [X|U]; [discriminate|].
        cbn [mmr_loop_iter]. rewrite E1. cbn [bind]. rewrite E2. cbn [bind].
        rewrite (py_max_perm _ (unselected n (s :: sel')) _ i (P _) E).
        -- cbn [bind]. rewrite R. reflexivity.
        -- intros j Hj. apply In_unselected in Hj. destruct Hj as [Lj Nj].
           rewrite (K j Lj). apply (U j Lj Nj).
        -- intros j Hj N. apply In_unselected in Hj. destruct Hj as [Lj Nj].
           rewrite (K j Lj), (K i Li). apply (U i Li Ni); assumption.
Qed.

Lemma greedy_selection_snoc (sel : list nat) (i : nat) :
  greedy_selection dot q C lam sel -> greedy_pick dot q C lam sel i ->
  greedy_selection dot q C lam (sel ++ [i]).
Proof.
  intros G P t x H. destruct (Nat.lt_ge_cases t (length sel)) as [L|L].
  - rewrite nth_error_app1 in H by assumption.
    rewrite firstn_app.
    replace (t - length sel) with 0 by lia. simpl. rewrite app_nil_r.
    apply G. assumption.
  - rewrite nth_error_app2 in H by assumption.
    destruct (t - length sel) as [|m] eqn:D; simpl in H.
    + injection H as <-. assert (t = length sel) as -> by lia.
      rewrite firstn_app, firstn_all, Nat.sub_diag. simpl.
      rewrite app_nil_r. assumption.
    + destruct m; discriminate.
Qed.

(** [k] rounds from a state the loop can be in. *)
Lemma mmr_loop_spec (k : nat) :
  forall sel,
    NoDup sel -> Forall (fun i => i < n) sel ->
    greedy_selection dot q C lam sel ->
    length (unselected n sel) + length sel = n ->
    k + length sel <= n ->
    exists out,
      mmr_loop dot k C lam rel sel (unselected n sel) = Ok out /\
      length out = length sel + k /\ NoDup out /\
      Forall (fun i => i < n) out /\ greedy_selection dot q C lam out /\
      firstn (length sel) out = sel /\
      forall set_iter,
        (forall s, Permutation (set_iter s) s) ->
        (forall t, length sel <= t < length out -> 0 < t ->
                   untied dot q C lam (firstn t out)) ->
        mmr_loop_iter dot set_iter k C lam rel sel (unselected n sel) = Ok out.
Proof.
  induction k as [|k IH]; intros sel ND F G Len B.
  - exists sel. simpl. rewrite Nat.add_0_r, firstn_all. auto 10.
  - destruct (mmr_round sel F) as (i & I & M & Step & StepI).
    { intro E. rewrite E in Len. simpl in Len. lia. }
    pose proof (proj1 (In_unselected _ _ _) I) as [Li Ni].
    destruct (IH (sel ++ [i])) as (out & R & L & ND' & F' & G' & P & It).
    + apply NoDup_app; auto.
      * constructor; [simpl; tauto | constructor].
      * intros a Ha [<-|[]]. contradiction.
    + apply Forall_app. auto.
    + apply greedy_selection_snoc; [assumption|].
      split; [assumption|]. split; [assumption|].
      intros j Lj Nj. apply M. apply In_unselected. auto.
    + pose proof (unselected_length_snoc n sel i I).
      rewrite length_app. simpl. lia.
    + rewrite length_app. simpl. lia.
    + exists out. rewrite Step. rewrite length_app in L. simpl in L.
      split; [assumption|]. split; [lia|]. do 3 (split; [assumption|]).
      assert (Q : firstn (length sel) out = sel).
      { assert (X : firstn (length sel) (firstn (length (sel ++ [i])) out)
                    = firstn (length sel) out).
        { rewrite firstn_firstn. f_equal. rewrite length_app. simpl. lia. }
        rewrite <- X, P, firstn_app, firstn_all, Nat.sub_diag. simpl.
        apply app_nil_r. }
      split; [exact Q|].
      intros set_iter Pm U. rewrite (StepI set_iter k Pm).
      * apply (It set_iter Pm). intros t Ht. apply U.
        rewrite length_app in Ht. simpl in Ht. lia.
      * destruct sel as [|s0 sel0]; [left; reflexivity|right].
        rewrite <- Q. apply U; simpl in L |- *; lia.
Qed.

(** More rounds go on from where fewer rounds stop. *)
Lemma mmr_loop_more (k m : nat) :
  forall sel,
    NoDup sel -> Forall (fun i => i < n) sel ->
    greedy_selection dot q C lam sel ->
    length (unselected n sel) + length sel = n ->
    k + m + length sel <= n ->
    exists out out',
      mmr_loop dot k C lam rel sel (unselected n sel) = Ok out /\
      mmr_loop dot (k + m) C lam rel sel (unselected n sel) = Ok out' /\
      firstn (length out) out' = out.
Proof.
  induction k as [|k IH]; intros sel ND F G Len B.
  - destruct (mmr_loop_spec m sel ND F G Len) as (out' & R & _ & _ & _ & _ & P & _);
      [lia|].
    exists sel, out'. simpl. auto.
  - destruct (mmr_round sel F) as (i & I & M & Step & _).
    { intro E. rewrite E in Len. simpl in Len. lia. }
    pose proof (proj1 (In_unselected _ _ _) I) as [Li Ni].
    destruct (IH (sel ++ [i])) as (out & out' & R & R' & P).
    + apply NoDup_app; auto.
      * constructor; [simpl; tauto | constructor].
      * intros a Ha [<-|[]]. contradiction.
    + apply Forall_app. auto.
    + apply greedy_selection_snoc; [assumption|].
      split; [assumption|]. split; [assumption|].
      intros j Lj Nj. apply M. apply In_unselected. auto.
    + pose proof (unselected_length_snoc n sel i I).
      rewrite length_app. simpl. lia.
    + rewrite length_app. simpl. lia.
    + exists out, out'. change (S k + m) with (S (k + m)).
      rewrite !Step. auto.
Qed.

(** [_mmr] returns; its result has the length the loop runs for, holds
    distinct row indices and is greedy at every position. *)
Lemma mmr_spec (k : Z) :
  length q = ncols C ->
  exists sel,
    _mmr dot q C k lam = Ok sel /\
    length sel = Z.to_nat (Z.min k (Z.of_nat n)) /\
    NoDup sel /\ Forall (fun i => i < n) sel /\
    greedy_selection dot q C lam sel /\
    forall set_iter,
      (forall s, Permutation (set_iter s) s) ->
      (forall t, 0 < t < length sel -> untied dot q C lam (firstn t sel)) ->
      _mmr_iter dot set_iter q C k lam = Ok sel.
Proof.
  intro D. unfold _mmr, _mmr_iter, matvec. rewrite D, Nat.eqb_refl.
  cbn [bind]. unfold set_range. rewrite <- unselected_nil.
  destruct (mmr_loop_spec (Z.to_nat (Z.min k (Z.of_nat n))) [])
    as (out & R & L & ND & F & G & _ & It).
  - constructor.
  - constructor.
  - intros t i H. destruct t; discriminate.
  - rewrite unselected_nil, length_seq. simpl. lia.
  - simpl. lia.
  - exists out. simpl in L. do 5 (split; [assumption|]).
    intros set_iter P U. apply (It set_iter P). intros t Ht Pt.
    apply U. simpl in Ht. lia.
Qed.
End Rounds.

(** ** Consequences of the greedy rule *)

Lemma firstn_snoc_nth {A : Type} (l : list A) (t : nat) (x : A) :
  nth_error l t = Some x -> firstn (S t) l = firstn t l ++ [x].
Proof.
  revert t. induction l as [|y l IH]; intros [|t]; simpl; try discriminate.
  - intro H. injection H as ->. reflexivity.
  - intro H. f_equal. apply IH. assumption.
Qed.

(** When no score is NaN the greedy rule leaves no choice: two selections
    of one length that obey it at every position are equal. *)
Lemma greedy_selection_unique (dot : vector -> vector -> float) (q : vector)
  (C : ndarray2) (lam : float) (sel sel' : list nat) :
  (forall t j, t < length sel -> j < nrows C ->
     is_nan (spec_score dot q C lam (firstn t sel) j) = false) ->
  greedy_selection dot q C lam sel -> greedy_selection dot q C lam sel' ->
  length sel' = length sel -> sel' = sel.
Proof.
  intros NN G G' L.
  assert (P : forall t, t <= length sel -> firstn t sel' = firstn t sel).
  { induction t as [|t IH]; intro B; [reflexivity|].
    destruct (nth_error sel t) as [i|] eqn:E;
      [|apply nth_error_None in E; lia].
    destruct (nth_error sel' t) as [i'|] eqn:E';
      [|apply nth_error_None in E'; lia].
    rewrite (firstn_snoc_nth sel t i E), (firstn_snoc_nth sel' t i' E').
    rewrite IH by lia. f_equal. f_equal.
    destruct (G t i E) as (Li & Ni & Mi).
    destruct (G' t i' E') as (Li' & Ni' & Mi').
    rewrite IH in Ni', Mi' by lia.
    destruct (Mi i' Li' Ni') as [A1 A2].
    destruct (Mi' i Li Ni) as [B1 B2].
    pose proof (NN t i B Li) as Ns. pose proof (NN t i' B Li') as Ns'.
    destruct (Nat.lt_trichotomy i' i) as [Lt|[Eq|Gt]]; [|assumption|].
    - specialize (A2 Lt). apply float_total_strict in A2; [|assumption..].
      congruence.
    - specialize (B2 Gt). apply float_total_strict in B2; [|assumption..].
      congruence. }
  rewrite <- (firstn_all sel), <- (firstn_all sel'), L. apply P. lia.
Qed.

Lemma NoDup_later_not_before {A : Type} (l : list A) (a b : nat) (x : A) :
  NoDup l -> nth_error l b = Some x -> a <= b -> ~ In x (firstn a l).
Proof.
  intros ND H L I. apply In_nth_error in I. destruct I as (c & Hc).
  rewrite nth_error_firstn in Hc.
  destruct (Nat.ltb c a) eqn:E; [|discriminate].
  apply Nat.ltb_lt in E.
  assert (c = b); [|lia].
  apply (proj1 (NoDup_nth_error l) ND).
  - apply nth_error_Some. congruence.
  - congruence.
Qed.

(** ** The scores for [lam = 1] and [lam = 0] *)

Lemma lambda_one : to_float32 (float_sub one one) = zero.
Proof. vm_compute. reflexivity. Qed.

Lemma lambda_zero :
  to_float32 zero = zero /\
  to_float32 (float_sub one zero) = to_float32 one.
Proof. split; vm_compute; reflexivity. Qed.

Section Penalty.
Variable dot : vector -> vector -> float.
Variables (q : vector) (C : ndarray2).

(** The penalty of a candidate is its inner product with one of the
    selected rows. *)
Lemma penalty_is_product (s : nat) (sel' : list nat) (j : nat) :
  exists s', In s' (s :: sel') /\
    spec_diversity_penalty dot C (s :: sel') j = dot (row C s') (row C j).
Proof.
  unfold spec_diversity_penalty.
  destruct (np_max_list_In (map (fun s' => dot (row C s') (row C j)) sel')
                           (dot (row C s) (row C j))) as [E|I].
  - exists s. split; [left; reflexivity|symmetry; exact E].
  - apply in_map_iff in I. destruct I as (s' & E & I).
    exists s'. split; [right; exact I|symmetry; exact E].
Qed.

(** The penalty is the maximum of the inner products with the selected
    rows. *)
Lemma penalty_is_max (prev : list nat) (j : nat) :
  prev <> [] -> max_product dot C prev j (spec_diversity_penalty dot C prev j).
Proof.
  destruct prev as [|s sel']; [contradiction|]. intros _.
  split; [apply penalty_is_product|].
  destruct (np_max_list_max (map (fun s' => dot (row C s') (row C j)) sel')
                            (dot (row C s) (row C j))) as [M N].
  assert (I : forall s0, In s0 (s :: sel') ->
                In (dot (row C s0) (row C j))
                   (dot (row C s) (row C j)
                    :: map (fun s' => dot (row C s') (row C j)) sel')).
  { intros s0 [<-|I]; [left; reflexivity|right].
    apply (in_map (fun s' => dot (row C s') (row C j))). exact I. }
  unfold spec_diversity_penalty. split.
  - intros s0 I0. apply M, I, I0.
  - intros s0 I0. apply N, I, I0.
Qed.

(** With [lam = 1] the score of every round compares like the relevance,
    as long as the relevance is a [float32] and the penalty is finite. *)
Lemma spec_score_lambda_one (prev : list nat) (j : nat) :
  Forall (fun i => i < nrows C) prev ->
  j < nrows C ->
  is_float32 (spec_rel dot q C j) = true ->
  (forall s, s < nrows C -> is_finite (dot (row C s) (row C j)) = true) ->
  same_value (spec_score dot q C one prev j) (spec_rel dot q C j).
Proof.
  intros F Lj V Fin. destruct prev as [|s sel']; [apply same_value_refl|].
  unfold spec_score.
  rewrite lambda_one, (f32_mul_one _ V).
  destruct (penalty_is_product s sel' j) as (s' & I & ->).
  rewrite Forall_forall in F.
  destruct (f32_mul_zero _ (Fin s' (F s' I))) as (z & ->).
  apply f32_sub_zero.
Qed.

(** With [lam = 0] it compares like the negated penalty, as long as the
    relevance is finite and the penalty is a [float32]. *)
Lemma spec_score_lambda_zero (s : nat) (sel' : list nat) (j : nat) :
  Forall (fun i => i < nrows C) (s :: sel') ->
  j < nrows C ->
  is_finite (spec_rel dot q C j) = true ->
  (forall s, s < nrows C -> is_float32 (dot (row C s) (row C j)) = true) ->
  same_value (spec_score dot q C zero (s :: sel') j)
             (f32_neg (spec_diversity_penalty dot C (s :: sel') j)).
Proof.
  intros F Lj Fin V.
  unfold spec_score.
  destruct lambda_zero as [-> ->].
  destruct (f32_mul_zero _ Fin) as (z & ->).
  destruct (penalty_is_product s sel' j) as (s' & I & E).
  rewrite Forall_forall in F.
  rewrite f32_mul_one by (rewrite E; apply V; apply F; assumption).
  apply f32_zero_sub.
Qed.
End Penalty.

(** A hypothesis about every row index of a given array. *)
Ltac every_row :=
  let j := fresh "j" in
  let H := fresh "H" in
  intros j H; unfold nrows in H; cbn [rows length] in H;
  repeat (destruct j as [|j];
          [vm_compute; reflexivity|apply PeanoNat.lt_S_n in H]);
  inversion H.

Ltac every_pair :=
  let s := fresh "s" in
  let H := fresh "H" in
  intros s H; unfold nrows in H; cbn [rows length] in H;
  repeat (destruct s as [|s]; [every_row|apply PeanoNat.lt_S_n in H]);
  inversion H.

(** ** The claims about [_mmr] *)

(** C1.  For a query vector of the matrix's row length and [k >= 1],
    [_mmr] returns [min(k, n)] indices.  The first is an index [i] whose
    relevance [rel[i] = dot(C[i], q)] no index exceeds and no lower index
    reaches.  The element at every position is an unselected row index
    whose score in its round ([rel[j]] in the first round,
    [lam * rel[j] - (1 - lam) * max over selected s of dot(C[s], C[j])]
    afterwards, in [float32]) no unselected index exceeds and no lower
    unselected index reaches: it maximizes the score, and of the indices
    that tie it is the lowest.  The maximum over the selected [s] is one of
    the inner products, exceeded by none of them, and NaN when one of them
    is NaN.  When no score is NaN these rules fix the
    selection: any list of the same length that obeys them is the one
    returned.  The set of unselected indices is iterated in ascending
    order; a set iterated in any other order gives the same selection
    unless, in some round after the first, a score is NaN or two
    unselected candidates have the same score. *)
Theorem mmr_greedy_lowest_index (dot : vector -> vector -> float)
  (q : vector) (C : ndarray2) (k : Z) (lam : float) :
  length q = ncols C -> (1 <= k)%Z ->
  exists sel,
    _mmr dot q C k lam = Ok sel /\
    length sel = Z.to_nat (Z.min k (Z.of_nat (nrows C))) /\
    (0 < nrows C ->
     exists i0, nth_error sel 0 = Some i0 /\
       forall j, j < nrows C ->
         float_gt (spec_rel dot q C j) (spec_rel dot q C i0) = false /\
         (j < i0 ->
          float_ge (spec_rel dot q C j) (spec_rel dot q C i0) = false)) /\
    (forall t i, nth_error sel t = Some i ->
       i < nrows C /\ ~ In i (firstn t sel) /\
       forall j, j < nrows C -> ~ In j (firstn t sel) ->
         float_gt (spec_score dot q C lam (firstn t sel) j)
                  (spec_score dot q C lam (firstn t sel) i) = false /\
         (j < i ->
          float_ge (spec_score dot q C lam (firstn t sel) j)
                   (spec_score dot q C lam (firstn t sel) i) = false)) /\
    ((forall t j, t < length sel -> j < nrows C ->
        is_nan (spec_score dot q C lam (firstn t sel) j) = false) ->
     forall sel', length sel' = length sel ->
                  greedy_selection dot q C lam sel' -> sel' = sel) /\
    (forall prev j, prev <> [] ->
       max_product dot C prev j (spec_diversity_penalty dot C prev j)) /\
    (forall set_iter,
       (forall s, Permutation (set_iter s) s) ->
       (forall t, 0 < t < length sel ->
                  untied dot q C lam (firstn t sel)) ->
       _mmr_iter dot set_iter q C k lam = Ok sel).
Proof.
  intros D K.
  destruct (mmr_spec dot q C lam k D) as (sel & R & L & ND & F & G & It).
  exists sel. split; [assumption|]. split; [assumption|].
  split; [|split; [|split; [|split]]].
  - intro N. destruct sel as [|i0 tl]; [simpl in L; lia|].
    exists i0. split; [reflexivity|].
    destruct (G 0 i0 eq_refl) as (_ & _ & M). simpl in M.
    intros j Lj. apply M; auto.
  - exact G.
  - intros NN sel' L' G'.
    apply (greedy_selection_unique dot q C lam); assumption.
  - intros prev j. apply penalty_is_max.
  - exact It.
Qed.

Lemma mmr_greedy_lowest_index_witness :
  exists sel,
    _mmr dot_in_order scenario_q tied_C 2 lam_04 = Ok sel /\
    length sel = Z.to_nat (Z.min 2 (Z.of_nat (nrows tied_C))) /\
    forall t i, nth_error sel t = Some i ->
      i < nrows tied_C /\ ~ In i (firstn t sel) /\
      forall j, j < nrows tied_C -> ~ In j (firstn t sel) ->
        float_gt (spec_score dot_in_order scenario_q tied_C lam_04
                             (firstn t sel) j)
                 (spec_score dot_in_order scenario_q tied_C lam_04
                             (firstn t sel) i) = false /\
        (j < i ->
         float_ge (spec_score dot_in_order scenario_q tied_C lam_04
                              (firstn t sel) j)
                  (spec_score dot_in_order scenario_q tied_C lam_04
                              (firstn t sel) i) = false).
Proof.
  destruct (mmr_greedy_lowest_index dot_in_order scenario_q tied_C 2%Z lam_04)
    as (sel & R & L & _ & G & _); [reflexivity|lia|].
  exists sel. auto.
Defined.

(** C5.  For a query vector of the matrix's row length, every [k] and
    every [lam], [_mmr] returns [min(k, n)] indices (none when [k] is
    negative), each below [n], none twice; for [k >= n] they are all the
    [n] indices, each once, and for [n = 0] there is none. *)
Theorem mmr_distinct_indices (dot : vector -> vector -> float)
  (q : vector) (C : ndarray2) (k : Z) (lam : float) :
  length q = ncols C ->
  exists sel,
    _mmr dot q C k lam = Ok sel /\
    Z.of_nat (length sel) = Z.max 0 (Z.min k (Z.of_nat (nrows C))) /\
    Forall (fun i => i < nrows C) sel /\
    NoDup sel /\
    ((Z.of_nat (nrows C) <= k)%Z -> Permutation sel (seq 0 (nrows C))) /\
    (nrows C = 0 -> sel = []).
Proof.
  intro D.
  destruct (mmr_spec dot q C lam k D) as (sel & R & L & ND & F & G & _).
  exists sel. split; [assumption|]. split; [lia|]. split; [assumption|].
  split; [assumption|]. split.
  - intro K. apply NoDup_Permutation_bis; [assumption| |].
    + rewrite length_seq. lia.
    + intros i I. apply in_seq. rewrite Forall_forall in F.
      specialize (F i I). lia.
  - intro N. destruct sel; [reflexivity|]. simpl in L. lia.
Qed.

Lemma mmr_distinct_indices_witness :
  exists sel,
    _mmr dot_in_order scenario_q scenario_C 5 lam_04 = Ok sel /\
    Z.of_nat (length sel)
    = Z.max 0 (Z.min 5 (Z.of_nat (nrows scenario_C))) /\
    Forall (fun i => i < nrows scenario_C) sel /\
    NoDup sel /\
    ((Z.of_nat (nrows scenario_C) <= 5)%Z ->
     Permutation sel (seq 0 (nrows scenario_C))) /\
    (nrows scenario_C = 0 -> sel = []).
Proof.
  apply (mmr_distinct_indices dot_in_order scenario_q scenario_C 5%Z lam_04).
  reflexivity.
Defined.

(** C6, as the code has it.  When the relevances are [float32] numbers and
    the inner products of the rows with one another are finite, [_mmr]
    with [lam = 1] returns [min(k, n)] indices in the order of the
    relevance ranking: an element is followed, and the indices left out
    are preceded, only by indices of no higher relevance, and of a lower
    one when their index is lower. *)
Theorem mmr_lambda_one_ranks_by_relevance (dot : vector -> vector -> float)
  (q : vector) (C : ndarray2) (k : Z) :
  length q = ncols C ->
  (forall j, j < nrows C -> is_float32 (spec_rel dot q C j) = true) ->
  (forall s, s < nrows C -> forall j, j < nrows C ->
             is_finite (dot (row C s) (row C j)) = true) ->
  exists sel,
    _mmr dot q C k one = Ok sel /\
    Z.of_nat (length sel) = Z.max 0 (Z.min k (Z.of_nat (nrows C))) /\
    (forall a b ia ib,
       a < b -> nth_error sel a = Some ia -> nth_error sel b = Some ib ->
       ranks_before dot q C ia ib) /\
    (forall i j,
       In i sel -> j < nrows C -> ~ In j sel -> ranks_before dot q C i j).
Proof.
  intros D V Fin.
  destruct (mmr_spec dot q C one k D) as (sel & R & L & ND & F & G & _).
  assert (Sc : forall t j, j < nrows C ->
                 same_value (spec_score dot q C one (firstn t sel) j)
                            (spec_rel dot q C j)).
  { intros t j Lj. apply spec_score_lambda_one; auto.
    rewrite Forall_forall in *. intros i I. apply F.
    eapply In_firstn. eassumption. }
  assert (Rk : forall a ia j,
             nth_error sel a = Some ia -> j < nrows C ->
             ~ In j (firstn a sel) -> ranks_before dot q C ia j).
  { intros a ia j Ha Lj Nj.
    destruct (G a ia Ha) as (Li & _ & M).
    destruct (M j Lj Nj) as [M1 M2].
    rewrite (same_value_gt _ _ _ _ (Sc a j Lj) (Sc a ia Li)) in M1.
    rewrite (same_value_ge _ _ _ _ (Sc a j Lj) (Sc a ia Li)) in M2.
    split; assumption. }
  exists sel. split; [assumption|]. split; [lia|]. split.
  - intros a b ia ib Lab Ha Hb. apply (Rk a ia ib Ha).
    + rewrite Forall_forall in F. apply F. eapply nth_error_In. eassumption.
    + apply (NoDup_later_not_before sel a b ib ND Hb). lia.
  - intros i j I Lj Nj. apply In_nth_error in I. destruct I as (a & Ha).
    apply (Rk a i j Ha Lj). intro X. apply Nj. eapply In_firstn. eassumption.
Qed.

Lemma mmr_lambda_one_ranks_by_relevance_witness :
  exists sel,
    _mmr dot_in_order scenario_q tied_C 2 one = Ok sel /\
    Z.of_nat (length sel) = Z.max 0 (Z.min 2 (Z.of_nat (nrows tied_C))) /\
    (forall a b ia ib,
       a < b -> nth_error sel a = Some ia -> nth_error sel b = Some ib ->
       ranks_before dot_in_order scenario_q tied_C ia ib) /\
    (forall i j,
       In i sel -> j < nrows tied_C -> ~ In j sel ->
       ranks_before dot_in_order scenario_q tied_C i j).
Proof.
  apply (mmr_lambda_one_ranks_by_relevance dot_in_order scenario_q tied_C 2%Z).
  - reflexivity.
  - every_row.
  - every_pair.
Defined.

(** C6 as stated fails: the inner products of the rows of [far_C] with one
    another overflow to [inf], the scores [1 * rel - 0 * inf] of the second
    round are NaN, and index 0 (relevance 0) is picked before index 2
    (relevance 1). *)
Lemma mmr_lambda_one_overflow :
  ~ (forall (q : vector) (C : ndarray2) (k : Z),
       length q = ncols C ->
       exists sel,
         _mmr dot_in_order q C k one = Ok sel /\
         forall a b ia ib,
           a < b -> nth_error sel a = Some ia -> nth_error sel b = Some ib ->
           ranks_before dot_in_order q C ia ib).
Proof.
  intro H. destruct (H axis_q far_C 3%Z eq_refl) as (sel & R & Rk).
  assert (E : _mmr dot_in_order axis_q far_C 3 one = Ok [1; 0; 2])
    by (vm_compute; reflexivity).
  rewrite E in R. injection R as <-.
  destruct (Rk 1 2 0 2) as [X _]; [lia|reflexivity|reflexivity|].
  vm_compute in X. discriminate.
Qed.

(** The end-to-end scenario of the specification: index 2 is preferred to
    index 1 in the second round. *)
Example mmr_scenario :
  _mmr dot_in_order scenario_q scenario_C 2 lam_04 = Ok [0; 2].
Proof. vm_compute. reflexivity. Qed.

(** Rows 1 and 2 are equal: the tie goes to index 1, in the first round and
    in a later one. *)
Example mmr_tie_first_round :
  _mmr dot_in_order scenario_q tied_C 1 lam_04 = Ok [1].
Proof. vm_compute. reflexivity. Qed.

Example mmr_tie_later_round :
  _mmr dot_in_order axis_q tied_C 3 lam_04 = Ok [0; 1; 2].
Proof. vm_compute. reflexivity. Qed.

(** The relevances [2**24] and [2**24 + 1] are the same [float32]: the
    rows tie and the first is picked. *)
Example mmr_tie_by_rounding :
  map (fun r => dot_in_order r ones_q) (rows rounded_C) = [f2_24; f2_24] /\
  _mmr dot_in_order ones_q rounded_C 1 lam_04 = Ok [0].
Proof. split; vm_compute; reflexivity. Qed.

(** A set iterated in descending order gives the tie of rows 1 and 2 to
    index 2. *)
Example mmr_tie_other_iteration :
  _mmr_iter dot_in_order (@rev nat) axis_q tied_C 3 lam_04 = Ok [0; 2; 1].
Proof. vm_compute. reflexivity. Qed.

(** ** [search_hybrid] *)

Lemma mapM_Forall2 {A B : Type} (f : A -> result B) (l : list A)
  (ys : list B) :
  mapM f l = Ok ys -> Forall2 (fun x y => f x = Ok y) l ys.
Proof.
  revert ys. induction l as [|x tl IH]; simpl; intros ys H.
  - injection H as <-. constructor.
  - apply bind_Ok in H. destruct H as (y & Hy & H).
    apply bind_Ok in H. destruct H as (ys' & Hys & H).
    injection H as <-. constructor; auto.
Qed.

Lemma mapM_returns {A B : Type} (f : A -> result B) (l : list A) :
  (forall x, In x l -> exists y, f x = Ok y) -> exists ys, mapM f l = Ok ys.
Proof.
  induction l as [|x tl IH]; simpl; intro H; [eauto|].
  destruct (H x (or_introl eq_refl)) as (y & ->).
  destruct IH as (ys & ->); [auto|]. simpl. eauto.
Qed.

(** A comprehension raises when its body raises on some item, and raises
    [e] when [e] is all the body ever raises. *)
Lemma mapM_raises {A B : Type} (f : A -> result B) (l : list A) (e : exn) :
  (forall x e', f x = Raise e' -> e' = e) ->
  (exists x, In x l /\ f x = Raise e) ->
  mapM f l = Raise e.
Proof.
  intros Only. induction l as [|x tl IH]; simpl; intros (z & I & Hz);
    [contradiction|].
  destruct (f x) as [y|e'] eqn:E; simpl.
  - destruct I as [->|I]; [congruence|].
    rewrite IH; [reflexivity|eauto].
  - f_equal. eauto.
Qed.

Lemma usable_vector_raises (v : pyvector) (e : exn) :
  usable_vector v = Raise e -> e = StopIteration.
Proof.
  destruct v as [l|d]; simpl; [discriminate|].
  destruct (dict_get d "dense") as [[|x l]|];
    destruct (dict_values d); congruence.
Qed.

Lemma np_vstack_spec (v : vector) (vs : list vector) (m : nat) :
  Forall (fun r => length r = m) (v :: vs) ->
  np_vstack (v :: vs) = Ok (mkArr m (v :: vs)).
Proof.
  intro F. inversion F as [|? ? Hv Fvs]; subst. simpl.
  assert (X : forallb (fun r => Nat.eqb (length r) (length v)) vs = true).
  { apply forallb_forall. intros r I. rewrite Forall_forall in Fvs.
    apply Nat.eqb_eq. auto. }
  rewrite X. reflexivity.
Qed.

(** What [np.vstack] returns is an array. *)
Lemma np_vstack_well_shaped (vs : list vector) (C : ndarray2) :
  np_vstack vs = Ok C -> well_shaped C /\ rows C = vs.
Proof.
  destruct vs as [|v tl]; simpl; [discriminate|].
  destruct (forallb (fun r => Nat.eqb (length r) (length v)) tl) eqn:X;
    [|discriminate].
  intro H. injection H as <-. split; [|reflexivity].
  unfold well_shaped. simpl. constructor; [reflexivity|].
  rewrite Forall_forall. intros r I.
  apply Nat.eqb_eq. revert r I. apply forallb_forall. exact X.
Qed.

Section SearchFacts.
Variable dot : vector -> vector -> float.
Variables (TOPK_FETCH : Z) (MMR_LAMBDA : float).
Variable embed : string -> result vector.
Variable qdrant_search :
  vector -> option (list string) -> Z -> result (list scored_point).

Local Abbreviation search :=
  (search_hybrid dot TOPK_FETCH MMR_LAMBDA embed qdrant_search).

(** The search on a response whose records all carry a usable vector of the
    query's length: the entries of the records that [_mmr] selects, in its
    order. *)
Lemma search_hybrid_spec (query : string) (lang_filter : option (list string))
  (topk : Z) (qvec : vector) (res : list scored_point) :
  embed query = Ok qvec ->
  qdrant_search qvec (query_filter lang_filter) (Z.max TOPK_FETCH topk)
  = Ok res ->
  (forall r, In r res ->
     exists v, usable_vector (sp_vector r) = Ok v /\ length v = length qvec) ->
  exists idx,
    length idx = Z.to_nat (Z.min topk (Z.of_nat (length res))) /\
    NoDup idx /\ Forall (fun i => i < length res) idx /\
    forall d,
      search query lang_filter topk
      = Ok (map (fun i => selected_of (nth i res d)) idx).
Proof.
  intros E S U. unfold search_hybrid. rewrite E. cbn [bind]. rewrite S.
  cbn [bind]. destruct res as [|r0 res'].
  { exists []. simpl. repeat split; try constructor. lia. }
  set (res := r0 :: res') in *.
  destruct (mapM_returns (fun r => usable_vector (sp_vector r)) res)
    as (vs & Hvs).
  { intros r I. destruct (U r I) as (v & Hv & _). eauto. }
  rewrite Hvs. cbn [bind].
  pose proof (mapM_Ok_length _ _ _ Hvs) as Lvs.
  assert (Fvs : Forall (fun v => length v = length qvec) vs).
  { apply mapM_Forall2 in Hvs. clear - Hvs U.
    induction Hvs as [|r v l l' H _ IH]; constructor.
    - destruct (U r (or_introl eq_refl)) as (v' & Hv' & L). congruence.
    - apply IH. intros r' I. apply U. right. assumption. }
  destruct vs as [|v0 vs']; [discriminate Lvs|].
  rewrite (np_vstack_spec v0 vs' (length qvec) Fvs). cbn [bind].
  destruct (mmr_spec dot qvec (mkArr (length qvec) (v0 :: vs')) MMR_LAMBDA
                     topk eq_refl) as (idx & R & L & ND & F & _).
  rewrite R. cbn [bind].
  unfold nrows in L, F. cbn [rows] in L, F. rewrite Lvs in L, F.
  exists idx. split; [exact L|]. split; [exact ND|]. split; [exact F|].
  intro d. apply mapM_total. intros i I.
  rewrite Forall_forall in F. specialize (F i I).
  unfold getitem, selected_of.
  rewrite !nth_error_map, (nth_error_nth' res d F). reflexivity.
Qed.
End SearchFacts.

(** C7, as the code has it.  When the embedder and the index answer, and
    every record of the response carries a usable vector of the query's
    length, the search returns [min(topk, n)] entries for a response of [n]
    records (none when [topk] is negative), each made of a record of the
    response; on an empty response it returns the empty list. *)
Theorem search_returns_min_topk (dot : vector -> vector -> float)
  (TOPK_FETCH : Z) (MMR_LAMBDA : float)
  (embed : string -> result vector)
  (qdrant_search :
     vector -> option (list string) -> Z -> result (list scored_point))
  (query : string) (lang_filter : option (list string)) (topk : Z)
  (qvec : vector) (res : list scored_point) :
  embed query = Ok qvec ->
  qdrant_search qvec (query_filter lang_filter) (Z.max TOPK_FETCH topk)
  = Ok res ->
  (forall r, In r res ->
     exists v, usable_vector (sp_vector r) = Ok v /\ length v = length qvec) ->
  exists out,
    search_hybrid dot TOPK_FETCH MMR_LAMBDA embed qdrant_search
                  query lang_filter topk = Ok out /\
    Z.of_nat (length out) = Z.max 0 (Z.min topk (Z.of_nat (length res))) /\
    Forall (fun o => exists r, In r res /\ o = selected_of r) out /\
    (res = [] -> out = []).
Proof.
  intros E S U.
  destruct (search_hybrid_spec dot TOPK_FETCH MMR_LAMBDA embed qdrant_search
              query lang_filter topk qvec res E S U)
    as (idx & L & _ & F & R).
  destruct res as [|r0 res'].
  - exists []. destruct idx; [|simpl in L; lia].
    rewrite (R plain_point). repeat split; auto. simpl. lia.
  - exists (map (fun i => selected_of (nth i (r0 :: res') r0)) idx).
    split; [apply R|]. split; [rewrite length_map; lia|]. split.
    + rewrite Forall_forall in *. intros o I. apply in_map_iff in I.
      destruct I as (i & <- & I). eexists. split; [|reflexivity].
      apply nth_In. apply F. assumption.
    + discriminate.
Qed.

Lemma search_returns_min_topk_witness :
  exists out,
    search_hybrid dot_in_order 20 lam_04 (fixed_embed scenario_q)
                  (fixed_index [plain_point; named_point; far_point])
                  "query" (Some ["ru"]) 2 = Ok out /\
    Z.of_nat (length out)
    = Z.max 0 (Z.min 2 (Z.of_nat
                          (length [plain_point; named_point; far_point]))) /\
    Forall (fun o => exists r,
              In r [plain_point; named_point; far_point] /\
              o = selected_of r) out /\
    ([plain_point; named_point; far_point] = [] -> out = []).
Proof.
  apply (search_returns_min_topk dot_in_order 20%Z lam_04
           (fixed_embed scenario_q)
           (fixed_index [plain_point; named_point; far_point])
           "query" (Some ["ru"]) 2%Z scenario_q
           [plain_point; named_point; far_point]).
  - reflexivity.
  - reflexivity.
  - intros r [<-|[<-|[<-|[]]]]; eexists; split; reflexivity.
Defined.

(** C7 as stated fails: for a query embedded into three numbers and a
    response of two records with vectors of two numbers the search raises
    [ValueError] instead of returning two entries. *)
Lemma search_raises_on_other_dimension :
  ~ (forall (TOPK_FETCH : Z) (MMR_LAMBDA : float)
       (embed : string -> result vector)
       (qdrant_search :
          vector -> option (list string) -> Z -> result (list scored_point))
       (query : string) (lang_filter : option (list string)) (topk : Z)
       (qvec : vector) (res : list scored_point),
       embed query = Ok qvec ->
       qdrant_search qvec (query_filter lang_filter) (Z.max TOPK_FETCH topk)
       = Ok res ->
       exists out,
         search_hybrid dot_in_order TOPK_FETCH MMR_LAMBDA embed qdrant_search
                       query lang_filter topk = Ok out /\
         Z.of_nat (length out)
         = Z.max 0 (Z.min topk (Z.of_nat (length res)))).
Proof.
  intro H.
  destruct (H 20%Z lam_04 (fixed_embed [f1; f0; f0])
              (fixed_index [plain_point; far_point])
              "query" None 2%Z [f1; f0; f0] [plain_point; far_point]
              eq_refl eq_refl)
    as (out & R & _).
  vm_compute in R. discriminate R.
Qed.

(** C4, as the code has it.  When the embedder and the index answer and
    some record of the response has no usable vector (its vector is a dict
    of named vectors that holds none), the search raises [StopIteration]:
    nothing is returned for the other records. *)
Theorem search_raises_on_unusable_vector (dot : vector -> vector -> float)
  (TOPK_FETCH : Z) (MMR_LAMBDA : float)
  (embed : string -> result vector)
  (qdrant_search :
     vector -> option (list string) -> Z -> result (list scored_point))
  (query : string) (lang_filter : option (list string)) (topk : Z)
  (qvec : vector) (res : list scored_point) :
  embed query = Ok qvec ->
  qdrant_search qvec (query_filter lang_filter) (Z.max TOPK_FETCH topk)
  = Ok res ->
  (exists r, In r res /\ forall v, usable_vector (sp_vector r) <> Ok v) ->
  search_hybrid dot TOPK_FETCH MMR_LAMBDA embed qdrant_search
                query lang_filter topk = Raise StopIteration.
Proof.
  intros E S (r & I & N). unfold search_hybrid. rewrite E. cbn [bind].
  rewrite S. cbn [bind]. destruct res as [|r0 res']; [contradiction|].
  rewrite (mapM_raises (fun r => usable_vector (sp_vector r)) (r0 :: res')
             StopIteration); [reflexivity| |].
  - intros x e. apply usable_vector_raises.
  - exists r. split; [assumption|].
    destruct (usable_vector (sp_vector r)) as [v|e] eqn:U.
    + exfalso. exact (N v eq_refl).
    + f_equal. exact (usable_vector_raises _ _ U).
Qed.

Lemma search_raises_on_unusable_vector_witness :
  search_hybrid dot_in_order 20 lam_04 (fixed_embed scenario_q)
                (fixed_index [plain_point; unusable_point; far_point])
                "query" None 2 = Raise StopIteration.
Proof.
  apply (search_raises_on_unusable_vector dot_in_order 20%Z lam_04
           (fixed_embed scenario_q)
           (fixed_index [plain_point; unusable_point; far_point])
           "query" None 2%Z scenario_q
           [plain_point; unusable_point; far_point]).
  - reflexivity.
  - reflexivity.
  - exists unusable_point. split; [simpl; auto|]. intro v. discriminate.
Defined.

(** C4 as stated fails: a response with a record that has no usable vector
    makes the search raise, although its other records are well formed. *)
Lemma search_aborts_on_unusable_vector :
  ~ (forall (TOPK_FETCH : Z) (MMR_LAMBDA : float)
       (embed : string -> result vector)
       (qdrant_search :
          vector -> option (list string) -> Z -> result (list scored_point))
       (query : string) (lang_filter : option (list string)) (topk : Z)
       (qvec : vector) (res : list scored_point),
       embed query = Ok qvec ->
       qdrant_search qvec (query_filter lang_filter) (Z.max TOPK_FETCH topk)
       = Ok res ->
       (forall r v, In r res -> usable_vector (sp_vector r) = Ok v ->
                    length v = length qvec) ->
       exists out,
         search_hybrid dot_in_order TOPK_FETCH MMR_LAMBDA embed qdrant_search
                       query lang_filter topk = Ok out).
Proof.
  intro H.
  destruct (H 20%Z lam_04 (fixed_embed scenario_q)
              (fixed_index [plain_point; unusable_point; far_point])
              "query" None 2%Z scenario_q
              [plain_point; unusable_point; far_point])
    as (out & R).
  - reflexivity.
  - reflexivity.
  - intros r v [<-|[<-|[<-|[]]]] U; simpl in U; try discriminate;
      injection U as <-; reflexivity.
  - discriminate R.
Qed.

End RetrieverSpec.

(* ================================================================== *)
(** * Further properties of the result fusion *)
(* ================================================================== *)

Module FusionMore.
Import Py PyFacts Fusion FusionSpec FusionTerms.

(** The entry kept for a key is a valid entry of that key. *)
Lemma first_best_entry (hits : list hit) (key : string) (h : hit) :
  first_best hits key h -> In h hits /\ valid h = true /\ key_of h = key.
Proof.
  intros (pre & post & -> & V & K & _). repeat split; auto.
  apply in_or_app. simpl. auto.
Qed.

(** The entry kept for a key is not exceeded by any valid entry of that
    key. *)
Lemma first_best_max (hits : list hit) (key : string) (h h' : hit) :
  first_best hits key h -> In h' hits -> valid h' = true ->
  key_of h' = key -> float_gt (score_of h') (score_of h) = false.
Proof.
  intros (pre & post & -> & V & K & Hpre & Hpost) I V' K'.
  apply in_app_or in I. destruct I as [I|[<-|I]].
  - destruct (float_gt (score_of h') (score_of h)) eqn:G; [|reflexivity].
    apply float_gt_ge in G. rewrite (Hpre h' I V' K') in G. discriminate.
  - apply float_gt_irrefl.
  - auto.
Qed.

(** What [by_id.values()] holds. *)
Lemma kept_values (hits : list hit) (d : dict hit) (h : hit) :
  well_keyed d -> keeps_first_best hits d -> In h (dict_values d) ->
  first_best hits (key_of h) h.
Proof.
  intros [N W] K I. apply in_map_iff in I. destruct I as ([k h'] & E & I).
  simpl in E. subst h'. destruct (W k h I) as [_ Hk].
  specialize (K k). rewrite (dict_In_get _ d k h N I) in K.
  rewrite Hk. exact K.
Qed.

Lemma kept_keys (hits : list hit) (d : dict hit) (k : string) :
  well_keyed d -> keeps_first_best hits d ->
  (In k (dict_keys d) <-> In k (map key_of (filter valid hits))).
Proof.
  intros W K. specialize (K k). split.
  - intro I. destruct (dict_get d k) as [h|] eqn:G.
    + destruct (first_best_entry _ _ _ K) as (Ih & V & Hk).
      apply in_map_iff. exists h. split; [assumption|].
      apply filter_In. auto.
    + apply dict_get_None in G. contradiction.
  - intro I. apply in_map_iff in I. destruct I as (h & Hk & I).
    apply filter_In in I. destruct I as [I V].
    destruct (dict_get d k) as [h'|] eqn:G.
    + apply dict_get_In in G. apply in_map_iff. exists (k, h'). auto.
    + exfalso. exact (K h I V Hk).
Qed.

Lemma kept_count (hits : list hit) (d : dict hit) :
  well_keyed d -> keeps_first_best hits d ->
  length (dict_values d) = distinct_ids hits.
Proof.
  intros W K. unfold distinct_ids, dict_values. rewrite length_map.
  rewrite <- (length_map fst d). apply Permutation_length.
  apply NoDup_Permutation.
  - apply W.
  - apply NoDup_nodup.
  - intro k. rewrite nodup_In. apply (kept_keys hits d k W K).
Qed.

(** Lists in descending order of score that hold the same entries, no two
    of them tied, are equal. *)
Lemma sorted_desc_unique (s1 s2 : list hit) :
  StronglySorted score_ge s1 -> StronglySorted score_ge s2 ->
  Permutation s1 s2 ->
  (forall a b, In a s1 -> In b s1 -> a = b \/
     float_gt (score_of a) (score_of b) = true \/
     float_gt (score_of b) (score_of a) = true) ->
  s1 = s2.
Proof.
  intros S1. revert s2. induction S1 as [|a t1 St1 IH Fa]; intros s2 S2 P T.
  - apply Permutation_nil in P. auto.
  - destruct s2 as [|b t2].
    { apply Permutation_sym, Permutation_nil in P. discriminate. }
    assert (E : a = b).
    { destruct (T a b) as [E|G]; [simpl; auto| |assumption|].
      - apply (Permutation_in _ (Permutation_sym P)). simpl. auto.
      - exfalso.
        assert (Ia : In a (b :: t2)) by (apply (Permutation_in _ P); simpl; auto).
        assert (Ib : In b (a :: t1))
          by (apply (Permutation_in _ (Permutation_sym P)); simpl; auto).
        apply StronglySorted_inv in S2. destruct S2 as [_ Fb].
        rewrite Forall_forall in Fa, Fb.
        destruct Ia as [Ia|Ia]; [destruct G as [G|G]; subst;
          rewrite float_gt_irrefl in G; discriminate|].
        destruct Ib as [Ib|Ib]; [destruct G as [G|G]; subst;
          rewrite float_gt_irrefl in G; discriminate|].
        specialize (Fa b Ib). specialize (Fb a Ia).
        unfold score_ge in Fa, Fb. destruct G; congruence. }
    subst b. f_equal. apply IH.
    + apply StronglySorted_inv in S2. tauto.
    + eapply Permutation_cons_inv. eassumption.
    + intros x y Ix Iy. apply T; simpl; auto.
Qed.

Lemma within_range_perm (l l' : list hit) :
  Permutation l l' -> within_range l -> within_range l'.
Proof.
  unfold within_range. intros P F. rewrite Forall_forall in *.
  intros h I. apply F. apply (Permutation_in _ (Permutation_sym P)). exact I.
Qed.

Lemma no_nan_perm (l l' : list hit) :
  Permutation l l' -> no_nan l -> no_nan l'.
Proof.
  unfold no_nan. intros P F. rewrite Forall_forall in *.
  intros h I. apply F. apply (Permutation_in _ (Permutation_sym P)). exact I.
Qed.

Section Sorted.
Variable list_sort : list (float * hit) -> list (float * hit).
Hypothesis list_sort_spec : stable_sort_desc list_sort.

(** ** The result, entry by entry *)

(** X1.  When the score of every valid entry is within the range of the
    floats, [_merge_hits] returns, and every entry of the result is an
    entry of the input, taken as it is, valid, and no valid input entry
    with the same id (string form) has a strictly higher score as a float;
    otherwise it raises [OverflowError]. *)
Theorem merge_returns_best_input_entries
  (hit_groups : list (list hit)) (limit : Z) :
  (within_range (concat hit_groups) ->
   exists out,
     _merge_hits list_sort hit_groups limit = Ok out /\
     forall h, In h out ->
       In h (concat hit_groups) /\ valid h = true /\
       forall h', In h' (concat hit_groups) -> valid h' = true ->
                  key_of h' = key_of h ->
                  float_gt (score_of h') (score_of h) = false) /\
  (~ within_range (concat hit_groups) ->
   _merge_hits list_sort hit_groups limit = Raise OverflowError).
Proof.
  split; [|apply merge_hits_overflow]. intro Rg.
  destruct (merge_hits_spec list_sort list_sort_spec hit_groups limit Rg)
    as (d & s & _ & W & K & P & R & _).
  eexists. split; [exact R|]. intros h I.
  destruct (slice_to_firstn s limit) as (n & E). rewrite E in I.
  apply In_firstn in I. apply (Permutation_in _ P) in I.
  pose proof (kept_values _ _ _ W K I) as FB.
  destruct (first_best_entry _ _ _ FB) as (I' & V & _).
  split; [assumption|]. split; [assumption|].
  intros h' Ih' V' K'. eapply first_best_max; eauto.
Qed.

(** ** How many entries come back *)

(** X2.  When the score of every valid entry is within the range of the
    floats and the limit is not negative, the result has
    [min(limit, number of different ids among the valid entries)] entries;
    when the limit reaches that number every valid input entry finds its
    id in the result. *)
Theorem merge_counts_distinct_ids
  (hit_groups : list (list hit)) (limit : Z) :
  within_range (concat hit_groups) ->
  (0 <= limit)%Z ->
  exists out,
    _merge_hits list_sort hit_groups limit = Ok out /\
    length out
    = Nat.min (Z.to_nat limit) (distinct_ids (concat hit_groups)) /\
    (distinct_ids (concat hit_groups) <= Z.to_nat limit ->
     forall h, In h (concat hit_groups) -> valid h = true ->
               In (key_of h) (map key_of out)).
Proof.
  intros Rg L.
  destruct (merge_hits_spec list_sort list_sort_spec hit_groups limit Rg)
    as (d & s & _ & W & K & P & R & _).
  eexists. split; [exact R|].
  pose proof (kept_count _ _ W K) as C.
  rewrite <- (Permutation_length P) in C.
  unfold slice_to. apply Z.leb_le in L. rewrite L.
  split.
  - rewrite length_firstn, C. reflexivity.
  - intros B h I V. rewrite firstn_all2 by lia.
    apply (Permutation_in _ (Permutation_sym (Permutation_map key_of P))).
    replace (map key_of (dict_values d)) with (dict_keys d).
    + apply (kept_keys _ _ _ W K). apply in_map_iff.
      exists h. split; [reflexivity|]. apply filter_In. auto.
    + destruct W as [_ W]. unfold dict_values, dict_keys.
      rewrite map_map. apply map_ext_in. intros [k x] Ix. simpl.
      destruct (W k x Ix) as [_ E]. symmetry. assumption.
Qed.

(** ** The order of the input *)

(** X3.  Without ties the result does not depend on the order of the
    input: when the score of every valid entry is within the range of the
    floats, none is NaN and no two different valid entries have the same
    score as a float, any rearrangement of the entries, within and across
    the sequences, merges to the same result. *)
Theorem merge_order_independent_without_ties
  (groups1 groups2 : list (list hit)) (limit : Z) :
  within_range (concat groups1) -> no_nan (concat groups1) ->
  tie_free (concat groups1) ->
  Permutation (concat groups1) (concat groups2) ->
  _merge_hits list_sort groups1 limit = _merge_hits list_sort groups2 limit.
Proof.
  intros Rg NN T P.
  pose proof (within_range_perm _ _ P Rg) as Rg2.
  pose proof (no_nan_perm _ _ P NN) as NN2.
  destruct (merge_hits_spec list_sort list_sort_spec groups1 limit Rg)
    as (d1 & s1 & _ & W1 & K1 & P1 & R1 & S1).
  destruct (merge_hits_spec list_sort list_sort_spec groups2 limit Rg2)
    as (d2 & s2 & _ & W2 & K2 & P2 & R2 & S2).
  destruct (S1 NN) as [Sd1 _]. destruct (S2 NN2) as [Sd2 _].
  rewrite R1, R2. f_equal. f_equal.
  assert (V : forall h, In h (dict_values d1) <-> In h (dict_values d2)).
  { assert (Half : forall ga gb da db,
              tie_free ga -> Permutation ga gb ->
              well_keyed da -> keeps_first_best ga da ->
              well_keyed db -> keeps_first_best gb db ->
              forall h, In h (dict_values da) -> In h (dict_values db)).
    { intros ga gb da db Ta Pab Wa Ka Wb Kb h I.
      pose proof (kept_values _ _ _ Wa Ka I) as FB.
      destruct (first_best_entry _ _ _ FB) as (Ih & Vh & _).
      pose proof (Kb (key_of h)) as Kh.
      destruct (dict_get db (key_of h)) as [h2|] eqn:G.
      - destruct (first_best_entry _ _ _ Kh) as (Ih2 & Vh2 & Kh2).
        assert (h = h2); [|subst; apply in_map_iff; exists (key_of h2, h2);
                            split; [reflexivity|apply dict_get_In; assumption]].
        destruct (Ta h h2) as [E|[G1|G1]]; auto.
        + apply (Permutation_in _ (Permutation_sym Pab)). assumption.
        + rewrite (first_best_max gb (key_of h) h2 h) in G1; auto;
            [discriminate|].
          apply (Permutation_in _ Pab). assumption.
        + rewrite (first_best_max ga (key_of h) h h2) in G1; auto;
            [discriminate|].
          apply (Permutation_in _ (Permutation_sym Pab)). assumption.
      - exfalso. apply (Kh h); auto. apply (Permutation_in _ Pab). assumption. }
    intro h. split.
    - apply (Half (concat groups1) (concat groups2)); auto.
    - apply (Half (concat groups2) (concat groups1)); auto.
      + intros a b Ia Ib. apply T; apply (Permutation_in _ (Permutation_sym P));
          assumption.
      + apply Permutation_sym. assumption. }
  apply sorted_desc_unique; auto.
  - rewrite P1, P2. apply NoDup_Permutation.
    + apply (NoDup_map_inv key_of), (well_keyed_values d1 W1).
    + apply (NoDup_map_inv key_of), (well_keyed_values d2 W2).
    + exact V.
  - intros a b Ia Ib.
    apply (Permutation_in _ P1) in Ia. apply (Permutation_in _ P1) in Ib.
    pose proof (kept_values _ _ _ W1 K1 Ia) as FBa.
    pose proof (kept_values _ _ _ W1 K1 Ib) as FBb.
    destruct (first_best_entry _ _ _ FBa) as (Ha & Va & _).
    destruct (first_best_entry _ _ _ FBb) as (Hb & Vb & _).
    apply T; assumption.
Qed.
End Sorted.

Lemma merge_returns_best_input_entries_witness :
  exists out,
    _merge_hits (@sort_desc hit) [fusion_primary; fusion_secondary] 4
    = Ok out /\
    forall h, In h out ->
      In h (concat [fusion_primary; fusion_secondary]) /\ valid h = true /\
      forall h', In h' (concat [fusion_primary; fusion_secondary]) ->
                 valid h' = true -> key_of h' = key_of h ->
                 float_gt (score_of h') (score_of h) = false.
Proof.
  apply (proj1 (merge_returns_best_input_entries
                  (@sort_desc hit) (sort_desc_stable hit)
                  [fusion_primary; fusion_secondary] 4%Z)).
  all_entries.
Defined.

Lemma merge_counts_distinct_ids_witness :
  exists out,
    _merge_hits (@sort_desc hit) [fusion_primary; fusion_secondary] 1
    = Ok out /\
    length out
    = Nat.min (Z.to_nat 1)
              (distinct_ids (concat [fusion_primary; fusion_secondary])) /\
    (distinct_ids (concat [fusion_primary; fusion_secondary]) <= Z.to_nat 1 ->
     forall h, In h (concat [fusion_primary; fusion_secondary]) ->
               valid h = true -> In (key_of h) (map key_of out)).
Proof.
  apply (merge_counts_distinct_ids (@sort_desc hit) (sort_desc_stable hit)
           [fusion_primary; fusion_secondary] 1%Z).
  - all_entries.
  - lia.
Defined.

Lemma merge_order_independent_without_ties_witness :
  _merge_hits (@sort_desc hit) [fusion_primary; fusion_secondary] 2
  = _merge_hits (@sort_desc hit) [fusion_secondary; fusion_primary] 2.
Proof.
  apply (merge_order_independent_without_ties
           (@sort_desc hit) (sort_desc_stable hit)
           [fusion_primary; fusion_secondary]
           [fusion_secondary; fusion_primary] 2%Z).
  - all_entries.
  - all_entries.
  - intros a b [<-|[<-|[<-|[]]]] [<-|[<-|[<-|[]]]] _ _;
      vm_compute; auto.
  - unfold fusion_primary, fusion_secondary. cbn [concat app].
    apply (Permutation_cons_append
             [hit_of (IdStr "X") (fl 9 10); hit_of (IdStr "Y") (fl 2 10)]
             (hit_of (IdStr "X") (fl 3 10))).
Defined.

End FusionMore.

(* ================================================================== *)
(** * Further properties of the retrieval *)
(* ================================================================== *)

Module RetrieverMore.
Import Py PyFacts Retriever RetrieverSpec RetrieverInputs.

(** ** The selection grows by its end *)

(** X4.  Asking for more results never changes the earlier ones: for
    [k <= k'] the selection for [k] is the beginning of the selection for
    [k']. *)
Theorem mmr_selection_is_prefix (dot : vector -> vector -> float)
  (q : vector) (C : ndarray2) (k k' : Z) (lam : float) :
  length q = ncols C -> (k <= k')%Z ->
  exists sel sel',
    _mmr dot q C k lam = Ok sel /\ _mmr dot q C k' lam = Ok sel' /\
    sel = firstn (length sel) sel'.
Proof.
  intros D K. unfold _mmr, matvec. rewrite D, Nat.eqb_refl. cbn [bind].
  unfold set_range. rewrite <- unselected_nil.
  set (a := Z.to_nat (Z.min k (Z.of_nat (nrows C)))).
  set (b := Z.to_nat (Z.min k' (Z.of_nat (nrows C)))).
  assert (E : b = a + (b - a)) by (unfold a, b; lia).
  rewrite E.
  destruct (mmr_loop_more dot q C lam a (b - a) [])
    as (out & out' & R & R' & P).
  - constructor.
  - constructor.
  - intros t i H. destruct t; discriminate.
  - rewrite unselected_nil, length_seq. simpl. lia.
  - simpl. unfold a, b. lia.
  - exists out, out'. auto.
Qed.

Lemma mmr_selection_is_prefix_witness :
  exists sel sel',
    _mmr dot_in_order scenario_q scenario_C 2 lam_04 = Ok sel /\
    _mmr dot_in_order scenario_q scenario_C 3 lam_04 = Ok sel' /\
    sel = firstn (length sel) sel'.
Proof.
  apply (mmr_selection_is_prefix dot_in_order scenario_q scenario_C
                                 2%Z 3%Z lam_04).
  - reflexivity.
  - lia.
Defined.

(** ** The two ends of the trade-off *)

(** X5.  The best single result does not depend on [lam]: for [k = 1] the
    selection is the same for every [lam]. *)
Theorem mmr_top1_ignores_lambda (dot : vector -> vector -> float)
  (q : vector) (C : ndarray2) (lam lam' : float) :
  length q = ncols C ->
  _mmr dot q C 1 lam = _mmr dot q C 1 lam'.
Proof.
  intro D. unfold _mmr, matvec. rewrite D, Nat.eqb_refl. cbn [bind].
  destruct (Z.to_nat (Z.min 1 (Z.of_nat (nrows C)))) as [|[|m]] eqn:E.
  - reflexivity.
  - reflexivity.
  - lia.
Qed.

Lemma mmr_top1_ignores_lambda_witness :
  _mmr dot_in_order scenario_q scenario_C 1 lam_04
  = _mmr dot_in_order scenario_q scenario_C 1 one.
Proof.
  apply (mmr_top1_ignores_lambda dot_in_order scenario_q scenario_C
                                 lam_04 one).
  reflexivity.
Defined.

(** X6.  With [lam = 0.0], on rows whose relevance is finite and whose
    inner products with one another are [float32] values, every pick after
    the first is the unselected index least similar to what is selected:
    no unselected index has a smaller
    [max over selected s of dot(C[s], C[j])], and no lower unselected
    index has one as small; that maximum is one of the inner products,
    exceeded by none of them. *)
Theorem mmr_lambda_zero_picks_least_similar
  (dot : vector -> vector -> float) (q : vector) (C : ndarray2) (k : Z) :
  length q = ncols C ->
  (forall j, j < nrows C -> is_finite (spec_rel dot q C j) = true) ->
  (forall s, s < nrows C -> forall j, j < nrows C ->
     is_float32 (dot (row C s) (row C j)) = true) ->
  exists sel,
    _mmr dot q C k zero = Ok sel /\
    forall t i, 0 < t -> nth_error sel t = Some i ->
      forall j, j < nrows C -> ~ In j (firstn t sel) ->
        max_product dot C (firstn t sel) j
                    (spec_diversity_penalty dot C (firstn t sel) j) /\
        float_gt (spec_diversity_penalty dot C (firstn t sel) i)
                 (spec_diversity_penalty dot C (firstn t sel) j) = false /\
        (j < i ->
         float_ge (spec_diversity_penalty dot C (firstn t sel) i)
                  (spec_diversity_penalty dot C (firstn t sel) j) = false).
Proof.
  intros D Fin V.
  destruct (mmr_spec dot q C zero k D) as (sel & R & L & ND & F & G & _).
  exists sel. split; [assumption|].
  intros t i T H j Lj Nj.
  split.
  { apply penalty_is_max. intro E.
    assert (Lt : t < length sel) by (apply nth_error_Some; congruence).
    apply (f_equal (@length nat)) in E. rewrite length_firstn in E.
    simpl in E. lia. }
  destruct (G t i H) as (Li & _ & M). destruct (M j Lj Nj) as [M1 M2].
  assert (Lt : t < length sel) by (apply nth_error_Some; congruence).
  assert (Ft : Forall (fun i => i < nrows C) (firstn t sel)).
  { rewrite Forall_forall in *. intros x I. apply F.
    eapply In_firstn. eassumption. }
  destruct (firstn t sel) as [|s prev] eqn:E.
  { apply (f_equal (@length nat)) in E. rewrite length_firstn in E.
    simpl in E. lia. }
  pose proof (spec_score_lambda_zero dot q C s prev j Ft Lj (Fin j Lj)
                (fun s' Ls => V s' Ls j Lj)) as Sj.
  pose proof (spec_score_lambda_zero dot q C s prev i Ft Li (Fin i Li)
                (fun s' Ls => V s' Ls i Li)) as Si.
  rewrite (same_value_gt _ _ _ _ Sj Si), float_gt_neg in M1.
  rewrite (same_value_ge _ _ _ _ Sj Si), float_ge_neg in M2.
  auto.
Qed.

Lemma mmr_lambda_zero_picks_least_similar_witness :
  exists sel,
    _mmr dot_in_order scenario_q scenario_C 3 zero = Ok sel /\
    forall t i, 0 < t -> nth_error sel t = Some i ->
      forall j, j < nrows scenario_C -> ~ In j (firstn t sel) ->
        max_product dot_in_order scenario_C (firstn t sel) j
                    (spec_diversity_penalty dot_in_order scenario_C
                                            (firstn t sel) j) /\
        float_gt (spec_diversity_penalty dot_in_order scenario_C
                                         (firstn t sel) i)
                 (spec_diversity_penalty dot_in_order scenario_C
                                         (firstn t sel) j) = false /\
        (j < i ->
         float_ge (spec_diversity_penalty dot_in_order scenario_C
                                          (firstn t sel) i)
                  (spec_diversity_penalty dot_in_order scenario_C
                                          (firstn t sel) j) = false).
Proof.
  apply (mmr_lambda_zero_picks_least_similar dot_in_order scenario_q
                                             scenario_C 3%Z).
  - reflexivity.
  - every_row.
  - every_pair.
Defined.

(** ** What [search_hybrid] returns and when it raises *)

Section SearchMore.
Variable dot : vector -> vector -> float.
Variables (TOPK_FETCH : Z) (MMR_LAMBDA : float).
Variable embed : string -> result vector.
Variable qdrant_search :
  vector -> option (list string) -> Z -> result (list scored_point).

(** X7.  On a response that is not empty and whose records all carry a
    usable vector of the query's length, the result lists the records that
    [_mmr] selects over the stacked vectors, in its order: records at
    pairwise different positions of the response, each with its id as a
    string, its score and its payload. *)
Theorem search_lists_mmr_selection (query : string)
  (lang_filter : option (list string)) (topk : Z) (qvec : vector)
  (res : list scored_point) :
  embed query = Ok qvec ->
  qdrant_search qvec (query_filter lang_filter) (Z.max TOPK_FETCH topk)
  = Ok res ->
  res <> [] ->
  (forall r, In r res ->
     exists v, usable_vector (sp_vector r) = Ok v /\ length v = length qvec) ->
  exists vs idx,
    mapM (fun r => usable_vector (sp_vector r)) res = Ok vs /\
    _mmr dot qvec (mkArr (length qvec) vs) topk MMR_LAMBDA = Ok idx /\
    NoDup idx /\ Forall (fun i => i < length res) idx /\
    forall d,
      search_hybrid dot TOPK_FETCH MMR_LAMBDA embed qdrant_search
                    query lang_filter topk
      = Ok (map (fun i => selected_of (nth i res d)) idx).
Proof.
  intros E S NE U. unfold search_hybrid. rewrite E. cbn [bind]. rewrite S.
  cbn [bind]. destruct res as [|r0 res']; [contradiction|].
  set (res := r0 :: res') in *.
  destruct (mapM_returns (fun r => usable_vector (sp_vector r)) res)
    as (vs & Hvs).
  { intros r I. destruct (U r I) as (v & Hv & _). eauto. }
  rewrite Hvs. cbn [bind].
  pose proof (mapM_Ok_length _ _ _ Hvs) as Lvs.
  assert (Fvs : Forall (fun v => length v = length qvec) vs).
  { pose proof (mapM_Forall2 _ _ _ Hvs) as F2. clear - F2 U.
    induction F2 as [|r v l l' H _ IH]; constructor.
    - destruct (U r (or_introl eq_refl)) as (v' & Hv' & L). congruence.
    - apply IH. intros r' I. apply U. right. assumption. }
  destruct vs as [|v0 vs']; [discriminate Lvs|].
  rewrite (np_vstack_spec v0 vs' (length qvec) Fvs). cbn [bind].
  destruct (mmr_spec dot qvec (mkArr (length qvec) (v0 :: vs')) MMR_LAMBDA
                     topk eq_refl) as (idx & R & L & ND & F & _).
  exists (v0 :: vs'), idx. split; [reflexivity|]. split; [exact R|].
  rewrite R. cbn [bind].
  unfold nrows in F. cbn [rows] in F. rewrite Lvs in F.
  split; [exact ND|]. split; [exact F|].
  intro d. apply mapM_total. intros i I.
  rewrite Forall_forall in F. specialize (F i I).
  unfold getitem, selected_of.
  rewrite !nth_error_map, (nth_error_nth' res d F). reflexivity.
Qed.

(** X8.  When every record of the response carries a usable vector but one
    of them has not the query's length, the search raises [ValueError]
    (from [np.vstack] when the vectors differ in length, from [C @ q]
    otherwise). *)
Theorem search_raises_on_dimension_mismatch (query : string)
  (lang_filter : option (list string)) (topk : Z) (qvec : vector)
  (res : list scored_point) (vs : list vector) :
  embed query = Ok qvec ->
  qdrant_search qvec (query_filter lang_filter) (Z.max TOPK_FETCH topk)
  = Ok res ->
  mapM (fun r => usable_vector (sp_vector r)) res = Ok vs ->
  (exists v, In v vs /\ length v <> length qvec) ->
  search_hybrid dot TOPK_FETCH MMR_LAMBDA embed qdrant_search
                query lang_filter topk = Raise ValueError.
Proof.
  intros E S Hvs (v & I & N). unfold search_hybrid. rewrite E. cbn [bind].
  rewrite S. cbn [bind]. destruct res as [|r0 res'].
  { simpl in Hvs. injection Hvs as <-. contradiction. }
  rewrite Hvs. cbn [bind].
  destruct (np_vstack vs) as [C|e] eqn:VS.
  - destruct (np_vstack_well_shaped vs C VS) as [WS Rows].
    cbn [bind]. unfold _mmr, matvec.
    destruct (Nat.eqb (ncols C) (length qvec)) eqn:X; [|reflexivity].
    exfalso. apply Nat.eqb_eq in X. apply N.
    unfold well_shaped in WS. rewrite Forall_forall in WS.
    rewrite <- X. apply WS. rewrite Rows. assumption.
  - cbn [bind]. f_equal. unfold np_vstack in VS.
    destruct vs as [|v0 tl]; [congruence|].
    destruct (forallb (fun r => Nat.eqb (length r) (length v0)) tl);
      congruence.
Qed.
End SearchMore.

Lemma search_lists_mmr_selection_witness :
  exists vs idx,
    mapM (fun r => usable_vector (sp_vector r))
         [plain_point; named_point; far_point] = Ok vs /\
    _mmr dot_in_order scenario_q (mkArr (length scenario_q) vs) 2 lam_04
    = Ok idx /\
    NoDup idx /\
    Forall (fun i => i < length [plain_point; named_point; far_point]) idx /\
    forall d,
      search_hybrid dot_in_order 20 lam_04 (fixed_embed scenario_q)
                    (fixed_index [plain_point; named_point; far_point])
                    "query" (Some ["ru"; "en"]) 2
      = Ok (map (fun i => selected_of
                            (nth i [plain_point; named_point; far_point] d))
                idx).
Proof.
  apply (search_lists_mmr_selection dot_in_order 20%Z lam_04
           (fixed_embed scenario_q)
           (fixed_index [plain_point; named_point; far_point])
           "query" (Some ["ru"; "en"]) 2%Z scenario_q
           [plain_point; named_point; far_point]).
  - reflexivity.
  - reflexivity.
  - discriminate.
  - intros r [<-|[<-|[<-|[]]]]; eexists; split; reflexivity.
Defined.

Lemma search_raises_on_dimension_mismatch_witness :
  search_hybrid dot_in_order 20 lam_04 (fixed_embed scenario_q)
                (fixed_index [plain_point; short_point])
                "query" None 2 = Raise ValueError.
Proof.
  apply (search_raises_on_dimension_mismatch dot_in_order 20%Z lam_04
           (fixed_embed scenario_q) (fixed_index [plain_point; short_point])
           "query" None 2%Z scenario_q [plain_point; short_point]
           [[f1; f0]; [f1]]).
  - reflexivity.
  - reflexivity.
  - reflexivity.
  - exists [f1]. split; [simpl; auto|]. simpl. lia.
Defined.

End RetrieverMore.

(* ================================================================== *)
(** * Facts about strings *)
(* ================================================================== *)

Module TextFacts.
Import Text.

Lemma nonspace_rev (w : str) :
  forallb nonspace w = true -> forallb nonspace (rev w) = true.
Proof.
  rewrite !forallb_forall. intros H c I. apply H. apply in_rev. assumption.
Qed.

(** [split] yields words. *)
Lemma split_from_words (s : str) :
  forall word, forallb nonspace word = true ->
               Forall is_word (split_from word s).
Proof.
  induction s as [|c tl IH]; intros word W; simpl.
  - destruct word as [|x w]; constructor; [|constructor].
    split; [|apply (nonspace_rev (x :: w)); assumption].
    simpl. intro E. apply app_eq_nil in E. destruct E. discriminate.
  - destruct (isspace c) eqn:E.
    + destruct word as [|x w]; [apply IH; reflexivity|].
      constructor; [|apply IH; reflexivity].
      split; [|apply (nonspace_rev (x :: w)); assumption].
      simpl. intro X. apply app_eq_nil in X. destruct X. discriminate.
    + apply IH. simpl. unfold nonspace at 1. rewrite E. assumption.
Qed.

Lemma split_words (s : str) : Forall is_word (split s).
Proof. apply split_from_words. reflexivity. Qed.

(** Reading a run of characters that are not whitespace. *)
Lemma split_from_run (x : str) :
  forallb nonspace x = true ->
  forall word rest,
    split_from word (x ++ rest) = split_from (rev x ++ word) rest.
Proof.
  induction x as [|c x IH]; intros W word rest; [reflexivity|].
  simpl in W. apply andb_true_iff in W. destruct W as [Wc Wx].
  unfold nonspace in Wc. apply negb_true_iff in Wc.
  simpl. rewrite Wc, (IH Wx), <- app_assoc. reflexivity.
Qed.

(** Joining words with a space and splitting again gives the words back. *)
Lemma split_join (ws : list str) :
  Forall is_word ws -> split (join space ws) = ws.
Proof.
  unfold split. induction 1 as [|x tl [Nx Wx] F IH]; [reflexivity|].
  assert (R : rev x ++ [] <> []).
  { intro E. apply app_eq_nil in E. destruct E as [E _].
    apply (f_equal (@rev N)) in E. rewrite rev_involutive in E. auto. }
  destruct tl as [|y tl].
  - simpl. rewrite <- (app_nil_r x) at 1.
    rewrite (split_from_run x Wx [] []). simpl.
    destruct (rev x ++ []) eqn:E; [contradiction|].
    rewrite <- E, app_nil_r, rev_involutive. reflexivity.
  - change (join space (x :: y :: tl))
      with (x ++ 32%N :: join space (y :: tl)).
    rewrite (split_from_run x Wx [] (32%N :: join space (y :: tl))).
    simpl split_from at 1. change (isspace 32) with true. cbv iota.
    destruct (rev x ++ []) eqn:E; [contradiction|].
    rewrite <- E, app_nil_r, rev_involutive. f_equal. exact IH.
Qed.

End TextFacts.

(* ================================================================== *)
(** * Properties of the chunking *)
(* ================================================================== *)

Module IngestSpec.
Import Py PyFacts Text TextFacts Ingest.

(** ** The tests of tests/test_full_ingest.py and
       tests/test_light_build_store.py *)

Example test_chunk_text_respects_overlap :
  chunk_text ten_words 4 1
  = Ok (map str_of ["w0 w1 w2 w3"; "w3 w4 w5 w6"; "w6 w7 w8 w9"; "w9"]).
Proof. reflexivity. Qed.

Example test_chunk_text_handles_large_overlap :
  exists chunks,
    chunk_text ten_words 3 5 = Ok chunks /\
    firstn 3 chunks = map str_of ["w0 w1 w2"; "w1 w2 w3"; "w2 w3 w4"] /\
    last chunks [] = str_of "w9".
Proof. eexists. split; [reflexivity|]. split; reflexivity. Qed.

(** ** Windows of words *)

Lemma firstn_add {A : Type} (a b : nat) (l : list A) :
  firstn (a + b) l = firstn a l ++ firstn b (skipn a l).
Proof.
  revert l. induction a as [|a IH]; intro l; [reflexivity|].
  destruct l as [|x l]; simpl.
  - rewrite firstn_nil. reflexivity.
  - rewrite IH. reflexivity.
Qed.

Lemma firstn_clip {A : Type} (a b : nat) (l : list A) :
  Nat.min a (length l) = Nat.min b (length l) -> firstn a l = firstn b l.
Proof.
  intro H. destruct (Nat.le_gt_cases (length l) a) as [La|La];
    destruct (Nat.le_gt_cases (length l) b) as [Lb|Lb].
  - rewrite !firstn_all2 by assumption. reflexivity.
  - lia.
  - lia.
  - f_equal. lia.
Qed.

(** [words[i : i + max_len]] for a [max_len] that is not negative. *)
Lemma slice_window {A : Type} (ws : list A) (i : nat) (m : Z) :
  (0 <= m)%Z ->
  slice ws i (Z.of_nat i + m) = firstn (Z.to_nat m) (skipn i ws).
Proof.
  intro M. unfold slice.
  assert (X : (Z.of_nat i + m <? 0)%Z = false) by (apply Z.ltb_ge; lia).
  rewrite X. apply firstn_clip. rewrite length_skipn. lia.
Qed.

(** The rounded-up quotient that counts a range. *)
Lemma ceil_div_lt (n s j : nat) :
  0 < s -> j < (n + s - 1) / s -> j * s < n.
Proof.
  intros S J. pose proof (Nat.Div0.mul_div_le (n + s - 1) s). nia.
Qed.

Lemma ceil_div_ge (n s : nat) : 0 < s -> n <= ((n + s - 1) / s) * s.
Proof.
  intro S. pose proof (Nat.div_mod_eq (n + s - 1) s).
  pose proof (Nat.mod_upper_bound (n + s - 1) s). nia.
Qed.

Lemma ceil_div_zero (n s : nat) : 0 < s -> ((n + s - 1) / s = 0 <-> n = 0).
Proof.
  intro S. rewrite Nat.div_small_iff by lia. lia.
Qed.

Lemma range_positive (stop : nat) (step : Z) :
  (1 <= step)%Z ->
  range_from_zero stop step
  = Ok (map (fun j => j * Z.to_nat step)
            (seq 0 ((stop + Z.to_nat step - 1) / Z.to_nat step))).
Proof.
  intro S. unfold range_from_zero.
  assert (X : (step =? 0)%Z = false) by (apply Z.eqb_neq; lia).
  assert (Y : (step <? 0)%Z = false) by (apply Z.ltb_ge; lia).
  rewrite X, Y. reflexivity.
Qed.

Section Windows.
Variables (text : str) (max_len overlap : Z).

Local Abbreviation words := (split text).
Local Abbreviation step := (chunk_step max_len overlap).
Local Abbreviation count := ((length words + step - 1) / step).

Lemma chunk_step_pos : 0 < step.
Proof. unfold chunk_step. lia. Qed.

(** The chunks, window by window. *)
Lemma chunk_text_windows :
  (0 <= max_len)%Z ->
  chunk_text text max_len overlap
  = Ok (map (fun j => join space
                        (firstn (Z.to_nat max_len) (skipn (j * step) words)))
            (seq 0 count)).
Proof.
  intro M. unfold chunk_text.
  rewrite range_positive by lia. cbn [bind]. f_equal.
  rewrite map_map. apply map_ext. intro j.
  rewrite slice_window by assumption. reflexivity.
Qed.

Lemma window_words (j : nat) :
  Forall is_word (firstn (Z.to_nat max_len) (skipn (j * step) words)).
Proof.
  pose proof (split_words text) as W. rewrite Forall_forall in *.
  intros w I. apply W. apply In_firstn in I.
  rewrite <- (firstn_skipn (j * step) words). apply in_or_app. auto.
Qed.

(** Splitting the chunks gives the windows back. *)
Lemma chunk_text_split :
  (0 <= max_len)%Z ->
  exists chunks,
    chunk_text text max_len overlap = Ok chunks /\
    map split chunks
    = map (fun j => firstn (Z.to_nat max_len) (skipn (j * step) words))
          (seq 0 count).
Proof.
  intro M. eexists. split; [apply chunk_text_windows; assumption|].
  rewrite map_map. apply map_ext. intro j.
  apply split_join. apply window_words.
Qed.
End Windows.

(** Every chunk holds at least one word and at most [max_len], and a text
    without a word gives no chunk. *)
Lemma chunk_text_bounds (text : str) (max_len overlap : Z) :
  (1 <= max_len)%Z ->
  exists chunks,
    chunk_text text max_len overlap = Ok chunks /\
    (split text = [] -> chunks = []) /\
    Forall (fun c => 1 <= length (split c) <= Z.to_nat max_len) chunks.
Proof.
  intro M.
  destruct (chunk_text_split text max_len overlap) as (chunks & R & Sp);
    [lia|].
  pose proof (chunk_step_pos max_len overlap) as P.
  exists chunks. split; [assumption|]. split.
  - intro E. apply length_zero_iff_nil.
    rewrite <- (length_map split chunks), Sp, length_map, length_seq.
    apply ceil_div_zero; [assumption|]. rewrite E. reflexivity.
  - apply Forall_forall. intros c I.
    assert (I' : In (split c) (map split chunks))
      by (apply in_map; assumption).
    rewrite Sp in I'. apply in_map_iff in I'. destruct I' as (j & <- & Ij).
    apply in_seq in Ij.
    assert (j * chunk_step max_len overlap < length (split text))
      by (apply ceil_div_lt; [assumption|lia]).
    rewrite length_firstn, length_skipn. lia.
Qed.

(** ** Properties of the chunks *)

(** X9.  For [max_len >= 1] the chunking returns
    [ceil(n / step)] chunks for a text of [n] words, with
    [step = max(1, max_len - overlap)]: none exactly when the text has no
    word; every chunk holds at least one and at most [max_len] words. *)
Theorem chunk_text_sizes (text : str) (max_len overlap : Z) :
  (1 <= max_len)%Z ->
  exists chunks,
    chunk_text text max_len overlap = Ok chunks /\
    length chunks
    = (length (split text) + chunk_step max_len overlap - 1)
      / chunk_step max_len overlap /\
    (chunks = [] <-> split text = []) /\
    Forall (fun c => 1 <= length (split c) <= Z.to_nat max_len) chunks.
Proof.
  intro M.
  destruct (chunk_text_split text max_len overlap) as (chunks & R & S);
    [lia|].
  pose proof (chunk_step_pos max_len overlap) as P.
  assert (L : length chunks
              = (length (split text) + chunk_step max_len overlap - 1)
                / chunk_step max_len overlap).
  { rewrite <- (length_map split chunks), S, length_map, length_seq.
    reflexivity. }
  exists chunks. split; [assumption|]. split; [assumption|]. split.
  - rewrite <- !length_zero_iff_nil, L. apply ceil_div_zero. assumption.
  - apply Forall_forall. intros c I.
    assert (I' : In (split c) (map split chunks))
      by (apply in_map; assumption).
    rewrite S in I'. apply in_map_iff in I'. destruct I' as (j & <- & Ij).
    apply in_seq in Ij.
    assert (j * chunk_step max_len overlap < length (split text))
      by (apply ceil_div_lt; [assumption|lia]).
    rewrite length_firstn, length_skipn. lia.
Qed.

Lemma chunk_text_sizes_witness :
  exists chunks,
    chunk_text ten_words 4 1 = Ok chunks /\
    length chunks
    = (length (split ten_words) + chunk_step 4 1 - 1) / chunk_step 4 1 /\
    (chunks = [] <-> split ten_words = []) /\
    Forall (fun c => 1 <= length (split c) <= Z.to_nat 4) chunks.
Proof. apply (chunk_text_sizes ten_words 4%Z 1%Z). lia. Defined.

Lemma concat_windows {A : Type} (l : list A) (s c : nat) :
  concat (map (fun j => firstn s (skipn (j * s) l)) (seq 0 c))
  = firstn (c * s) l.
Proof.
  induction c as [|c IH]; [reflexivity|].
  rewrite seq_S, map_app, concat_app, IH. simpl.
  rewrite app_nil_r, <- firstn_add. f_equal. lia.
Qed.

(** X10.  No word is lost: for [max_len >= 1] and [overlap >= 0], the
    first [step] words of every chunk, put end to end, are the words of
    the text. *)
Theorem chunk_text_spells_the_text (text : str) (max_len overlap : Z) :
  (1 <= max_len)%Z -> (0 <= overlap)%Z ->
  exists chunks,
    chunk_text text max_len overlap = Ok chunks /\
    concat (map (fun c => firstn (chunk_step max_len overlap) (split c))
                chunks)
    = split text.
Proof.
  intros M O.
  destruct (chunk_text_split text max_len overlap) as (chunks & R & S);
    [lia|].
  exists chunks. split; [assumption|].
  pose proof (chunk_step_pos max_len overlap) as P.
  rewrite <- (map_map split (firstn (chunk_step max_len overlap))), S.
  rewrite map_map.
  rewrite (map_ext _ (fun j => firstn (chunk_step max_len overlap)
                                 (skipn (j * chunk_step max_len overlap)
                                        (split text)))).
  - rewrite concat_windows. apply firstn_all2. apply ceil_div_ge. assumption.
  - intro j. rewrite firstn_firstn. f_equal. unfold chunk_step. lia.
Qed.

Lemma chunk_text_spells_the_text_witness :
  exists chunks,
    chunk_text ten_words 4 1 = Ok chunks /\
    concat (map (fun c => firstn (chunk_step 4 1) (split c)) chunks)
    = split ten_words.
Proof. apply (chunk_text_spells_the_text ten_words 4%Z 1%Z); lia. Defined.

(** X11.  Neighbouring chunks overlap: what a chunk holds beyond its first
    [step] words is the beginning of the next chunk, and these are
    [overlap] words when the chunk is full ([0 <= overlap < max_len]). *)
Theorem chunk_text_neighbours_overlap (text : str) (max_len overlap : Z) :
  (0 <= overlap < max_len)%Z ->
  exists chunks,
    chunk_text text max_len overlap = Ok chunks /\
    forall j c c',
      nth_error chunks j = Some c -> nth_error chunks (S j) = Some c' ->
      skipn (chunk_step max_len overlap) (split c)
      = firstn (length (split c) - chunk_step max_len overlap) (split c') /\
      (length (split c) = Z.to_nat max_len ->
       length (skipn (chunk_step max_len overlap) (split c))
       = Z.to_nat overlap).
Proof.
  intros [O M].
  destruct (chunk_text_split text max_len overlap) as (chunks & R & Sp);
    [lia|].
  exists chunks. split; [assumption|]. intros j c c' Hc Hc'.
  set (s := chunk_step max_len overlap) in *.
  set (m := Z.to_nat max_len) in *.
  assert (W : forall i x, nth_error chunks i = Some x ->
                split x = firstn m (skipn (i * s) (split text))).
  { intros i x H. apply (map_nth_error split) in H. rewrite Sp in H.
    rewrite nth_error_map in H.
    destruct (nth_error (seq 0 _) i) as [i'|] eqn:E; [|discriminate].
    assert (Li : i < length (seq 0 ((length (split text) + s - 1) / s)))
      by (apply nth_error_Some; congruence).
    rewrite length_seq in Li.
    rewrite (nth_error_nth' _ 0) in E by (rewrite length_seq; exact Li).
    rewrite seq_nth in E by exact Li. simpl in E, H. congruence. }
  rewrite (W j c Hc), (W (S j) c' Hc'). split.
  - rewrite skipn_firstn_comm, skipn_skipn, firstn_firstn.
    replace (s + j * s) with (S j * s) by lia.
    apply firstn_clip. rewrite !length_firstn, !length_skipn. lia.
  - intro F. rewrite length_skipn, F. unfold s, m, chunk_step. lia.
Qed.

Lemma chunk_text_neighbours_overlap_witness :
  exists chunks,
    chunk_text ten_words 4 1 = Ok chunks /\
    forall j c c',
      nth_error chunks j = Some c -> nth_error chunks (S j) = Some c' ->
      skipn (chunk_step 4 1) (split c)
      = firstn (length (split c) - chunk_step 4 1) (split c') /\
      (length (split c) = Z.to_nat 4 ->
       length (skipn (chunk_step 4 1) (split c)) = Z.to_nat 1).
Proof. apply (chunk_text_neighbours_overlap ten_words 4%Z 1%Z). lia. Defined.

(** X12.  The version of ingest.py, which takes the step as
    [max_len - overlap], agrees with the guarded one when
    [overlap < max_len]; it raises [ValueError] when [overlap = max_len]
    and returns no chunk at all when [overlap > max_len], where the
    guarded one returns a chunk for every word ([max_len >= 0]). *)
Theorem chunk_text_unguarded_step (text : str) (max_len overlap : Z) :
  ((overlap < max_len)%Z ->
   chunk_text_unguarded text max_len overlap
   = chunk_text text max_len overlap) /\
  ((overlap = max_len)%Z ->
   chunk_text_unguarded text max_len overlap = Raise ValueError) /\
  ((max_len < overlap)%Z ->
   chunk_text_unguarded text max_len overlap = Ok []) /\
  ((0 <= max_len <= overlap)%Z ->
   exists chunks,
     chunk_text text max_len overlap = Ok chunks /\
     length chunks = length (split text)).
Proof.
  split; [|split; [|split]].
  - intro L. unfold chunk_text_unguarded, chunk_text.
    replace (Z.max 1 (max_len - overlap)) with (max_len - overlap)%Z by lia.
    reflexivity.
  - intros ->. unfold chunk_text_unguarded, range_from_zero.
    rewrite Z.sub_diag. reflexivity.
  - intro L. unfold chunk_text_unguarded, range_from_zero.
    assert (X : (max_len - overlap =? 0)%Z = false) by (apply Z.eqb_neq; lia).
    assert (Y : (max_len - overlap <? 0)%Z = true) by (apply Z.ltb_lt; lia).
    rewrite X, Y. reflexivity.
  - intros [M L]. eexists. split; [apply chunk_text_windows; assumption|].
    rewrite length_map, length_seq.
    replace (chunk_step max_len overlap) with 1 by (unfold chunk_step; lia).
    rewrite Nat.div_1_r. lia.
Qed.

Lemma chunk_text_unguarded_step_witness :
  chunk_text_unguarded ten_words 4 1 = chunk_text ten_words 4 1 /\
  chunk_text_unguarded ten_words 3 3 = Raise ValueError /\
  chunk_text_unguarded ten_words 3 5 = Ok [] /\
  exists chunks,
    chunk_text ten_words 3 5 = Ok chunks /\
    length chunks = length (split ten_words).
Proof.
  split; [|split; [|split]].
  - apply (proj1 (chunk_text_unguarded_step ten_words 4%Z 1%Z)). lia.
  - apply (proj1 (proj2 (chunk_text_unguarded_step ten_words 3%Z 3%Z))).
    reflexivity.
  - apply (proj1 (proj2 (proj2
             (chunk_text_unguarded_step ten_words 3%Z 5%Z)))). lia.
  - apply (proj2 (proj2 (proj2
             (chunk_text_unguarded_step ten_words 3%Z 5%Z)))). lia.
Defined.

End IngestSpec.

(* ================================================================== *)
(** * Properties of the language check and of the translation *)
(* ================================================================== *)

Module BuildStoreSpec.
Import Py Text BuildStore.

(** ** The test of tests/test_light_build_store.py *)

Example test_looks_like_russian_detects_script :
  _looks_like_russian basic_isalpha basic_lower privet_world = true /\
  _looks_like_russian basic_isalpha basic_lower (str_of "Hello world")
  = false /\
  _looks_like_russian basic_isalpha basic_lower [] = true.
Proof. repeat split; reflexivity. Qed.

Section UnicodeFacts.
Variable isalpha : N -> bool.
Variable lower : N -> str.

Local Abbreviation looks := (_looks_like_russian isalpha lower).
Local Abbreviation count := (count_letters isalpha).

Lemma count_letters_app (p : N -> bool) (a b : str) :
  count p (a ++ b) = count p a + count p b.
Proof.
  unfold count_letters. rewrite !filter_app, length_app. reflexivity.
Qed.

(** The guard for the empty text changes nothing: the verdict is
    [cyr >= lat] throughout. *)
Lemma looks_like_russian_counts (text : str) :
  looks text
  = Nat.leb (count (is_latin lower) text) (count (is_cyrillic lower) text).
Proof. destruct text; reflexivity. Qed.

(** X13.  A text put together from two texts that look Russian looks
    Russian. *)
Theorem looks_like_russian_concat (a b : str) :
  looks a = true -> looks b = true -> looks (a ++ b) = true.
Proof.
  rewrite !looks_like_russian_counts, !count_letters_app.
  rewrite !Nat.leb_le. lia.
Qed.

Lemma filter_idempotent {A : Type} (f : A -> bool) (l : list A) :
  filter f (filter f l) = filter f l.
Proof.
  induction l as [|x l IH]; simpl; [reflexivity|].
  destruct (f x) eqn:E; simpl; [rewrite E, IH|]; auto.
Qed.

(** X14.  Only letters count: dropping every character that is not a
    letter leaves the verdict as it is, and a text with no Latin letter
    looks Russian, in particular a text with no letter at all. *)
Theorem looks_like_russian_letters_only (text : str) :
  looks text = looks (filter isalpha text) /\
  ((forall ch, In ch text -> isalpha ch = true -> is_latin lower ch = false)
   -> looks text = true).
Proof.
  split.
  - rewrite !looks_like_russian_counts. unfold count_letters.
    rewrite filter_idempotent. reflexivity.
  - intro H. rewrite looks_like_russian_counts.
    assert (Z : count (is_latin lower) text = 0).
    { unfold count_letters. apply length_zero_iff_nil.
      destruct (filter (is_latin lower) (filter isalpha text)) as [|c l] eqn:E;
        [reflexivity|].
      assert (I : In c (filter (is_latin lower) (filter isalpha text)))
        by (rewrite E; simpl; auto).
      apply filter_In in I. destruct I as [I L].
      apply filter_In in I. destruct I as [I Al].
      rewrite (H c I Al) in L. discriminate. }
    rewrite Z. reflexivity.
Qed.

(** X15.  The translation step leaves a text that looks Russian (and the
    empty text) as it is; otherwise it returns what the first translator
    that does not raise makes of the text, and the text itself when every
    translator raises or there is none. *)
Theorem translate_to_ru_first_that_works
  (translators : list (string * (str -> result str))) (text : str) :
  (looks text = true -> _translate_to_ru isalpha lower translators text = text)
  /\
  (looks text = false ->
   forall before code translate after out,
     translators = before ++ (code, translate) :: after ->
     (forall c t, In (c, t) before -> exists e, t text = Raise e) ->
     translate text = Ok out ->
     _translate_to_ru isalpha lower translators text = out) /\
  ((forall c t, In (c, t) translators -> exists e, t text = Raise e) ->
   _translate_to_ru isalpha lower translators text = text).
Proof.
  assert (F : forall ts, (forall c t, In (c, t) ts -> exists e, t text = Raise e)
                         -> forall tl, first_translation (ts ++ tl) text
                                       = first_translation tl text).
  { induction ts as [|[c t] ts IH]; intros H tl; [reflexivity|].
    simpl. destruct (H c t (or_introl eq_refl)) as (e & ->).
    apply IH. intros c' t' I. apply (H c' t'). right. assumption. }
  split; [|split].
  - intro L. unfold _translate_to_ru. destruct text; [reflexivity|].
    rewrite L. reflexivity.
  - intros L before code translate after out -> B T.
    unfold _translate_to_ru. destruct text as [|ch text'];
      [discriminate L|].
    rewrite L. rewrite (F before B). simpl. rewrite T.
    destruct before; reflexivity.
  - intro H. unfold _translate_to_ru. destruct text as [|ch text'];
      [reflexivity|].
    destruct (_looks_like_russian isalpha lower (ch :: text'));
      [reflexivity|].
    rewrite <- (app_nil_r translators), (F translators H []).
    destruct (translators ++ []); reflexivity.
Qed.
End UnicodeFacts.

Lemma looks_like_russian_concat_witness :
  _looks_like_russian basic_isalpha basic_lower
    (privet_world ++ str_of " 2024") = true.
Proof.
  apply (looks_like_russian_concat basic_isalpha basic_lower
           privet_world (str_of " 2024")); reflexivity.
Defined.

Lemma looks_like_russian_letters_only_witness :
  _looks_like_russian basic_isalpha basic_lower (str_of "2024: 100%")
  = true.
Proof.
  apply (proj2 (looks_like_russian_letters_only basic_isalpha basic_lower
                  (str_of "2024: 100%"))).
  intros ch I A. simpl in I.
  repeat (destruct I as [<-|I]; [discriminate A|]). contradiction.
Defined.

Lemma translate_to_ru_first_that_works_witness :
  _translate_to_ru basic_isalpha basic_lower [] privet_world = privet_world /\
  _translate_to_ru basic_isalpha basic_lower
    [("de", broken_translator); ("en", fixed_translator)]
    (str_of "Hello world") = str_of "mir" /\
  _translate_to_ru basic_isalpha basic_lower [("de", broken_translator)]
    (str_of "Hello world") = str_of "Hello world".
Proof.
  split; [|split].
  - apply (proj1 (translate_to_ru_first_that_works basic_isalpha basic_lower
                    [] privet_world)). reflexivity.
  - apply (proj1 (proj2 (translate_to_ru_first_that_works
                           basic_isalpha basic_lower
                           [("de", broken_translator); ("en", fixed_translator)]
                           (str_of "Hello world")))
             eq_refl [("de", broken_translator)] "en" fixed_translator []).
    + reflexivity.
    + intros c t [E|[]]. injection E as <- <-. eexists. reflexivity.
    + reflexivity.
  - apply (proj2 (proj2 (translate_to_ru_first_that_works
                           basic_isalpha basic_lower
                           [("de", broken_translator)]
                           (str_of "Hello world")))).
    intros c t [E|[]]. injection E as <- <-. eexists. reflexivity.
Defined.

End BuildStoreSpec.

(* ================================================================== *)
(** * Properties of the chat client *)
(* ================================================================== *)

Module LLMClientSpec.
Import Py LLMClient.

Lemma attempts_skip_failures (post : nat -> result string) (k : nat) :
  forall rounds made err,
    (forall i, made <= i < made + k -> exists e, post i = Raise e) ->
    exists err',
      attempts post (k + rounds) made err
      = attempts post rounds (made + k) err' /\
      (k = 0 -> err' = err) /\
      (0 < k -> exists e, post (made + k - 1) = Raise e /\ err' = Some e).
Proof.
  induction k as [|k IH]; intros rounds made err H.
  - exists err. rewrite Nat.add_0_r. repeat split; auto. lia.
  - destruct (H made) as (e & E); [lia|].
    destruct (IH rounds (S made) (Some e)) as (err' & R & Z & P).
    { intros i B. apply H. lia. }
    exists err'. simpl. rewrite E, R.
    replace (S made + k) with (made + S k) by lia.
    split; [reflexivity|]. split; [lia|]. intros _.
    destruct k as [|k'].
    + exists e. rewrite (Z eq_refl).
      replace (made + 1 - 1) with made by lia. auto.
    + destruct P as (e' & E' & ->); [lia|]. exists e'.
      replace (made + S (S k') - 1) with (S made + S k' - 1) by lia. auto.
Qed.

(** X16.  The reply of the first request that succeeds is returned, after
    exactly as many requests as it took, when that request is among the
    [retries + 1] the loop allows. *)
Theorem generate_returns_first_success (retries : Z)
  (post : nat -> result string) (r : nat) (content : string) :
  (forall i, i < r -> exists e, post i = Raise e) ->
  post r = Ok content ->
  (Z.of_nat r <= retries)%Z ->
  generate retries post = (Content content, S r).
Proof.
  intros F Hr B. unfold generate.
  replace (Z.to_nat (retries + 1)) with (r + S (Z.to_nat retries - r)) by lia.
  destruct (attempts_skip_failures post r (S (Z.to_nat retries - r)) 0 None)
    as (err' & R & _).
  { intros i I. apply F. lia. }
  rewrite R. simpl. rewrite Hr. reflexivity.
Qed.

Lemma generate_returns_first_success_witness :
  generate 2 third_time_lucky = (Content "answer", 3).
Proof.
  apply (generate_returns_first_success 2%Z third_time_lucky 2 "answer").
  - intros i I. destruct i as [|[|i]]; [eexists; reflexivity ..|lia].
  - reflexivity.
  - lia.
Defined.

(** X17.  When each of the [retries + 1] requests fails, [generate] ends
    with [RuntimeError] carrying the last failure, after exactly
    [retries + 1] requests; with a negative [retries] it sends no request
    and the error carries [None]. *)
Theorem generate_gives_up_after_retries (retries : Z)
  (post : nat -> result string) :
  (forall i, (Z.of_nat i <= retries)%Z -> exists e, post i = Raise e) ->
  exists err,
    generate retries post = (RuntimeError err, Z.to_nat (retries + 1)) /\
    ((retries < 0)%Z -> err = None) /\
    ((0 <= retries)%Z ->
     exists e, post (Z.to_nat retries) = Raise e /\ err = Some e).
Proof.
  intro F. unfold generate.
  destruct (attempts_skip_failures post (Z.to_nat (retries + 1)) 0 0 None)
    as (err' & R & Z0 & P).
  { intros i I. apply F. lia. }
  exists err'. rewrite Nat.add_0_r in R. rewrite R. simpl.
  split; [reflexivity|]. split.
  - intro N. apply Z0. lia.
  - intro N. destruct P as (e & E & ->); [lia|]. exists e.
    replace (Z.to_nat retries) with (0 + Z.to_nat (retries + 1) - 1) by lia.
    auto.
Qed.

Lemma generate_gives_up_after_retries_witness :
  exists err,
    generate 2 always_down = (RuntimeError err, Z.to_nat (2 + 1)) /\
    ((2 < 0)%Z -> err = None) /\
    ((0 <= 2)%Z ->
     exists e, always_down (Z.to_nat 2) = Raise e /\ err = Some e).
Proof.
  apply (generate_gives_up_after_retries 2%Z always_down).
  intros i _. eexists. reflexivity.
Defined.

End LLMClientSpec.

(* ================================================================== *)
(** * Properties of the search in the local store *)
(* ================================================================== *)

Module LightSearchSpec.
Import Py PyFacts Retriever RetrieverSpec LightSearch.

(** ** Sorted lists *)

Section SortedLists.
Variables (A : Type) (R : A -> A -> Prop).

Lemma sorted_filter (f : A -> bool) (l : list A) :
  StronglySorted R l -> StronglySorted R (filter f l).
Proof.
  induction 1 as [|x l S IH F]; simpl; [constructor|].
  destruct (f x); [|assumption].
  constructor; [assumption|].
  rewrite Forall_forall in *. intros y I. apply filter_In in I. apply F, I.
Qed.

Lemma sorted_app_inv (l1 l2 : list A) :
  StronglySorted R (l1 ++ l2) ->
  StronglySorted R l1 /\
  forall a b, In a l1 -> In b l2 -> R a b.
Proof.
  induction l1 as [|x l1 IH]; simpl; intro S.
  - split; [constructor|]. intros a b [].
  - apply StronglySorted_inv in S. destruct S as [S F].
    destruct (IH S) as [S1 C]. rewrite Forall_forall in F. split.
    + constructor; [assumption|]. rewrite Forall_forall. intros y I.
      apply F. apply in_or_app. auto.
    + intros a b [<-|I] Ib; [apply F; apply in_or_app|]; auto.
Qed.

Lemma sorted_firstn (n : nat) (l : list A) :
  StronglySorted R l -> StronglySorted R (firstn n l).
Proof.
  intro S. rewrite <- (firstn_skipn n l) in S.
  apply (sorted_app_inv _ _ S).
Qed.

(** A sorted list stays sorted under a weaker relation that holds of its
    items. *)
Lemma sorted_weaken (R' : A -> A -> Prop) (l : list A) :
  (forall a b, In a l -> In b l -> R a b -> R' a b) ->
  StronglySorted R l -> StronglySorted R' l.
Proof.
  intros W S. induction S as [|x l S IH F]; constructor.
  - apply IH. intros a b Ia Ib. apply W; simpl; auto.
  - rewrite Forall_forall in *. intros y I.
    apply W; simpl; auto.
Qed.
End SortedLists.

Lemma sorted_map {A B : Type} (R : B -> B -> Prop) (f : A -> B) (l : list A) :
  StronglySorted (fun a b => R (f a) (f b)) l -> StronglySorted R (map f l).
Proof.
  induction 1 as [|x l S IH F]; simpl; constructor; [assumption|].
  rewrite Forall_forall in *. intros y I. apply in_map_iff in I.
  destruct I as (z & <- & I). auto.
Qed.

(** ** The comprehension *)

Lemma positive_hits_spec (scores : vector) (idx : list nat) :
  Forall (fun i => i < length scores) idx ->
  positive_hits scores idx
  = Ok (map (hit_at scores) (filter (positive_at scores) idx)).
Proof.
  induction 1 as [|i idx L F IH]; [reflexivity|].
  simpl. unfold getitem. rewrite (nth_error_nth' scores NaN L).
  cbn [bind]. rewrite IH. cbn [bind]. cbn [filter].
  change (positive_at scores i) with (float_gt (nth i scores NaN) zero).
  destruct (float_gt (nth i scores NaN) zero); reflexivity.
Qed.

Lemma nth_negated (scores : vector) (i : nat) :
  nth i (map f32_neg scores) NaN = f32_neg (nth i scores NaN).
Proof. exact (map_nth f32_neg scores NaN i). Qed.

(** In the order of the negated scores, an index stands in front of the
    indices whose score is no higher; an index whose score is not NaN
    stands in front of no index whose score is higher. *)
Lemma np_le_negated (x y : float) :
  np_le (f32_neg x) (f32_neg y) = true -> is_nan y = false ->
  float_ge x y = true.
Proof.
  unfold np_le. rewrite float_ge_neg, is_nan_neg. intros H N.
  rewrite N, orb_false_r in H. exact H.
Qed.

Section SearchFacts.
Variable dot : vector -> vector -> float.
Variable encode : string -> result vector.
Variable argsort : vector -> list nat.
Variables (query : string) (embeddings : ndarray2) (query_vec : vector).

Local Abbreviation scores := (similarities dot embeddings query_vec).
Local Abbreviation order := (argsort (map f32_neg scores)).

Hypothesis encoded : encode query = Ok query_vec.
Hypothesis same_length : length query_vec = ncols embeddings.
Hypothesis sorted : sorts (map f32_neg scores) order.

Lemma order_indices (i : nat) : In i order -> i < length scores.
Proof using sorted.
  clear encoded same_length.
  intro I. destruct sorted as [P _]. apply (Permutation_in _ P) in I.
  apply in_seq in I. rewrite length_map in I. lia.
Qed.

Lemma order_NoDup : NoDup order.
Proof using sorted.
  destruct sorted as [P _].
  apply (Permutation_NoDup (Permutation_sym P)), seq_NoDup.
Qed.

(** In the order of [argsort(-scores)] an index stands in front of the
    indices whose score is no higher, and of those whose score is NaN. *)
Lemma order_descending :
  StronglySorted
    (fun a b => np_le (f32_neg (nth a scores NaN)) (f32_neg (nth b scores NaN))
                = true) order.
Proof using sorted.
  destruct sorted as [_ S]. revert S. apply sorted_weaken.
  intros a b _ _. rewrite !nth_negated. auto.
Qed.

(** What [_search] returns, for the cut [m] of the slice. *)
Lemma search_result (topk : Z) :
  exists m,
    slice_to order topk = firstn m order /\
    _search dot encode argsort query embeddings topk
    = Ok (map (hit_at scores)
              (filter (positive_at scores) (firstn m order))).
Proof.
  destruct (slice_to_firstn order topk) as (m & E).
  exists m. split; [assumption|].
  unfold _search, matvec. rewrite encoded. cbn [bind].
  rewrite same_length, Nat.eqb_refl. cbn [bind].
  fold (similarities dot embeddings query_vec). rewrite E.
  apply positive_hits_spec. rewrite Forall_forall. intros i I.
  apply order_indices. eapply In_firstn. eassumption.
Qed.
End SearchFacts.

(** ** Properties of [_search] *)

(** X18.  When the query is embedded into a vector of the rows' length,
    [_search] returns hits with pairwise different row indices, each with
    the similarity [dot(embeddings[i], query_vec)] of its row as a Python
    float, which is greater than zero, in descending order of similarity;
    at most [topk] of them for [topk >= 0], and none when no row has a
    similarity greater than zero. *)
Theorem search_returns_positive_hits_best_first
  (dot : vector -> vector -> float)
  (encode : string -> result vector) (argsort : vector -> list nat)
  (query : string) (embeddings : ndarray2) (query_vec : vector) (topk : Z) :
  encode query = Ok query_vec ->
  length query_vec = ncols embeddings ->
  sorts (map f32_neg (similarities dot embeddings query_vec))
        (argsort (map f32_neg (similarities dot embeddings query_vec))) ->
  exists hits,
    _search dot encode argsort query embeddings topk = Ok hits /\
    Forall (fun h =>
              lh_index h < nrows embeddings /\
              lh_score h
              = to_float64 (spec_rel dot query_vec embeddings (lh_index h)) /\
              float_gt (spec_rel dot query_vec embeddings (lh_index h)) zero
              = true) hits /\
    NoDup (map lh_index hits) /\
    StronglySorted
      (fun a b =>
         float_ge (spec_rel dot query_vec embeddings (lh_index a))
                  (spec_rel dot query_vec embeddings (lh_index b)) = true)
      hits /\
    ((0 <= topk)%Z -> length hits <= Z.to_nat topk) /\
    ((forall j, j < nrows embeddings ->
                float_gt (spec_rel dot query_vec embeddings j) zero = false) ->
     hits = []).
Proof.
  intros E D S.
  destruct (search_result dot encode argsort query embeddings query_vec
                          E D S topk) as (m & Sl & R).
  pose proof (order_descending dot argsort embeddings query_vec S) as Desc.
  set (sc := similarities dot embeddings query_vec) in *.
  set (order := argsort (map f32_neg sc)) in *.
  assert (Sim : forall i, i < nrows embeddings ->
                  nth i sc NaN = spec_rel dot query_vec embeddings i).
  { intros i L. unfold sc, similarities. apply matvec_nth. exact L. }
  assert (Idx : forall i, In i (filter (positive_at sc) (firstn m order)) ->
                  i < nrows embeddings /\
                  float_gt (spec_rel dot query_vec embeddings i) zero = true).
  { intros i I. apply filter_In in I. destruct I as [I P].
    apply In_firstn in I.
    pose proof (order_indices dot argsort embeddings query_vec S i I) as L.
    unfold similarities in L. rewrite length_map in L.
    split; [exact L|]. unfold positive_at in P. rewrite (Sim i L) in P.
    exact P. }
  assert (Props : Forall (fun h =>
              lh_index h < nrows embeddings /\
              lh_score h
              = to_float64 (spec_rel dot query_vec embeddings (lh_index h)) /\
              float_gt (spec_rel dot query_vec embeddings (lh_index h)) zero
              = true)
             (map (hit_at sc) (filter (positive_at sc) (firstn m order)))).
  { rewrite Forall_forall. intros h I. apply in_map_iff in I.
    destruct I as (i & <- & I). destruct (Idx i I) as [L P].
    simpl. rewrite (Sim i L). auto. }
  eexists. split; [exact R|]. split; [exact Props|]. split; [|split; [|split]].
  - rewrite map_map. simpl. rewrite map_id.
    apply NoDup_filter, NoDup_firstn.
    apply (order_NoDup dot argsort embeddings query_vec S).
  - apply (sorted_map
             (fun a b =>
                float_ge (spec_rel dot query_vec embeddings (lh_index a))
                         (spec_rel dot query_vec embeddings (lh_index b))
                = true) (hit_at sc)).
    simpl.
    apply (sorted_weaken _
             (fun a b => np_le (f32_neg (nth a sc NaN)) (f32_neg (nth b sc NaN))
                         = true)).
    + intros a b Ia Ib H.
      destruct (Idx a Ia) as [La _]. destruct (Idx b Ib) as [Lb Pb].
      rewrite (Sim a La), (Sim b Lb) in H.
      apply np_le_negated; [exact H|].
      apply (float_gt_not_nan _ _ Pb).
    + apply sorted_filter, sorted_firstn. exact Desc.
  - intro K. rewrite length_map.
    pose proof (filter_length_le (positive_at sc) (firstn m order)) as F.
    assert (length (firstn m order) <= Z.to_nat topk); [|lia].
    rewrite <- Sl. unfold slice_to. apply Z.leb_le in K. rewrite K.
    rewrite length_firstn. lia.
  - intro NP.
    destruct (map (hit_at sc) (filter (positive_at sc) (firstn m order)))
      as [|h tl]; [reflexivity|].
    apply Forall_inv in Props. destruct Props as (L & _ & P).
    rewrite (NP _ L) in P. discriminate.
Qed.

Lemma search_returns_positive_hits_best_first_witness :
  exists hits,
    _search dot_in_order (fixed_embed scenario_q) fixed_argsort "query"
            scenario_C 2 = Ok hits /\
    Forall (fun h =>
              lh_index h < nrows scenario_C /\
              lh_score h
              = to_float64 (spec_rel dot_in_order scenario_q scenario_C
                                     (lh_index h)) /\
              float_gt (spec_rel dot_in_order scenario_q scenario_C
                                 (lh_index h)) zero = true) hits /\
    NoDup (map lh_index hits) /\
    StronglySorted
      (fun a b =>
         float_ge (spec_rel dot_in_order scenario_q scenario_C (lh_index a))
                  (spec_rel dot_in_order scenario_q scenario_C (lh_index b))
         = true) hits /\
    ((0 <= 2)%Z -> length hits <= Z.to_nat 2) /\
    ((forall j, j < nrows scenario_C ->
                float_gt (spec_rel dot_in_order scenario_q scenario_C j) zero
                = false) -> hits = []).
Proof.
  apply (search_returns_positive_hits_best_first dot_in_order
           (fixed_embed scenario_q) fixed_argsort "query" scenario_C
           scenario_q 2%Z).
  - reflexivity.
  - reflexivity.
  - split; [apply Permutation_refl|].
    repeat (constructor; [|repeat constructor; vm_compute; reflexivity]).
    constructor.
Defined.

(** X19.  Nothing better is left out: for [topk >= 0], a row that is not
    among the hits has a similarity that is not greater than zero, or the
    hits are [topk] rows that are each at least as similar to the query. *)
Theorem search_leaves_out_only_worse_rows
  (dot : vector -> vector -> float)
  (encode : string -> result vector) (argsort : vector -> list nat)
  (query : string) (embeddings : ndarray2) (query_vec : vector) (topk : Z) :
  encode query = Ok query_vec ->
  length query_vec = ncols embeddings ->
  sorts (map f32_neg (similarities dot embeddings query_vec))
        (argsort (map f32_neg (similarities dot embeddings query_vec))) ->
  (0 <= topk)%Z ->
  exists hits,
    _search dot encode argsort query embeddings topk = Ok hits /\
    forall j, j < nrows embeddings -> ~ In j (map lh_index hits) ->
      float_gt (spec_rel dot query_vec embeddings j) zero = false \/
      (length hits = Z.to_nat topk /\
       Forall (fun h =>
                 float_ge (spec_rel dot query_vec embeddings (lh_index h))
                          (spec_rel dot query_vec embeddings j) = true)
              hits).
Proof.
  intros E D S K.
  destruct (search_result dot encode argsort query embeddings query_vec
                          E D S topk) as (m & Sl & R).
  pose proof (order_descending dot argsort embeddings query_vec S) as Desc.
  pose proof (order_indices dot argsort embeddings query_vec S) as Ind.
  set (sc := similarities dot embeddings query_vec) in *.
  set (order := argsort (map f32_neg sc)) in *.
  assert (Sim : forall i, i < nrows embeddings ->
                  nth i sc NaN = spec_rel dot query_vec embeddings i).
  { intros i L. unfold sc, similarities. apply matvec_nth. exact L. }
  assert (Hm : m = Z.to_nat topk \/ firstn m order = order).
  { revert Sl. unfold slice_to. apply Z.leb_le in K. rewrite K. intro Sl.
    destruct (Nat.le_gt_cases (length order) (Z.to_nat topk)) as [G|G].
    - right. rewrite <- Sl. apply firstn_all2. assumption.
    - left. apply (f_equal (@length nat)) in Sl.
      rewrite !length_firstn in Sl. lia. }
  eexists. split; [exact R|]. intros j Lj Nj.
  rewrite map_map in Nj. simpl in Nj. rewrite map_id in Nj.
  assert (Ij : In j order).
  { destruct S as [P _]. apply (Permutation_in _ (Permutation_sym P)).
    apply in_seq. unfold sc, similarities. rewrite !length_map.
    unfold nrows in Lj. lia. }
  destruct (float_gt (spec_rel dot query_vec embeddings j) zero) eqn:Pos;
    [|left; reflexivity].
  assert (Out : ~ In j (firstn m order)).
  { intro I. apply Nj. apply filter_In. split; [assumption|].
    unfold positive_at. rewrite (Sim j Lj). assumption. }
  rewrite <- (firstn_skipn m order) in Ij, Desc.
  apply in_app_or in Ij. destruct Ij as [Ij|Ij]; [contradiction|].
  destruct (sorted_app_inv _ _ _ _ Desc) as [_ Cross].
  assert (Ge : forall a, In a (firstn m order) ->
                 float_ge (spec_rel dot query_vec embeddings a)
                          (spec_rel dot query_vec embeddings j) = true).
  { intros a Ia. pose proof (Cross a j Ia Ij) as X. simpl in X.
    assert (La : a < nrows embeddings).
    { apply In_firstn in Ia. apply Ind in Ia. unfold sc, similarities in Ia.
      rewrite length_map in Ia. exact Ia. }
    rewrite (Sim a La), (Sim j Lj) in X.
    apply np_le_negated; [exact X|]. apply (float_gt_not_nan _ _ Pos). }
  assert (All : forall a, In a (firstn m order) -> positive_at sc a = true).
  { intros a Ia. unfold positive_at.
    assert (La : a < nrows embeddings).
    { apply In_firstn in Ia. apply Ind in Ia. unfold sc, similarities in Ia.
      rewrite length_map in Ia. exact Ia. }
    rewrite (Sim a La). apply (float_ge_gt_trans _ _ _ (Ge a Ia) Pos). }
  right. rewrite forallb_filter_id by (apply forallb_forall; exact All).
  split.
  - rewrite length_map. destruct Hm as [->|Hm].
    + rewrite length_firstn.
      assert (length (skipn (Z.to_nat topk) order) <> 0).
      { intro Z0. apply length_zero_iff_nil in Z0. rewrite Z0 in Ij.
        contradiction. }
      rewrite length_skipn in H. lia.
    + exfalso. apply Out. rewrite Hm.
      rewrite <- (firstn_skipn m order). apply in_or_app. auto.
  - rewrite Forall_forall. intros h I. apply in_map_iff in I.
    destruct I as (a & <- & Ia). simpl. apply Ge. exact Ia.
Qed.

Lemma search_leaves_out_only_worse_rows_witness :
  exists hits,
    _search dot_in_order (fixed_embed scenario_q) fixed_argsort "query"
            scenario_C 1 = Ok hits /\
    forall j, j < nrows scenario_C -> ~ In j (map lh_index hits) ->
      float_gt (spec_rel dot_in_order scenario_q scenario_C j) zero = false \/
      (length hits = Z.to_nat 1 /\
       Forall (fun h =>
                 float_ge (spec_rel dot_in_order scenario_q scenario_C
                                    (lh_index h))
                          (spec_rel dot_in_order scenario_q scenario_C j)
                 = true)
              hits).
Proof.
  apply (search_leaves_out_only_worse_rows dot_in_order
           (fixed_embed scenario_q) fixed_argsort "query" scenario_C
           scenario_q 1%Z).
  - reflexivity.
  - reflexivity.
  - split; [apply Permutation_refl|].
    repeat (constructor; [|repeat constructor; vm_compute; reflexivity]).
    constructor.
  - lia.
Defined.

End LightSearchSpec.

(* ================================================================== *)
(** * Properties of the collection of documents *)
(* ================================================================== *)

Module CollectSpec.
Import Py PyFacts Text TextFacts Ingest IngestSpec Collect.

Section SourcesFacts.
Variable page_text : string -> result str.

Lemma documents_of_spec (text : str) (source lang : string) :
  exists docs,
    documents_of text source lang = Ok docs /\
    Forall (chunk_of source lang) docs /\
    (split text = [] -> docs = []).
Proof.
  destruct (chunk_text_bounds text 800 120) as (chunks & R & Z & F);
    [lia|].
  change (Z.to_nat 800) with 800 in F.
  unfold documents_of. rewrite R. cbn [bind]. eexists.
  split; [reflexivity|]. split.
  - rewrite Forall_forall in *. intros d I. apply in_map_iff in I.
    destruct I as (c & <- & I). specialize (F c I).
    unfold chunk_of. simpl. split; [reflexivity|].
    split; [reflexivity|assumption].
  - intro E. rewrite (Z E). reflexivity.
Qed.

(** X20.  [collect_documents] never raises.  Every document it returns
    holds at least one word and at most 800; it is labelled ["en"] with
    the documentation URL as source, and then the page could be fetched,
    or ["ru"] with the path of a file that could be read. *)
Theorem collect_documents_labels (files : list (string * result str)) :
  exists docs,
    collect_documents page_text files = Ok docs /\
    Forall (fun d =>
              (chunk_of BASE_URL "en" d /\
               exists text, page_text BASE_URL = Ok text) \/
              (exists path txt,
                 In (path, Ok txt) files /\ chunk_of path "ru" d)) docs.
Proof.
  assert (L : exists docs,
             local_documents files = Ok docs /\
             Forall (fun d => exists path txt,
                       In (path, Ok txt) files /\ chunk_of path "ru" d) docs).
  { induction files as [|[path [txt|e]] tl IH].
    - exists []. split; [reflexivity|constructor].
    - destruct IH as (rest & R & F).
      destruct (documents_of_spec txt path "ru") as (docs & D & Fd & _).
      exists (docs ++ rest). cbn [local_documents]. rewrite D.
      cbn [bind]. rewrite R.
      split; [reflexivity|]. apply Forall_app. split.
      + rewrite Forall_forall in *. intros d I. exists path, txt.
        split; [simpl; auto|apply Fd; assumption].
      + rewrite Forall_forall in *. intros d I.
        destruct (F d I) as (p & t & Ip & C). exists p, t.
        split; [simpl; auto|assumption].
    - destruct IH as (rest & R & F). exists rest. cbn [local_documents].
      split; [assumption|]. rewrite Forall_forall in *. intros d I.
      destruct (F d I) as (p & t & Ip & C). exists p, t.
      split; [simpl; auto|assumption]. }
  destruct L as (local & Rl & Fl).
  destruct (documents_of_spec (fetch_text_from_url page_text BASE_URL)
                              BASE_URL "en") as (web & Rw & Fw & Zw).
  exists (web ++ local). unfold collect_documents.
  rewrite Rw. cbn [bind]. rewrite Rl. split; [reflexivity|].
  apply Forall_app. split.
  - unfold fetch_text_from_url in Zw.
    destruct (page_text BASE_URL) as [text|e] eqn:E.
    + rewrite Forall_forall in *. intros d I. left. split; [auto|eauto].
    + rewrite (Zw eq_refl). constructor.
  - rewrite Forall_forall in *. intros d I. right. auto.
Qed.
End SourcesFacts.

End CollectSpec.
